(** * globepretty: the real-time controller of the globe widget

    A shallow embedding of the controller that [globepretty.js] wraps around
    the globe.gl widget: the spin state machine with its idle timer, the
    altitude-driven surface opacity / camera near / camera tilt mapping, the
    solar sub-point and the cloud overlay life cycle.

    JavaScript numbers are modelled by the real numbers [R]: arithmetic is
    exact, and neither NaN nor the infinities are represented.  The closure
    variables of the wrapper ([_spinspeed], [_prevLatLngAlt], ...) are the
    fields of one [State] record that every handler transforms. *)

From Stdlib Require Import Reals Lra Lia ZArith Bool List String.
Import ListNotations.

Open Scope R_scope.

(** ** JavaScript values and operators *)

Module JS.

(** The values a numeric variable of the controller can hold. *)
Inductive jsval : Type :=
| undefined
| null
| num (x : R).

Definition Rgtb (x y : R) : bool := if Rlt_dec y x then true else false.
Definition Rltb (x y : R) : bool := if Rlt_dec x y then true else false.
Definition Reqb (x y : R) : bool := if Req_dec_T x y then true else false.

(** [ToBoolean]: a number is truthy unless it is zero. *)
Definition truthy (v : jsval) : bool :=
  match v with
  | num x => negb (Reqb x 0)
  | _ => false
  end.

(** [a || b] *)
Definition or (a b : jsval) : jsval := if truthy a then a else b.

(** [v == null] *)
Definition is_nullish (v : jsval) : bool :=
  match v with
  | num _ => false
  | _ => true
  end.

(** [v === k] for a number literal [k] *)
Definition strict_eq (v : jsval) (k : R) : bool :=
  match v with
  | num x => Reqb x k
  | _ => false
  end.

(** [v > k] for a number [k]: [undefined] converts to NaN and compares
    false, [null] converts to 0. *)
Definition gt (v : jsval) (k : R) : bool :=
  match v with
  | num x => Rgtb x k
  | null => Rgtb 0 k
  | undefined => false
  end.

End JS.

Import JS.

(** ** Data model *)

(** A point-of-view sample of the camera. *)
Record LatLngAlt : Type := mkPov {
  lat : R;
  lng : R;
  altitude : R
}.

(** The fields of the orbit controls that the wrapper writes.  [facing_y] is
    the [y] component of [controls.facing], which exists only once three.js
    has been loaded. *)
Record Controls : Type := mkControls {
  autoRotate : bool;
  autoRotateSpeed : jsval;
  minDistance : R;
  maxDistance : R;
  facing_y : option R
}.

Record Camera : Type := mkCamera {
  near : R;
  far : R
}.

(** The surface overlay mesh: the opacity of a standard material, and the
    uniforms of the day/night shader material. *)
Record Surface : Type := mkSurface {
  material_opacity : R;
  uniforms_opacity : R;
  uniforms_sunPosition : R * R;
  uniforms_globeRotation : R * R
}.

(** The cloud mesh. *)
Record Clouds : Type := mkClouds {
  rotation_y : R
}.

Inductive DayMode : Type := day | night | daynight.

(** A planet of the catalogue; the optional fields are the capabilities.
    The two cloud numbers are read only when [cloudsURL] is there. *)
Record Planet : Type := mkPlanet {
  imageURL : string;
  nightImageURL : option string;
  bumpImageURL : option string;
  waterURL : option string;
  cloudsURL : option string;
  cloudsAltitude : R;
  cloudsRotateSpeed : R
}.

(** [!url] is false for a present, non-empty string only. *)
Definition has_url (url : option string) : bool :=
  match url with
  | Some (String _ _) => true
  | _ => false
  end.

(** The options that the controller reads.  [opt_autoRotateSpeed] is
    [opts.autoRotateSpeed], [showCloudsOpt] is [opts.showClouds], and
    [tileEngineURL] says whether a URL template is configured. *)
Record Opts : Type := mkOpts {
  opt_autoRotateSpeed : R;
  autoSpinAfterIdleMs : Z;
  interactionSpinThreshold : R;
  onlySpinAboveAltitude : R;
  showCloudsOpt : bool;
  tileEngineURL : bool;
  dayMode : DayMode
}.

(** The host's event loop, as far as the controller uses it: the clock, the
    queue of pending [setTimeout] calls of [_onInteraction] (handle and due
    time), the next handle and the number of animation frames requested. *)
Record Browser : Type := mkBrowser {
  now : Z;
  timeouts : list (positive * Z);
  next_handle : positive;
  frames_requested : nat
}.

(** The scene graph, as far as the controller attaches and detaches meshes:
    whether the surface mesh is in it, whether the cloud mesh that [_clouds]
    names is in it, and how many earlier cloud meshes are still in it that
    [_clouds] names no longer. *)
Record Scene : Type := mkScene {
  surface_attached : bool;
  clouds_attached : bool;
  clouds_replaced : nat
}.

(** The closure variables of the wrapper and the objects it writes to.
    [clouds_builds] counts the calls of [_createClouds] and [clouds_loading]
    the cloud textures whose load is in flight. *)
Record State : Type := mkState {
  _globeready : bool;
  _nonInteractionTimer : option positive;
  _prevLatLngAlt : option LatLngAlt;
  _spinspeed : jsval;
  _surface : option Surface;
  _solar : bool;
  _prevSurfaceOpacity : jsval;
  _cloudsshown : bool;
  _clouds : option Clouds;
  clouds_builds : nat;
  clouds_loading : nat;
  controls : Controls;
  camera : Camera;
  scene : Scene;
  browser : Browser
}.

(** Field updates, written with the projections so that reading a field of an
    updated state computes. *)
Definition set_globeready v s :=
  mkState v (_nonInteractionTimer s) (_prevLatLngAlt s) (_spinspeed s) (_surface s) (_solar s)
    (_prevSurfaceOpacity s) (_cloudsshown s) (_clouds s) (clouds_builds s) (clouds_loading s)
    (controls s) (camera s) (scene s) (browser s).
Definition set_nonInteractionTimer v s :=
  mkState (_globeready s) v (_prevLatLngAlt s) (_spinspeed s) (_surface s) (_solar s)
    (_prevSurfaceOpacity s) (_cloudsshown s) (_clouds s) (clouds_builds s) (clouds_loading s)
    (controls s) (camera s) (scene s) (browser s).
Definition set_prevLatLngAlt v s :=
  mkState (_globeready s) (_nonInteractionTimer s) v (_spinspeed s) (_surface s) (_solar s)
    (_prevSurfaceOpacity s) (_cloudsshown s) (_clouds s) (clouds_builds s) (clouds_loading s)
    (controls s) (camera s) (scene s) (browser s).
Definition set_spinspeed v s :=
  mkState (_globeready s) (_nonInteractionTimer s) (_prevLatLngAlt s) v (_surface s) (_solar s)
    (_prevSurfaceOpacity s) (_cloudsshown s) (_clouds s) (clouds_builds s) (clouds_loading s)
    (controls s) (camera s) (scene s) (browser s).
Definition set_surface v s :=
  mkState (_globeready s) (_nonInteractionTimer s) (_prevLatLngAlt s) (_spinspeed s) v (_solar s)
    (_prevSurfaceOpacity s) (_cloudsshown s) (_clouds s) (clouds_builds s) (clouds_loading s)
    (controls s) (camera s) (scene s) (browser s).
Definition set_solar v s :=
  mkState (_globeready s) (_nonInteractionTimer s) (_prevLatLngAlt s) (_spinspeed s) (_surface s) v
    (_prevSurfaceOpacity s) (_cloudsshown s) (_clouds s) (clouds_builds s) (clouds_loading s)
    (controls s) (camera s) (scene s) (browser s).
Definition set_prevSurfaceOpacity v s :=
  mkState (_globeready s) (_nonInteractionTimer s) (_prevLatLngAlt s) (_spinspeed s) (_surface s)
    (_solar s) v (_cloudsshown s) (_clouds s) (clouds_builds s) (clouds_loading s)
    (controls s) (camera s) (scene s) (browser s).
Definition set_cloudsshown v s :=
  mkState (_globeready s) (_nonInteractionTimer s) (_prevLatLngAlt s) (_spinspeed s) (_surface s)
    (_solar s) (_prevSurfaceOpacity s) v (_clouds s) (clouds_builds s) (clouds_loading s)
    (controls s) (camera s) (scene s) (browser s).
Definition set_clouds v s :=
  mkState (_globeready s) (_nonInteractionTimer s) (_prevLatLngAlt s) (_spinspeed s) (_surface s)
    (_solar s) (_prevSurfaceOpacity s) (_cloudsshown s) v (clouds_builds s) (clouds_loading s)
    (controls s) (camera s) (scene s) (browser s).
Definition set_clouds_builds v s :=
  mkState (_globeready s) (_nonInteractionTimer s) (_prevLatLngAlt s) (_spinspeed s) (_surface s)
    (_solar s) (_prevSurfaceOpacity s) (_cloudsshown s) (_clouds s) v (clouds_loading s)
    (controls s) (camera s) (scene s) (browser s).
Definition set_clouds_loading v s :=
  mkState (_globeready s) (_nonInteractionTimer s) (_prevLatLngAlt s) (_spinspeed s) (_surface s)
    (_solar s) (_prevSurfaceOpacity s) (_cloudsshown s) (_clouds s) (clouds_builds s) v
    (controls s) (camera s) (scene s) (browser s).
Definition set_controls v s :=
  mkState (_globeready s) (_nonInteractionTimer s) (_prevLatLngAlt s) (_spinspeed s) (_surface s)
    (_solar s) (_prevSurfaceOpacity s) (_cloudsshown s) (_clouds s) (clouds_builds s)
    (clouds_loading s) v (camera s) (scene s) (browser s).
Definition set_camera v s :=
  mkState (_globeready s) (_nonInteractionTimer s) (_prevLatLngAlt s) (_spinspeed s) (_surface s)
    (_solar s) (_prevSurfaceOpacity s) (_cloudsshown s) (_clouds s) (clouds_builds s)
    (clouds_loading s) (controls s) v (scene s) (browser s).
Definition set_scene v s :=
  mkState (_globeready s) (_nonInteractionTimer s) (_prevLatLngAlt s) (_spinspeed s) (_surface s)
    (_solar s) (_prevSurfaceOpacity s) (_cloudsshown s) (_clouds s) (clouds_builds s)
    (clouds_loading s) (controls s) (camera s) v (browser s).
Definition set_browser v s :=
  mkState (_globeready s) (_nonInteractionTimer s) (_prevLatLngAlt s) (_spinspeed s) (_surface s)
    (_solar s) (_prevSurfaceOpacity s) (_cloudsshown s) (_clouds s) (clouds_builds s)
    (clouds_loading s) (controls s) (camera s) (scene s) v.


(** ** The altitude mappings *)

(** The [opacity] computed by [_changeSurfaceOpacity]:
    [Math.min(1, Math.max(0, (altitude - opacity0alt) / (opacity1alt - opacity0alt)))]. *)
Definition opacity_of_altitude (altitude : R) : R :=
  let opacity1alt := 1 in
  let opacity0alt := 0.4 in
  Rmin 1 (Rmax 0 ((altitude - opacity0alt) / (opacity1alt - opacity0alt))).

(** One cosine hump centred at [center], zero outside
    [center - width/2, center + width/2].  The source also computes
    [scaledX] and [angle], which it never uses. *)
Definition _cosineHump (x center width height : R) : R :=
  let halfWidth := width / 2 in
  let xMin := center - halfWidth in
  let xMax := center + halfWidth in
  if Rltb x xMin || Rgtb x xMax then 0
  else
    let angleFullPeriod := (x - center) * (2 * PI / width) in
    let baseHump := 0.5 * (cos angleFullPeriod + 1) in
    height * baseHump.

(** The [y] that [_changeCameraAngle] computes for an altitude. *)
Definition tilt_of_altitude (alt : R) : R :=
  let maxTiltY := 80 in
  let startTiltAlt := 0 in
  let endTiltAlt := 0.05 in
  let width := endTiltAlt - startTiltAlt in
  let center := startTiltAlt + width / 2 in
  _cosineHump alt center width maxTiltY.

(** ** Construction: capabilities of the planet *)

Definition set_dayMode (m : DayMode) (o : Opts) : Opts :=
  mkOpts (opt_autoRotateSpeed o) (autoSpinAfterIdleMs o) (interactionSpinThreshold o)
    (onlySpinAboveAltitude o) (showCloudsOpt o) (tileEngineURL o) m.

(** [if (!planet.nightImageURL) opts.dayMode = 'day';] *)
Definition apply_planet (planet : Planet) (o : Opts) : Opts :=
  if has_url (nightImageURL planet) then o else set_dayMode day o.

(** A URL as a truthiness test lets it through. *)
Definition present (url : option string) : option string :=
  if has_url url then url else None.

(** The images handed to the widget by the constructor: the globe image and
    the bump image, each only without a tile engine, when the planet has it,
    and outside 'daynight'. *)
Definition globe_images (planet : Planet) (o : Opts) : option string * option string :=
  let plain :=
    negb (tileEngineURL o) && match dayMode o with daynight => false | _ => true end in
  (if plain && has_url (Some (imageURL planet))
   then match dayMode o with
        | night => nightImageURL planet
        | _ => Some (imageURL planet)
        end
   else None,
   if plain then present (bumpImageURL planet) else None).

(** The constructor looks the planet up in the catalogue; reading
    [nightImageURL] of an unknown planet throws. *)
Definition construct (planet : option Planet) (o : Opts)
  : option (Opts * (option string * option string)) :=
  match planet with
  | None => None
  | Some p => let o' := apply_planet p o in Some (o', globe_images p o')
  end.

(** The material that [_showSurface] builds. *)
Inductive Material : Type :=
| DayNightShader (dayTexture nightTexture : string)
| Phong (emissive : bool) (map : string) (bumpMap : option string) (specularMap : string)
| Lambert (emissive : bool) (map : string) (bumpMap : option string).

(** [None] when a texture that has to be loaded has no URL. *)
Definition surface_material (planet : Planet) (o : Opts) : option Material :=
  let planetimage :=
    match dayMode o with
    | night => nightImageURL planet
    | _ => Some (imageURL planet)
    end in
  match planetimage with
  | None => None
  | Some surfaceTexture =>
      let bumpTexture := present (bumpImageURL planet) in
      let emissive := match dayMode o with night => true | _ => false end in
      match dayMode o with
      | daynight =>
          match nightImageURL planet with
          | Some surface2Texture => Some (DayNightShader surfaceTexture surface2Texture)
          | None => None
          end
      | _ =>
          match present (waterURL planet) with
          | Some waterTexture => Some (Phong emissive surfaceTexture bumpTexture waterTexture)
          | None => Some (Lambert emissive surfaceTexture bumpTexture)
          end
      end
  end.

(** ** The host's timers *)

Definition setTimeout (delay : Z) (b : Browser) : positive * Browser :=
  (next_handle b,
   mkBrowser (now b) (timeouts b ++ [(next_handle b, (now b + delay)%Z)])
     (Pos.succ (next_handle b)) (frames_requested b)).

Definition clearTimeout (h : positive) (b : Browser) : Browser :=
  mkBrowser (now b) (filter (fun e => negb (Pos.eqb (fst e) h)) (timeouts b))
    (next_handle b) (frames_requested b).

Definition requestAnimationFrame (b : Browser) : Browser :=
  mkBrowser (now b) (timeouts b) (next_handle b) (S (frames_requested b)).

Definition due (t : Z) (e : positive * Z) : bool := (snd e <=? t)%Z.

(** ** The controller *)

Section Controller.

(** The options after construction, the planet, what the widget answers to
    [getGlobeRadius()] and [globeTileEngineMaxLevel()], the [y] of the
    orbit target, and the three functions of the solar-calculator module. *)
Variable opts : Opts.
Variable planet : Planet.
Variable globeRadius : R.
Variable globeTileEngineMaxLevel : nat.
Variable target_y : R.
Variables century equationOfTime declination : R -> R.

(** *** Spin *)

Definition spinGlobe (speed : jsval) (s : State) : State :=
  let s1 :=
    if is_nullish speed
    then set_spinspeed (JS.or (_spinspeed s) (num (opt_autoRotateSpeed opts))) s
    else if truthy speed then set_spinspeed speed s
    else s in
  let c := controls s1 in
  set_controls
    (mkControls (if strict_eq speed 0 then false else true) (_spinspeed s1)
       (minDistance c) (maxDistance c) (facing_y c))
    s1.

(** The callback that [_onInteraction] hands to [setTimeout]; [latlngalt]
    is what [g.pointOfView()] answers when it runs. *)
Definition idle_timeout (latlngalt : LatLngAlt) (s : State) : State :=
  let s1 := set_nonInteractionTimer None s in
  if Rgtb (altitude latlngalt) (onlySpinAboveAltitude opts)
  then spinGlobe undefined s1
  else s1.

(** [_nonInteractionTimer] is only tested for truthiness, so [undefined] and
    [null] are both [None]. *)
Definition _onInteraction (s : State) : State :=
  if negb (_globeready s) then s
  else if (autoSpinAfterIdleMs opts >? 0)%Z then
    let s1 := spinGlobe (num 0) s in
    let s2 :=
      match _nonInteractionTimer s1 with
      | Some h => set_browser (clearTimeout h (browser s1)) s1
      | None => s1
      end in
    let (h, b) := setTimeout (autoSpinAfterIdleMs opts) (browser s2) in
    set_nonInteractionTimer (Some h) (set_browser b s2)
  else s.

(** The event loop runs until time [t]: every pending timeout due by then
    fires, in the order it was set; the camera stands at [latlngalt]. *)
Definition elapse (t : Z) (latlngalt : LatLngAlt) (s : State) : State :=
  let b := browser s in
  let fired := filter (due t) (timeouts b) in
  let b' :=
    mkBrowser (Z.max (now b) t) (filter (fun e => negb (due t e)) (timeouts b))
      (next_handle b) (frames_requested b) in
  fold_left (fun acc _ => idle_timeout latlngalt acc) fired (set_browser b' s).

(** *** Surface overlay: opacity, camera near, camera tilt *)

Definition _changeCameraNear (near : R) (s : State) : State :=
  let far := globeRadius * 100 in
  let c := controls s in
  set_controls
    (mkControls (autoRotate c) (autoRotateSpeed c)
       (globeRadius * (1 + 5 / 2 ^ globeTileEngineMaxLevel))
       (far - globeRadius) (facing_y c))
    (set_camera (mkCamera near far) s).

Definition _changeCameraAngle (alt : R) (s : State) : State :=
  let y := tilt_of_altitude alt in
  let c := controls s in
  match facing_y c with
  | Some _ =>
      set_controls
        (mkControls (autoRotate c) (autoRotateSpeed c) (minDistance c) (maxDistance c)
           (Some y)) s
  | None => s
  end.

Definition _changeSurfaceOpacity (altitude : R) (s : State) : State :=
  match _surface s with
  | None => s
  | Some sf =>
      if negb (tileEngineURL opts) then s
      else
        let opacity := opacity_of_altitude altitude in
        let sf' :=
          if _solar s
          then mkSurface (material_opacity sf) opacity
                 (uniforms_sunPosition sf) (uniforms_globeRotation sf)
          else mkSurface opacity (uniforms_opacity sf)
                 (uniforms_sunPosition sf) (uniforms_globeRotation sf) in
        let s1 := set_surface (Some sf') s in
        let s2 :=
          if JS.gt (_prevSurfaceOpacity s1) 0 && Reqb opacity 0
          then _changeCameraNear 1e-5 s1
          else if strict_eq (_prevSurfaceOpacity s1) 0 && Rgtb opacity 0
          then _changeCameraNear 0.05 s1
          else s1 in
        _changeCameraAngle altitude (set_prevSurfaceOpacity (num opacity) s2)
  end.

(** The opacity the renderer reads from the surface. *)
Definition surface_opacity (s : State) : option R :=
  match _surface s with
  | Some sf => Some (if _solar s then uniforms_opacity sf else material_opacity sf)
  | None => None
  end.

(** *** Sun *)

(** [dt] is the instant in milliseconds since the epoch;
    [new Date(+dt).setUTCHours(0, 0, 0, 0)] is the start of its UTC day. *)
Definition _sunPosAt (dt : Z) : R * R :=
  let day := (dt / 86400000 * 86400000)%Z in
  let t := century (IZR dt) in
  let lng := IZR (day - dt) / 86400000 * 360 - 180 in
  (lng - equationOfTime t / 4, declination t).

Definition _moveSunToPositionAtDate (dt : Z) (s : State) : State :=
  match _surface s with
  | Some sf =>
      if _solar s
      then set_surface
             (Some (mkSurface (material_opacity sf) (uniforms_opacity sf)
                      (_sunPosAt dt) (uniforms_globeRotation sf))) s
      else s
  | None => s
  end.

Definition _updateSunRotation (latLngAlt : LatLngAlt) (s : State) : State :=
  match _surface s with
  | Some sf =>
      if _solar s
      then set_surface
             (Some (mkSurface (material_opacity sf) (uniforms_opacity sf)
                      (uniforms_sunPosition sf) (lng latLngAlt, lat latLngAlt))) s
      else s
  | None => s
  end.

(** *** The zoom handler *)

(** The callback that the wrapper registers with the widget's [onZoom]; the
    caller's own zoom callback, which it runs last, is outside the model. *)
Definition onZoom (latLngAlt : LatLngAlt) (s : State) : State :=
  let prev := _prevLatLngAlt s in
  let s1 :=
    match prev with
    | Some p =>
        if Rgtb (Rabs (altitude p - altitude latLngAlt)) (interactionSpinThreshold opts)
        then _onInteraction s
        else s
    | None => s
    end in
  let s2 :=
    match prev with
    | Some p =>
        if Rgtb (Rabs (altitude p - altitude latLngAlt)) 0.00001
        then _changeSurfaceOpacity (altitude latLngAlt) s1
        else s1
    | None => s1
    end in
  let moved :=
    match prev with
    | Some p => negb (Reqb (lat p) (lat latLngAlt)) || negb (Reqb (lng p) (lng latLngAlt))
    | None => true
    end in
  let s3 := if moved then _updateSunRotation latLngAlt s2 else s2 in
  set_prevLatLngAlt (Some latLngAlt) s3.

(** Every click handler starts with [_onInteraction()]. *)
Definition onClick (s : State) : State := _onInteraction s.

(** *** three.js and the surface overlay *)

(** [_loadThreeJS], on its first run, gives the controls a [facing] vector
    copied from their target. *)
Definition _loadThreeJS (s : State) : State :=
  let c := controls s in
  match facing_y c with
  | Some _ => s
  | None =>
      set_controls
        (mkControls (autoRotate c) (autoRotateSpeed c) (minDistance c) (maxDistance c)
           (Some target_y)) s
  end.

(** [_showSurface] once all its textures have arrived: the mesh is created
    with opacity 1 (the shader's [opacity: { value: 1.0 }], the default of a
    standard material), the sun is placed in 'daynight' mode (at the instant
    [dt] of that moment), and the mesh is added to the scene. *)
Definition _showSurface (dt : Z) (s : State) : State :=
  let s1 := _loadThreeJS s in
  let s2 := set_solar (match dayMode opts with daynight => true | _ => false end) s1 in
  let s3 := set_surface (Some (mkSurface 1 1 (0, 0) (0, 0))) s2 in
  let s4 :=
    match dayMode opts with
    | daynight => _moveSunToPositionAtDate dt s3
    | _ => s3
    end in
  set_scene (mkScene true (clouds_attached (scene s4)) (clouds_replaced (scene s4))) s4.

(** *** Clouds *)

(** The body of [rotateClouds]: one rotation step, and another frame
    requested while the clouds are shown. *)
Definition rotateClouds (s : State) : State :=
  match _clouds s with
  | Some c =>
      let s1 :=
        set_clouds (Some (mkClouds (rotation_y c + cloudsRotateSpeed planet * PI / 180))) s in
      if _cloudsshown s1
      then set_browser (requestAnimationFrame (browser s1)) s1
      else s1
  | None => s
  end.

Definition _addClouds (s : State) : State :=
  rotateClouds
    (set_scene (mkScene (surface_attached (scene s)) true (clouds_replaced (scene s))) s).

(** [_createClouds] up to the start of the texture load: one more build,
    one more load in flight. *)
Definition _createClouds (s : State) : State :=
  set_clouds_loading (S (clouds_loading s))
    (set_clouds_builds (S (clouds_builds s)) (_loadThreeJS s)).

(** The callback of the texture load: the mesh is created, [_clouds] names
    it from now on, and it is added.  A mesh that [_clouds] named before
    stays in the scene if it was there. *)
Definition clouds_texture_loaded (s : State) : State :=
  match clouds_loading s with
  | O => s
  | S n =>
      let replaced :=
        match _clouds s with
        | Some _ =>
            if clouds_attached (scene s)
            then S (clouds_replaced (scene s))
            else clouds_replaced (scene s)
        | None => clouds_replaced (scene s)
        end in
      _addClouds
        (set_clouds (Some (mkClouds 0))
           (set_scene (mkScene (surface_attached (scene s)) false replaced)
              (set_clouds_loading n s)))
  end.

Definition showClouds (show : bool) (s : State) : State :=
  if Bool.eqb show (_cloudsshown s)
     || negb (has_url (cloudsURL planet))
  then s
  else
    let s1 := set_cloudsshown show s in
    if show
    then match _clouds s1 with
         | None => _createClouds s1
         | Some _ => _addClouds s1
         end
    else set_scene
           (mkScene (surface_attached (scene s1)) false (clouds_replaced (scene s1))) s1.

(** *** Events *)

(** What can happen to a controller: calls of its two public functions,
    camera samples, clicks, the passing of time, the completion of the
    asynchronous loads, animation frames and the periodic sun update.
    [_showSurface] is private and called at most once, from the ready
    callback, so its completion counts only while there is no surface yet. *)
Inductive event : Type :=
| CallSpinGlobe (speed : jsval)
| CallShowClouds (show : bool)
| Zoom (latLngAlt : LatLngAlt)
| Click
| Elapse (t : Z) (latlngalt : LatLngAlt)
| Ready
| SurfaceShown (dt : Z)
| CloudsTextureLoaded
| Frame
| SunTick (dt : Z).

(** The ready callback calls [_showSurface] with a tile engine or in
    'daynight' mode, and the call completes when its textures load. *)
Definition shows_surface : bool :=
  (tileEngineURL opts || match dayMode opts with daynight => true | _ => false end)
  && match surface_material planet opts with Some _ => true | None => false end.

Definition step (s : State) (e : event) : State :=
  match e with
  | CallSpinGlobe speed => spinGlobe speed s
  | CallShowClouds show => showClouds show s
  | Zoom p => onZoom p s
  | Click => onClick s
  | Elapse t p => elapse t p s
  | Ready => set_globeready true s
  | SurfaceShown dt =>
      match _surface s with
      | None => if shows_surface then _showSurface dt s else s
      | Some _ => s
      end
  | CloudsTextureLoaded => clouds_texture_loaded s
  | Frame =>
      match frames_requested (browser s) with
      | O => s
      | S n =>
          rotateClouds
            (set_browser
               (mkBrowser (now (browser s)) (timeouts (browser s))
                  (next_handle (browser s)) n) s)
      end
  | SunTick dt => _moveSunToPositionAtDate dt s
  end.

Definition run (s : State) (es : list event) : State := fold_left step es s.

(** The state in which the wrapper starts, around the camera and controls
    that the widget created. *)
Definition init (cam : Camera) (ctl : Controls) : State :=
  mkState false None None undefined None false undefined false None 0 0
    ctl cam (mkScene false false 0) (mkBrowser 0 [] 1%positive 0).

End Controller.

(** ** The defaults and the catalogue of the source *)

Open Scope string_scope.

(** The defaults that the constructor puts under the caller's options. *)
Definition default_opts : Opts :=
  mkOpts 0.35 15000 0.01 0.4 true true day.

Definition earth : Planet :=
  mkPlanet "./images/earth-day.jpg" (Some "./images/earth-night.jpg")
    (Some "./images/earth-bump.png") (Some "./images/earth-water.png")
    (Some "./images/earth-clouds.png") 0.015 0.006.

Definition moon : Planet :=
  mkPlanet "./images/moon.jpg" None (Some "./images/moon_bump.jpg") None None 0 0.

Definition mercury : Planet :=
  mkPlanet "./images/mercury.jpg" None (Some "./images/mercury-bump.jpg") None None 0 0.

Definition venus : Planet :=
  mkPlanet "./images/venus.jpg" None (Some "./images/venus-bump.jpg") None None 0 0.

Definition mars : Planet :=
  mkPlanet "./images/mars.jpg" None (Some "./images/mars-bump.jpg") None None 0 0.

Definition jupiter : Planet :=
  mkPlanet "./images/jupiter.jpg" None None None None 0 0.

Definition saturn : Planet :=
  mkPlanet "./images/saturn.jpg" None None None None 0 0.

Definition uranus : Planet :=
  mkPlanet "./images/uranus.jpg" None None None None 0 0.

Definition neptune : Planet :=
  mkPlanet "./images/neptune.jpg" None None None None 0 0.

Definition pluto : Planet :=
  mkPlanet "./images/pluto.jpg" None (Some "./images/pluto-bump.jpg") None None 0 0.

Definition sun : Planet :=
  mkPlanet "./images/sun.jpg" None None None None 0 0.

(** [_planet[name]]: the eleven entries of the catalogue; any other name
    gives [undefined]. *)
Definition _planet (name : string) : option Planet :=
  if String.eqb name "earth" then Some earth
  else if String.eqb name "moon" then Some moon
  else if String.eqb name "mercury" then Some mercury
  else if String.eqb name "venus" then Some venus
  else if String.eqb name "mars" then Some mars
  else if String.eqb name "jupiter" then Some jupiter
  else if String.eqb name "saturn" then Some saturn
  else if String.eqb name "uranus" then Some uranus
  else if String.eqb name "neptune" then Some neptune
  else if String.eqb name "pluto" then Some pluto
  else if String.eqb name "sun" then Some sun
  else None.

Close Scope string_scope.

(** A camera and controls as the widget may hand them to the wrapper, and
    the answers of a widget of radius 100 with 17 tile levels. *)
Definition sample_camera : Camera := mkCamera 0.05 10000.
Definition sample_controls : Controls := mkControls false (num 2) 101 10000 None.
Definition sample_init : State := init sample_camera sample_controls.

(** The defaults with the rotation speed 0, which the documentation allows
    ("Zero speed stops it"). *)
Definition zero_speed_opts : Opts := mkOpts 0 15000 0.01 0.4 true true day.

(** The defaults with the blended day/night mode. *)
Definition daynight_opts : Opts := set_dayMode daynight default_opts.

(** Runs on the earth, a widget of radius 100 with 17 tile levels and an
    orbit target at the origin; the solar functions do not matter there. *)
Definition sample_run (opts : Opts) : State -> list event -> State :=
  run opts earth 100 17 0 (fun _ => 0) (fun _ => 0) (fun _ => 0).

(** The camera is taken from altitude 2.5 to 0.3 while the textures of the
    surface still load; then the surface appears. *)
Definition zoomed_in_while_loading : list event :=
  [Zoom (mkPov 0 0 2.5); Zoom (mkPov 0 0 0.3); SurfaceShown 0].

(** The surface appears, the camera reports altitude 2 and then 1.5. *)
Definition zoomed_out : list event :=
  [SurfaceShown 0; Zoom (mkPov 0 0 2); Zoom (mkPov 0 0 1.5)].

(** ** What the altitude mapping shows *)

(** The altitude-derived outputs: the opacity of the surface, the near
    distance of the camera and the tilt ([controls.facing.y]). *)
Definition outputs (s : State) : option R * R * option R :=
  (surface_opacity s, near (camera s), facing_y (controls s)).

(** Whether the zoom handler, in state [s], hands the sample [p] to
    [_changeSurfaceOpacity] and the latter gets past its guard: there is a
    previous sample whose altitude differs by more than 0.00001, the surface
    mesh exists and a tile engine is configured. *)
Definition opacity_sample (opts : Opts) (p : LatLngAlt) (s : State) : bool :=
  match _prevLatLngAlt s, _surface s with
  | Some q, Some _ => Rgtb (Rabs (altitude q - altitude p)) 0.00001 && tileEngineURL opts
  | _, _ => false
  end.

(** The opacity that the surface shows, next to the recorded one. *)
Definition opacity_view (s : State) : option R * jsval :=
  (surface_opacity s, _prevSurfaceOpacity s).

(** Nothing is recorded yet, or the recorded opacity is the one that the
    surface shows. *)
Definition recorded_inv (s : State) : Prop :=
  snd (opacity_view s) = undefined \/
  exists o, opacity_view s = (Some o, num o).

(** ** The invariant of the idle timer *)

(** The timer variable and the queue of the host, as one value. *)
Definition timer_of (s : State) : option positive * list (positive * Z) :=
  (_nonInteractionTimer s, timeouts (browser s)).

(** At most one timeout is pending, and it is the one whose handle
    [_nonInteractionTimer] holds. *)
Definition timer_inv (s : State) : Prop :=
  match _nonInteractionTimer s with
  | Some h => exists d, timeouts (browser s) = [(h, d)]
  | None => timeouts (browser s) = []
  end.

(** ** What the spin controller shows *)

(** The rotation switch and speed of the controls, the remembered speed and
    the idle timer. *)
Definition spin_view (s : State) : bool * jsval * jsval * (option positive * list (positive * Z)) :=
  (autoRotate (controls s), autoRotateSpeed (controls s), _spinspeed s, timer_of s).

(** The globe rotation that the day/night shader uses is the longitude and
    latitude of the latest sample. *)
Definition rotation_synced (s : State) : Prop :=
  forall sf q,
    _surface s = Some sf -> _solar s = true -> _prevLatLngAlt s = Some q ->
    uniforms_globeRotation sf = (lng q, lat q).

(** What the surface overlay and the camera show: the mesh, the solar
    module, the recorded opacity, the latest sample, the camera and the
    distance limits of the controls. *)
Definition overlay_view (s : State)
  : option Surface * bool * jsval * option LatLngAlt * Camera * R * R :=
  (_surface s, _solar s, _prevSurfaceOpacity s, _prevLatLngAlt s, camera s,
   minDistance (controls s), maxDistance (controls s)).

(** ** What the clouds show *)

(** The mesh, the visibility flag, the builds and loads started, whether the
    mesh is in the scene, the number of pending [rotateClouds] frames, and
    the number of replaced meshes left in the scene. *)
Definition clouds_view (s : State)
  : option Clouds * bool * nat * nat * bool * nat * nat :=
  (_clouds s, _cloudsshown s, clouds_builds s, clouds_loading s,
   clouds_attached (scene s), frames_requested (browser s),
   clouds_replaced (scene s)).

(** ** The first view *)

(** [_getUserLatLng]: [offset], [offsetJan] and [offsetJul] are what
    [getTimezoneOffset()] answers now, on 1 January and on 1 July of the
    year, in minutes, positive west of Greenwich.  The result is the pair
    [(lat, lng)]. *)
Definition _getUserLatLng (offset offsetJan offsetJul : Z) : R * R :=
  let offsetHrs := IZR offset / -60 in
  let lng := offsetHrs * 15 in
  let jan := (- offsetJan)%Z in
  let jul := (- offsetJul)%Z in
  let lat :=
    if (jan - jul <? 0)%Z then 30
    else if (jan - jul >? 0)%Z then -30
    else 0 in
  (lat, lng).

(** ** The day/night shader *)

(** The fragment shader of [_createDayNightMaterial], with the vectors,
    matrices and built-in functions of GLSL that it uses. *)
Module Shader.

Record Vec3 : Type := vec3 { vx : R; vy : R; vz : R }.
Record Vec4 : Type := vec4 { cr : R; cg : R; cb : R; ca : R }.

(** A [mat3] is stored by columns, and its constructor takes them one
    after the other. *)
Record Mat3 : Type := columns { col0 : Vec3; col1 : Vec3; col2 : Vec3 }.

Definition mat3 (a b c d e f g h i : R) : Mat3 :=
  columns (vec3 a b c) (vec3 d e f) (vec3 g h i).

Definition scale (k : R) (v : Vec3) : Vec3 := vec3 (k * vx v) (k * vy v) (k * vz v).

Definition add (u v : Vec3) : Vec3 := vec3 (vx u + vx v) (vy u + vy v) (vz u + vz v).

(** [m * v] *)
Definition mul_vec (m : Mat3) (v : Vec3) : Vec3 :=
  add (add (scale (vx v) (col0 m)) (scale (vy v) (col1 m))) (scale (vz v) (col2 m)).

(** [m * n] *)
Definition mul_mat (m n : Mat3) : Mat3 :=
  columns (mul_vec m (col0 n)) (mul_vec m (col1 n)) (mul_vec m (col2 n)).

Definition dot (u v : Vec3) : R := vx u * vx v + vy u * vy v + vz u * vz v.

Definition normalize (v : Vec3) : Vec3 := scale (/ sqrt (dot v v)) v.

Definition clamp (x lo hi : R) : R := Rmin (Rmax x lo) hi.

Definition smoothstep (edge0 edge1 x : R) : R :=
  let t := clamp ((x - edge0) / (edge1 - edge0)) 0 1 in
  t * t * (3 - 2 * t).

Definition mix (x y : Vec4) (a : R) : Vec4 :=
  vec4 (cr x * (1 - a) + cr y * a) (cg x * (1 - a) + cg y * a)
       (cb x * (1 - a) + cb y * a) (ca x * (1 - a) + ca y * a).

(** [#define PI 3.141592653589793] *)
Definition PI : R := 3.141592653589793.

Definition toRad (a : R) : R := a * PI / 180.

(** The argument is [(lng, lat)]. *)
Definition Polar2Cartesian (c : R * R) : Vec3 :=
  let theta := toRad (90 - fst c) in
  let phi := toRad (90 - snd c) in
  vec3 (sin phi * cos theta) (cos phi) (sin phi * sin theta).

(** The first lines of [main]: the direction of the sun, turned by the
    rotation of the globe. *)
Definition rotatedSunDirection (sunPosition globeRotation : R * R) : Vec3 :=
  let invLon := toRad (fst globeRotation) in
  let invLat := - toRad (snd globeRotation) in
  let rotX :=
    mat3 1 0 0
         0 (cos invLat) (- sin invLat)
         0 (sin invLat) (cos invLat) in
  let rotY :=
    mat3 (cos invLon) 0 (sin invLon)
         0 1 0
         (- sin invLon) 0 (cos invLon) in
  mul_vec (mul_mat rotX rotY) (Polar2Cartesian sunPosition).

Definition intensity (sunPosition globeRotation : R * R) (vNormal : Vec3) : R :=
  dot (normalize vNormal) (normalize (rotatedSunDirection sunPosition globeRotation)).

(** [main]: the colour of a fragment with normal [vNormal], whose texels in
    the two textures are [dayColor] and [nightColor]. *)
Definition main (sunPosition globeRotation : R * R) (opacity : R) (vNormal : Vec3)
    (dayColor nightColor : Vec4) : Vec4 :=
  let blendFactor := smoothstep (-0.1) 0.1 (intensity sunPosition globeRotation vNormal) in
  let gl_FragColor := mix nightColor dayColor blendFactor in
  vec4 (cr gl_FragColor) (cg gl_FragColor) (cb gl_FragColor) opacity.

End Shader.

(** ** Shadows *)

(** An object of the scene graph: whether it is a mesh, whether it casts
    shadows, and its children. *)
#[warnings="-register-all"]
Inductive Object3D : Type :=
| object3D (isMesh castShadow : bool) (children : list Object3D).

(** [obj.traverse(callback)] with the callback of [castShadows]: the object
    itself first, then its children. *)
Fixpoint traverse_cast (obj : Object3D) : Object3D :=
  match obj with
  | object3D isMesh castShadow children =>
      object3D isMesh (if isMesh then true else castShadow) (map traverse_cast children)
  end.

(** What [castShadows] can be given: nothing (or a falsy value), a value
    without a [traverse] function, or an object of the scene graph. *)
Inductive cast_arg : Type :=
| cast_nothing
| cast_untraversable
| cast_object (obj : Object3D).

(** [castShadows(obj)]: the object that was traversed, as it is afterwards;
    [None] when the function returned early.  [scene] is [g.scene()]. *)
Definition castShadows (obj : cast_arg) (scene : Object3D) : option Object3D :=
  match obj with
  | cast_nothing => Some (traverse_cast scene)
  | cast_untraversable => None
  | cast_object o => Some (traverse_cast o)
  end.

(** The objects of a graph, each with its two flags, parents first. *)
Fixpoint flags (obj : Object3D) : list (bool * bool) :=
  match obj with
  | object3D isMesh castShadow children =>
      (isMesh, castShadow) :: flat_map flags children
  end.

(** ** Runs without interaction *)

Section QuietRuns.

Variable opts : Opts.
Variable planet : Planet.
Variable globeRadius : R.
Variable globeTileEngineMaxLevel : nat.
Variable target_y : R.
Variables century equationOfTime declination : R -> R.

(** Whether the event [e], arriving in the state [s], is an interaction or
    otherwise takes a hand in the rotation before the time [deadline]: a
    click, a zoom sample that the zoom handler counts as an interaction (its
    altitude differs from the previous sample's by more than
    [interactionSpinThreshold]), an explicit call of [spinGlobe], or the
    clock reaching [deadline]. *)
Definition interrupts (deadline : Z) (s : State) (e : event) : bool :=
  match e with
  | Click | CallSpinGlobe _ => true
  | Zoom latLngAlt =>
      match _prevLatLngAlt s with
      | Some p =>
          Rgtb (Rabs (altitude p - altitude latLngAlt)) (interactionSpinThreshold opts)
      | None => false
      end
  | Elapse t _ => (deadline <=? t)%Z
  | _ => false
  end.

(** No event of the run [es] from [s] interrupts. *)
Fixpoint quiet_until (deadline : Z) (s : State) (es : list event) : bool :=
  match es with
  | [] => true
  | e :: es' =>
      negb (interrupts deadline s e) &&
      quiet_until deadline
        (step opts planet globeRadius globeTileEngineMaxLevel target_y
           century equationOfTime declination s e) es'
  end.

End QuietRuns.

(** ** The solar module, call by call *)

(** The solar-calculator module is a dependency that the wrapper imports
    ([./dependency/solar-calculator.mjs]).  [_sunPosAt] calls three
    functions of it; here each call goes into an object that may keep state
    of its own: it takes the state [M] of the module and answers with a
    number and the state it leaves. *)
Record SolarModule (M : Type) : Type := mkSolarModule {
  solar_century : R -> M -> R * M;
  solar_equationOfTime : R -> M -> R * M;
  solar_declination : R -> M -> R * M
}.

Arguments mkSolarModule {M}.
Arguments solar_century {M}.
Arguments solar_equationOfTime {M}.
Arguments solar_declination {M}.

(** [_sunPosAt(_solar, dt)] with its calls in the order in which they are
    evaluated: [century(dt)], then, for the array that is returned,
    [equationOfTime(t)] and [declination(t)].  The result is the pair of
    [_sunPosAt] and the state in which the module is left. *)
Definition sunPosAt_calls {M : Type} (solar : SolarModule M) (dt : Z) (m : M)
  : (R * R) * M :=
  let day := (dt / 86400000 * 86400000)%Z in
  let (t, m1) := solar_century solar (IZR dt) m in
  let lng := IZR (day - dt) / 86400000 * 360 - 180 in
  let (e, m2) := solar_equationOfTime solar t m1 in
  let (d, m3) := solar_declination solar t m2 in
  ((lng - e / 4, d), m3).



Definition stateful_module : SolarModule nat :=
  mkSolarModule (fun x m => (INR m, S m))
                (fun t m => (0, m))
                (fun t m => (t, m)).

(** * Properties *)

(** ** Comparisons and values *)

Lemma Rgtb_true x y : Rgtb x y = true <-> x > y.
Proof. unfold Rgtb; destruct (Rlt_dec y x); split; auto; discriminate. Qed.

Lemma Rgtb_false x y : Rgtb x y = false <-> x <= y.
Proof.
  unfold Rgtb; destruct (Rlt_dec y x); split; auto; try discriminate; lra.
Qed.

Lemma Rltb_true x y : Rltb x y = true <-> x < y.
Proof. unfold Rltb; destruct (Rlt_dec x y); split; auto; discriminate. Qed.

Lemma Rltb_false x y : Rltb x y = false <-> y <= x.
Proof.
  unfold Rltb; destruct (Rlt_dec x y); split; auto; try discriminate; lra.
Qed.

Lemma Reqb_true x y : Reqb x y = true <-> x = y.
Proof. unfold Reqb; destruct (Req_dec_T x y); split; auto; discriminate. Qed.

Lemma Reqb_false x y : Reqb x y = false <-> x <> y.
Proof.
  unfold Reqb; destruct (Req_dec_T x y); split; auto; try discriminate.
  intros H; contradiction.
Qed.

Lemma Reqb_refl x : Reqb x x = true.
Proof. now apply Reqb_true. Qed.

Lemma truthy_num x : truthy (num x) = true <-> x <> 0.
Proof.
  simpl; rewrite negb_true_iff; apply Reqb_false.
Qed.


(** Evaluation of a handler on concrete numbers: the comparisons are settled
    by [lra], everything else computes. *)

Arguments Rgtb : simpl never.
Arguments Rltb : simpl never.
Arguments Reqb : simpl never.
Arguments opacity_of_altitude : simpl never.
Arguments tilt_of_altitude : simpl never.

Ltac eval_cmp :=
  repeat match goal with
  | |- context [Rgtb ?a ?b] =>
      (rewrite (proj2 (Rgtb_true a b)) by lra) || (rewrite (proj2 (Rgtb_false a b)) by lra)
  | |- context [Rltb ?a ?b] =>
      (rewrite (proj2 (Rltb_true a b)) by lra) || (rewrite (proj2 (Rltb_false a b)) by lra)
  | |- context [Reqb ?a ?b] =>
      (rewrite (proj2 (Reqb_true a b)) by lra) || (rewrite (proj2 (Reqb_false a b)) by lra)
  | |- context [Rabs ?a] =>
      (rewrite (Rabs_pos_eq a) by lra) || (rewrite (Rabs_left a) by lra)
  end.

Ltac eval_run := repeat (cbn; eval_cmp).

(** ** The altitude mappings *)

Lemma opacity_of_altitude_unfold a :
  opacity_of_altitude a = Rmin 1 (Rmax 0 ((a - 0.4) / (1 - 0.4))).
Proof. reflexivity. Qed.

Lemma ramp_le a b : a <= b -> (a - 0.4) / (1 - 0.4) <= (b - 0.4) / (1 - 0.4).
Proof.
  intros Hab; unfold Rdiv.
  apply Rmult_le_compat_r; [ | lra ].
  apply Rlt_le, Rinv_0_lt_compat; lra.
Qed.

Lemma ramp_sign a : 0 <= (a - 0.4) / (1 - 0.4) <-> 0.4 <= a.
Proof.
  replace ((a - 0.4) / (1 - 0.4)) with ((a - 0.4) * (5 / 3)) by lra.
  lra.
Qed.

Lemma ramp_one a : 1 <= (a - 0.4) / (1 - 0.4) <-> 1 <= a.
Proof.
  replace ((a - 0.4) / (1 - 0.4)) with ((a - 0.4) * (5 / 3)) by lra.
  lra.
Qed.

Lemma opacity_of_altitude_low a : a <= 0.4 -> opacity_of_altitude a = 0.
Proof.
  intros Ha; rewrite opacity_of_altitude_unfold.
  assert (H : (a - 0.4) / (1 - 0.4) <= 0).
  { replace ((a - 0.4) / (1 - 0.4)) with ((a - 0.4) * (5 / 3)) by lra; lra. }
  rewrite Rmax_left by exact H.
  apply Rmin_right; lra.
Qed.

Lemma opacity_of_altitude_high a : 1 <= a -> opacity_of_altitude a = 1.
Proof.
  intros Ha; rewrite opacity_of_altitude_unfold.
  apply ramp_one in Ha.
  rewrite Rmax_right by lra.
  now apply Rmin_left.
Qed.

Lemma opacity_of_altitude_mid a :
  0.4 <= a <= 1 -> opacity_of_altitude a = (a - 0.4) / (1 - 0.4).
Proof.
  intros [ Hlo Hhi ]; rewrite opacity_of_altitude_unfold.
  apply ramp_sign in Hlo.
  assert (H1 : (a - 0.4) / (1 - 0.4) <= 1).
  { replace ((a - 0.4) / (1 - 0.4)) with ((a - 0.4) * (5 / 3)) by lra; lra. }
  rewrite Rmax_right by exact Hlo.
  now apply Rmin_right.
Qed.

Lemma opacity_of_altitude_range a : 0 <= opacity_of_altitude a <= 1.
Proof.
  rewrite opacity_of_altitude_unfold; split.
  - apply Rmin_glb; [ lra | apply Rmax_l ].
  - apply Rmin_l.
Qed.

Lemma opacity_of_altitude_mono a b :
  a <= b -> opacity_of_altitude a <= opacity_of_altitude b.
Proof.
  intros Hab; rewrite !opacity_of_altitude_unfold.
  apply Rle_min_compat_l, Rle_max_compat_l, ramp_le, Hab.
Qed.

Lemma tilt_of_altitude_unfold a :
  tilt_of_altitude a =
  if Rltb a 0 || Rgtb a 0.05 then 0
  else 80 * (0.5 * (cos ((a - 0.025) * (2 * PI / 0.05)) + 1)).
Proof.
  unfold tilt_of_altitude, _cosineHump; cbv zeta.
  replace (0 + (0.05 - 0) / 2 - (0.05 - 0) / 2) with 0 by lra.
  replace (0 + (0.05 - 0) / 2 + (0.05 - 0) / 2) with 0.05 by lra.
  replace (0 + (0.05 - 0) / 2) with 0.025 by lra.
  replace (0.05 - 0) with 0.05 by lra.
  reflexivity.
Qed.

Lemma tilt_of_altitude_outside a : a < 0 \/ 0.05 < a -> tilt_of_altitude a = 0.
Proof.
  intros Ha; rewrite tilt_of_altitude_unfold.
  destruct Ha as [ Ha | Ha ].
  - apply Rltb_true in Ha; now rewrite Ha.
  - apply Rgtb_true in Ha; rewrite Ha; now rewrite orb_true_r.
Qed.

Lemma tilt_of_altitude_inside a :
  0 <= a <= 0.05 ->
  tilt_of_altitude a = 80 * 0.5 * (cos ((a - 0.025) * 2 * PI / 0.05) + 1).
Proof.
  intros [ Hlo Hhi ]; rewrite tilt_of_altitude_unfold.
  apply Rltb_false in Hlo; apply Rgtb_false in Hhi; rewrite Hlo, Hhi; cbn.
  replace ((a - 0.025) * 2 * PI / 0.05) with ((a - 0.025) * (2 * PI / 0.05)) by lra.
  lra.
Qed.

Lemma tilt_of_altitude_peak : tilt_of_altitude 0.025 = 80.
Proof.
  rewrite tilt_of_altitude_inside by lra.
  replace ((0.025 - 0.025) * 2 * PI / 0.05) with 0 by lra.
  rewrite cos_0; lra.
Qed.

Lemma tilt_of_altitude_symmetric d :
  tilt_of_altitude (0.025 + d) = tilt_of_altitude (0.025 - d).
Proof.
  rewrite !tilt_of_altitude_unfold.
  replace ((0.025 - d - 0.025) * (2 * PI / 0.05))
    with (- ((0.025 + d - 0.025) * (2 * PI / 0.05))) by lra.
  rewrite cos_neg.
  destruct (Rlt_dec d (- 0.025)) as [ H | Hlo ];
    [ | destruct (Rlt_dec 0.025 d) as [ H | Hhi ] ].
  - rewrite (proj2 (Rltb_true (0.025 + d) 0)) by lra.
    rewrite (proj2 (Rgtb_true (0.025 - d) 0.05)) by lra.
    now rewrite orb_true_r.
  - rewrite (proj2 (Rgtb_true (0.025 + d) 0.05)) by lra.
    rewrite (proj2 (Rltb_true (0.025 - d) 0)) by lra.
    now rewrite orb_true_r.
  - rewrite (proj2 (Rltb_false (0.025 + d) 0)), (proj2 (Rgtb_false (0.025 + d) 0.05)) by lra.
    rewrite (proj2 (Rltb_false (0.025 - d) 0)), (proj2 (Rgtb_false (0.025 - d) 0.05)) by lra.
    reflexivity.
Qed.

(** ** Spin *)

Section SpinFacts.

Variable opts : Opts.

Lemma spinGlobe_autoRotate speed s :
  autoRotate (controls (spinGlobe opts speed s)) = negb (strict_eq speed 0).
Proof.
  unfold spinGlobe; cbn.
  now destruct (strict_eq speed 0).
Qed.

Lemma spinGlobe_autoRotateSpeed speed s :
  autoRotateSpeed (controls (spinGlobe opts speed s)) = _spinspeed (spinGlobe opts speed s).
Proof.
  unfold spinGlobe; cbn.
  destruct (is_nullish speed); [ reflexivity | ].
  now destruct (truthy speed).
Qed.

Lemma spinGlobe_spinspeed speed s :
  _spinspeed (spinGlobe opts speed s) =
  if is_nullish speed then JS.or (_spinspeed s) (num (opt_autoRotateSpeed opts))
  else if truthy speed then speed else _spinspeed s.
Proof.
  unfold spinGlobe; cbn.
  destruct (is_nullish speed); [ reflexivity | ].
  now destruct (truthy speed).
Qed.

Lemma spinGlobe_zero s :
  _spinspeed (spinGlobe opts (num 0) s) = _spinspeed s.
Proof.
  rewrite spinGlobe_spinspeed; cbn.
  now rewrite Reqb_refl.
Qed.

Lemma spinGlobe_nonzero v s :
  v <> 0 -> _spinspeed (spinGlobe opts (num v) s) = num v.
Proof.
  intros Hv; rewrite spinGlobe_spinspeed; cbn.
  apply Reqb_false in Hv; now rewrite Hv.
Qed.

Lemma strict_eq_nullish speed k : is_nullish speed = true -> strict_eq speed k = false.
Proof. now destruct speed. Qed.

End SpinFacts.

(** ** Which fields a handler leaves alone *)

Ltac break_match :=
  match goal with
  | |- context [match ?x with _ => _ end] => destruct x eqn:?
  end.

Ltac frame := intros; repeat (cbn; try reflexivity; try break_match).

Section Frames.

Variable opts : Opts.
Variable planet : Planet.
Variable globeRadius : R.
Variable globeTileEngineMaxLevel : nat.
Variable target_y : R.
Variables century equationOfTime declination : R -> R.

Local Abbreviation changeSurfaceOpacity :=
  (_changeSurfaceOpacity opts globeRadius globeTileEngineMaxLevel).
Local Abbreviation zoom := (onZoom opts globeRadius globeTileEngineMaxLevel).
Local Abbreviation moveSun := (_moveSunToPositionAtDate century equationOfTime declination).
Local Abbreviation showSurface :=
  (_showSurface opts target_y century equationOfTime declination).
Local Abbreviation stepc :=
  (step opts planet globeRadius globeTileEngineMaxLevel target_y
     century equationOfTime declination).
Local Abbreviation runc :=
  (run opts planet globeRadius globeTileEngineMaxLevel target_y
     century equationOfTime declination).

Lemma changeSurfaceOpacity_spinspeed a s :
  _spinspeed (changeSurfaceOpacity a s) = _spinspeed s.
Proof. unfold _changeSurfaceOpacity, _changeCameraAngle, _changeCameraNear. frame. Qed.

Lemma updateSunRotation_spinspeed p s :
  _spinspeed (_updateSunRotation p s) = _spinspeed s.
Proof. unfold _updateSunRotation. frame. Qed.

Lemma moveSun_spinspeed dt s : _spinspeed (moveSun dt s) = _spinspeed s.
Proof. unfold _moveSunToPositionAtDate. frame. Qed.

Lemma showSurface_spinspeed dt s : _spinspeed (showSurface dt s) = _spinspeed s.
Proof.
  unfold _showSurface, _moveSunToPositionAtDate, _loadThreeJS. frame.
Qed.

Lemma rotateClouds_spinspeed s : _spinspeed (rotateClouds planet s) = _spinspeed s.
Proof. unfold rotateClouds. frame. Qed.

Lemma showClouds_spinspeed show s :
  _spinspeed (showClouds planet target_y show s) = _spinspeed s.
Proof.
  unfold showClouds, _createClouds, _addClouds, rotateClouds, _loadThreeJS. frame.
Qed.

Lemma clouds_texture_loaded_spinspeed s :
  _spinspeed (clouds_texture_loaded planet s) = _spinspeed s.
Proof. unfold clouds_texture_loaded, _addClouds, rotateClouds. frame. Qed.

(** A property of the remembered speed that survives the [||] with the
    default is kept by every run whose explicit speeds establish it. *)
Section SpinspeedInvariant.

Variable P : jsval -> Prop.
Variable allowed : jsval -> Prop.
Hypothesis P_or : forall x, P x -> P (JS.or x (num (opt_autoRotateSpeed opts))).
Hypothesis P_set : forall v, allowed v -> truthy v = true -> P v.

Lemma spinGlobe_inv v s :
  (is_nullish v = false -> allowed v) ->
  P (_spinspeed s) -> P (_spinspeed (spinGlobe opts v s)).
Proof.
  intros Hv HP; rewrite spinGlobe_spinspeed.
  destruct (is_nullish v); [ now apply P_or | ].
  destruct (truthy v) eqn:Ht; [ apply P_set; auto | exact HP ].
Qed.

Lemma spinGlobe_zero_inv s :
  P (_spinspeed s) -> P (_spinspeed (spinGlobe opts (num 0) s)).
Proof. now rewrite spinGlobe_zero. Qed.

Lemma spinGlobe_undefined_inv s :
  P (_spinspeed s) -> P (_spinspeed (spinGlobe opts undefined s)).
Proof. rewrite spinGlobe_spinspeed; cbn; apply P_or. Qed.

Lemma onInteraction_inv s :
  P (_spinspeed s) -> P (_spinspeed (_onInteraction opts s)).
Proof.
  intros HP; unfold _onInteraction.
  destruct (negb (_globeready s)); [ exact HP | ].
  destruct (autoSpinAfterIdleMs opts >? 0)%Z; [ | exact HP ].
  apply spinGlobe_zero_inv in HP.
  destruct (_nonInteractionTimer (spinGlobe opts (num 0) s)); cbn; exact HP.
Qed.

Lemma idle_timeout_inv p s :
  P (_spinspeed s) -> P (_spinspeed (idle_timeout opts p s)).
Proof.
  intros HP; unfold idle_timeout.
  destruct (Rgtb _ _); [ | exact HP ].
  now apply spinGlobe_undefined_inv.
Qed.

Lemma fold_idle_timeout_inv {A} p (l : list A) s :
  P (_spinspeed s) ->
  P (_spinspeed (fold_left (fun acc _ => idle_timeout opts p acc) l s)).
Proof.
  revert s; induction l as [ | x l IH ]; intros s HP; cbn; [ exact HP | ].
  now apply IH, idle_timeout_inv.
Qed.

Lemma elapse_inv t p s :
  P (_spinspeed s) -> P (_spinspeed (elapse opts t p s)).
Proof. intros HP; unfold elapse; now apply fold_idle_timeout_inv. Qed.

Lemma onZoom_inv p s :
  P (_spinspeed s) -> P (_spinspeed (zoom p s)).
Proof.
  intros HP; unfold onZoom; cbn.
  repeat match goal with
  | |- context [_spinspeed (_updateSunRotation ?p ?s)] =>
      rewrite (updateSunRotation_spinspeed p s)
  | |- context [_spinspeed (changeSurfaceOpacity ?a ?s)] =>
      rewrite (changeSurfaceOpacity_spinspeed a s)
  | |- P (_spinspeed (_onInteraction opts ?s)) => apply onInteraction_inv
  | |- P (_spinspeed (if ?b then _ else _)) => destruct b
  | |- P (_spinspeed (match ?x with _ => _ end)) => destruct x
  end; exact HP.
Qed.

Definition speed_allowed (e : event) : Prop :=
  match e with
  | CallSpinGlobe v => is_nullish v = false -> allowed v
  | _ => True
  end.

Lemma step_inv s e :
  speed_allowed e -> P (_spinspeed s) -> P (_spinspeed (stepc s e)).
Proof.
  intros He HP; destruct e; cbn [step].
  - now apply spinGlobe_inv.
  - now rewrite showClouds_spinspeed.
  - now apply onZoom_inv.
  - now apply onInteraction_inv.
  - now apply elapse_inv.
  - exact HP.
  - destruct (_surface s); [ exact HP | ].
    destruct (shows_surface opts planet); [ now rewrite showSurface_spinspeed | exact HP ].
  - now rewrite clouds_texture_loaded_spinspeed.
  - destruct (frames_requested (browser s)); [ exact HP | ].
    now rewrite rotateClouds_spinspeed.
  - now rewrite moveSun_spinspeed.
Qed.

Lemma run_inv es s :
  Forall speed_allowed es -> P (_spinspeed s) -> P (_spinspeed (runc s es)).
Proof.
  revert s; induction es as [ | e es IH ]; intros s Hes HP; cbn; [ exact HP | ].
  inversion Hes; subst.
  now apply IH, step_inv.
Qed.

End SpinspeedInvariant.

End Frames.

(** ** The idle timer *)

Section TimerFacts.

Variable opts : Opts.
Variable planet : Planet.
Variable globeRadius : R.
Variable globeTileEngineMaxLevel : nat.
Variable target_y : R.
Variables century equationOfTime declination : R -> R.

Local Abbreviation stepc :=
  (step opts planet globeRadius globeTileEngineMaxLevel target_y
     century equationOfTime declination).
Local Abbreviation runc :=
  (run opts planet globeRadius globeTileEngineMaxLevel target_y
     century equationOfTime declination).

Lemma spinGlobe_timer v s : timer_of (spinGlobe opts v s) = timer_of s.
Proof. unfold timer_of, spinGlobe. frame. Qed.

Lemma changeSurfaceOpacity_timer a s :
  timer_of (_changeSurfaceOpacity opts globeRadius globeTileEngineMaxLevel a s) = timer_of s.
Proof. unfold timer_of, _changeSurfaceOpacity, _changeCameraAngle, _changeCameraNear. frame. Qed.

Lemma updateSunRotation_timer p s : timer_of (_updateSunRotation p s) = timer_of s.
Proof. unfold timer_of, _updateSunRotation. frame. Qed.

Lemma moveSun_timer dt s :
  timer_of (_moveSunToPositionAtDate century equationOfTime declination dt s) = timer_of s.
Proof. unfold timer_of, _moveSunToPositionAtDate. frame. Qed.

Lemma showSurface_timer dt s :
  timer_of (_showSurface opts target_y century equationOfTime declination dt s) = timer_of s.
Proof. unfold timer_of, _showSurface, _moveSunToPositionAtDate, _loadThreeJS. frame. Qed.

Lemma rotateClouds_timer s : timer_of (rotateClouds planet s) = timer_of s.
Proof. unfold timer_of, rotateClouds. frame. Qed.

Lemma showClouds_timer show s : timer_of (showClouds planet target_y show s) = timer_of s.
Proof. unfold timer_of, showClouds, _createClouds, _addClouds, rotateClouds, _loadThreeJS. frame. Qed.

Lemma clouds_texture_loaded_timer s : timer_of (clouds_texture_loaded planet s) = timer_of s.
Proof. unfold timer_of, clouds_texture_loaded, _addClouds, rotateClouds. frame. Qed.

Lemma set_prevLatLngAlt_timer v s : timer_of (set_prevLatLngAlt v s) = timer_of s.
Proof. reflexivity. Qed.

Lemma timer_inv_ext s s' : timer_of s' = timer_of s -> timer_inv s -> timer_inv s'.
Proof. unfold timer_of, timer_inv; intros H; injection H as H1 H2; now rewrite H1, H2. Qed.

Lemma filter_other_handle (h : positive) d :
  filter (fun e : positive * Z => negb (Pos.eqb (fst e) h)) [(h, d)] = [].
Proof. cbn; now rewrite Pos.eqb_refl. Qed.

(** What a counted interaction leaves behind: rotation off, the remembered
    speed untouched, and exactly one timeout, due after the idle delay. *)
Lemma onInteraction_counted s :
  timer_inv s -> _globeready s = true -> (0 < autoSpinAfterIdleMs opts)%Z ->
  let s' := _onInteraction opts s in
  autoRotate (controls s') = false /\
  _spinspeed s' = _spinspeed s /\
  now (browser s') = now (browser s) /\
  _nonInteractionTimer s' = Some (next_handle (browser s)) /\
  timeouts (browser s') =
    [(next_handle (browser s), (now (browser s) + autoSpinAfterIdleMs opts)%Z)].
Proof.
  intros Hinv Hready HD; unfold _onInteraction.
  rewrite Hready; cbn [negb].
  apply Z.gtb_lt in HD; rewrite HD.
  assert (Hh : _nonInteractionTimer (spinGlobe opts (num 0) s) = _nonInteractionTimer s)
    by (pose proof (spinGlobe_timer (num 0) s) as Ht; unfold timer_of in Ht; congruence).
  assert (Hq : timeouts (browser (spinGlobe opts (num 0) s)) = timeouts (browser s))
    by (pose proof (spinGlobe_timer (num 0) s) as Ht; unfold timer_of in Ht; congruence).
  assert (Hb : browser (spinGlobe opts (num 0) s) = browser s)
    by (unfold spinGlobe; frame).
  pose proof (spinGlobe_autoRotate opts (num 0) s) as Ha.
  pose proof (spinGlobe_zero opts s) as Hs.
  cbn [strict_eq] in Ha; rewrite Reqb_refl in Ha.
  set (s1 := spinGlobe opts (num 0) s) in *; clearbody s1.
  rewrite Hh.
  revert Hinv; unfold timer_inv.
  destruct (_nonInteractionTimer s) as [ h | ]; intros Hinv; cbn.
  - destruct Hinv as [ d Hd ]; rewrite Hb, Hd, filter_other_handle.
    now repeat split.
  - rewrite Hb, Hinv.
    now repeat split.
Qed.

Lemma onInteraction_timer_inv s : timer_inv s -> timer_inv (_onInteraction opts s).
Proof.
  intros Hinv.
  destruct (_globeready s) eqn:Hready;
    [ | unfold _onInteraction; now rewrite Hready ].
  destruct (Z.ltb_spec 0 (autoSpinAfterIdleMs opts)) as [ HD | HD ].
  - pose proof (onInteraction_counted s Hinv Hready HD) as H; cbv zeta in H.
    destruct H as (_ & _ & _ & H1 & H2).
    unfold timer_inv; rewrite H1, H2; now eexists.
  - unfold _onInteraction; rewrite Hready; cbn [negb].
    destruct (autoSpinAfterIdleMs opts >? 0)%Z eqn:E; [ | exact Hinv ].
    apply Z.gtb_lt in E; lia.
Qed.

(** Before the timeout is due, the passing of time only moves the clock. *)
Lemma elapse_early t q s h d :
  timeouts (browser s) = [(h, d)] -> (t < d)%Z ->
  elapse opts t q s =
  set_browser
    (mkBrowser (Z.max (now (browser s)) t) [(h, d)] (next_handle (browser s))
       (frames_requested (browser s))) s.
Proof.
  intros Hq Ht; unfold elapse; rewrite Hq; cbn.
  unfold due; cbn.
  destruct (Z.leb_spec d t); [ lia | reflexivity ].
Qed.

(** From its due time on, the timeout has fired, once. *)
Lemma elapse_due t p s h d :
  timeouts (browser s) = [(h, d)] -> (d <= t)%Z ->
  elapse opts t p s =
  idle_timeout opts p
    (set_browser
       (mkBrowser (Z.max (now (browser s)) t) [] (next_handle (browser s))
          (frames_requested (browser s))) s).
Proof.
  intros Hq Ht; unfold elapse; rewrite Hq; cbn.
  unfold due; cbn.
  destruct (Z.leb_spec d t); [ reflexivity | lia ].
Qed.

Lemma elapse_idle t p s :
  timeouts (browser s) = [] ->
  elapse opts t p s =
  set_browser
    (mkBrowser (Z.max (now (browser s)) t) [] (next_handle (browser s))
       (frames_requested (browser s))) s.
Proof. intros Hq; unfold elapse; now rewrite Hq. Qed.

Lemma idle_timeout_timer p s :
  timer_of (idle_timeout opts p s) = (None, timeouts (browser s)).
Proof. unfold timer_of, idle_timeout, spinGlobe. frame. Qed.

Lemma elapse_timer_inv t p s : timer_inv s -> timer_inv (elapse opts t p s).
Proof.
  unfold timer_inv at 1; intros Hinv.
  destruct (_nonInteractionTimer s) as [ h | ] eqn:Hh.
  - destruct Hinv as [ d Hd ].
    destruct (Z.ltb_spec t d).
    + rewrite (elapse_early t p s h d Hd) by assumption.
      unfold timer_inv; cbn; rewrite Hh; now eexists.
    + rewrite (elapse_due t p s h d Hd) by assumption.
      pose proof (idle_timeout_timer p
        (set_browser
           (mkBrowser (Z.max (now (browser s)) t) [] (next_handle (browser s))
              (frames_requested (browser s))) s)) as Ht.
      unfold timer_of in Ht; injection Ht as H1 H2; unfold timer_inv; now rewrite H1, H2.
  - rewrite (elapse_idle t p s Hinv); unfold timer_inv; cbn.
    now rewrite Hh.
Qed.

Lemma onZoom_timer_inv p s :
  timer_inv s -> timer_inv (onZoom opts globeRadius globeTileEngineMaxLevel p s).
Proof.
  intros Hinv; unfold onZoom.
  destruct (_prevLatLngAlt s); cbv zeta;
    repeat match goal with
    | |- context [if ?b then _ else _] => destruct b
    end;
    repeat first
      [ exact Hinv
      | apply onInteraction_timer_inv
      | eapply timer_inv_ext;
        [ first [ apply set_prevLatLngAlt_timer
                | apply updateSunRotation_timer
                | apply changeSurfaceOpacity_timer ] | ] ].
Qed.

Lemma step_timer_inv s e : timer_inv s -> timer_inv (stepc s e).
Proof.
  intros Hinv; destruct e; cbn [step].
  - exact (timer_inv_ext _ _ (spinGlobe_timer _ _) Hinv).
  - exact (timer_inv_ext _ _ (showClouds_timer _ _) Hinv).
  - now apply onZoom_timer_inv.
  - now apply onInteraction_timer_inv.
  - now apply elapse_timer_inv.
  - exact Hinv.
  - destruct (_surface s); [ exact Hinv | ].
    destruct (shows_surface opts planet); [ | exact Hinv ].
    exact (timer_inv_ext _ _ (showSurface_timer _ _) Hinv).
  - exact (timer_inv_ext _ _ (clouds_texture_loaded_timer _) Hinv).
  - destruct (frames_requested (browser s)); [ exact Hinv | ].
    refine (timer_inv_ext _ _ (rotateClouds_timer _) _); exact Hinv.
  - exact (timer_inv_ext _ _ (moveSun_timer _ _) Hinv).
Qed.

Lemma run_timer_inv es s : timer_inv s -> timer_inv (runc s es).
Proof.
  revert s; induction es as [ | e es IH ]; intros s Hinv; cbn; [ exact Hinv | ].
  now apply IH, step_timer_inv.
Qed.

Lemma reachable_timer_inv cam ctl es : timer_inv (runc (init cam ctl) es).
Proof. now apply run_timer_inv. Qed.

End TimerFacts.

(** ** The surface overlay *)

Section MapperFacts.

Variable opts : Opts.
Variable globeRadius : R.
Variable globeTileEngineMaxLevel : nat.

Local Abbreviation cso := (_changeSurfaceOpacity opts globeRadius globeTileEngineMaxLevel).
Local Abbreviation zoom := (onZoom opts globeRadius globeTileEngineMaxLevel).

(** The camera and the distance limits of the controls. *)
Local Abbreviation geometry :=
  (fun s : State => (camera s, minDistance (controls s), maxDistance (controls s))).

(** What [_changeCameraNear] leaves behind. *)
Local Abbreviation switched :=
  (fun near : R =>
     (mkCamera near (globeRadius * 100),
      globeRadius * (1 + 5 / 2 ^ globeTileEngineMaxLevel),
      globeRadius * 100 - globeRadius)).

Lemma changeSurfaceOpacity_guard a s :
  _surface s = None \/ tileEngineURL opts = false -> cso a s = s.
Proof.
  intros [ H | H ]; unfold _changeSurfaceOpacity; rewrite H; [ reflexivity | ].
  now destruct (_surface s).
Qed.

Lemma changeSurfaceOpacity_opacity a s sf :
  _surface s = Some sf -> tileEngineURL opts = true ->
  surface_opacity (cso a s) = Some (opacity_of_altitude a) /\
  _prevSurfaceOpacity (cso a s) = num (opacity_of_altitude a) /\
  _solar (cso a s) = _solar s.
Proof.
  intros Hsf Ht; unfold _changeSurfaceOpacity, surface_opacity.
  rewrite Hsf, Ht; cbn [negb]; cbv zeta.
  unfold _changeCameraAngle, _changeCameraNear.
  repeat break_match; cbn in *; repeat split; try congruence;
    match goal with
    | H : Some _ = Some _ |- _ => now inversion H
    end.
Qed.

Lemma changeSurfaceOpacity_tilt a s sf :
  _surface s = Some sf -> tileEngineURL opts = true ->
  facing_y (controls (cso a s)) =
  match facing_y (controls s) with
  | Some _ => Some (tilt_of_altitude a)
  | None => None
  end.
Proof.
  intros Hsf Ht; unfold _changeSurfaceOpacity.
  rewrite Hsf, Ht; cbn [negb]; cbv zeta.
  unfold _changeCameraAngle, _changeCameraNear.
  repeat break_match; cbn in *; congruence.
Qed.

Lemma changeSurfaceOpacity_geometry a s sf :
  _surface s = Some sf -> tileEngineURL opts = true ->
  geometry (cso a s) =
  if JS.gt (_prevSurfaceOpacity s) 0 && Reqb (opacity_of_altitude a) 0
  then switched 1e-5
  else if strict_eq (_prevSurfaceOpacity s) 0 && Rgtb (opacity_of_altitude a) 0
       then switched 0.05
       else geometry s.
Proof.
  intros Hsf Ht; unfold _changeSurfaceOpacity.
  rewrite Hsf, Ht; cbn [negb]; cbv zeta.
  unfold _changeCameraAngle, _changeCameraNear; cbn.
  repeat break_match; cbn in *; congruence.
Qed.

(** The interaction handler and the sun rotation stay out of all this. *)
Lemma onInteraction_mapper s :
  _surface (_onInteraction opts s) = _surface s /\
  _solar (_onInteraction opts s) = _solar s /\
  _prevSurfaceOpacity (_onInteraction opts s) = _prevSurfaceOpacity s /\
  facing_y (controls (_onInteraction opts s)) = facing_y (controls s) /\
  geometry (_onInteraction opts s) = geometry s.
Proof.
  unfold _onInteraction, spinGlobe.
  repeat break_match; cbn; repeat split.
Qed.

Lemma updateSunRotation_mapper p s :
  surface_opacity (_updateSunRotation p s) = surface_opacity s /\
  _prevSurfaceOpacity (_updateSunRotation p s) = _prevSurfaceOpacity s /\
  facing_y (controls (_updateSunRotation p s)) = facing_y (controls s) /\
  geometry (_updateSunRotation p s) = geometry s.
Proof.
  unfold _updateSunRotation, surface_opacity.
  repeat break_match; cbn in *; repeat split; try congruence;
    match goal with
    | H : Some _ = Some _ |- _ => now inversion H
    end.
Qed.

(** The zoom handler, seen from the mapping: the sample either reaches the
    opacity computation, in the state [s0] that the interaction check left,
    or changes nothing. *)
Lemma onZoom_mapper p s :
  exists s0,
    (_surface s0 = _surface s /\ _solar s0 = _solar s /\
     _prevSurfaceOpacity s0 = _prevSurfaceOpacity s /\
     facing_y (controls s0) = facing_y (controls s) /\
     geometry s0 = geometry s) /\
    let s1 := if opacity_sample opts p s then cso (altitude p) s0 else s0 in
    surface_opacity (zoom p s) = surface_opacity s1 /\
    _prevSurfaceOpacity (zoom p s) = _prevSurfaceOpacity s1 /\
    facing_y (controls (zoom p s)) = facing_y (controls s1) /\
    geometry (zoom p s) = geometry s1.
Proof.
  unfold onZoom, opacity_sample.
  destruct (_prevLatLngAlt s) as [ q | ]; cbv zeta.
  - set (s0 := if Rgtb (Rabs (altitude q - altitude p)) (interactionSpinThreshold opts)
               then _onInteraction opts s else s).
    assert (H0 : _surface s0 = _surface s /\ _solar s0 = _solar s /\
                 _prevSurfaceOpacity s0 = _prevSurfaceOpacity s /\
                 facing_y (controls s0) = facing_y (controls s) /\
                 geometry s0 = geometry s).
    { subst s0; destruct (Rgtb _ _); [ apply onInteraction_mapper | now repeat split ]. }
    exists s0; split; [ exact H0 | ].
    assert (Hcso : (if Rgtb (Rabs (altitude q - altitude p)) 0.00001
                    then cso (altitude p) s0 else s0) =
                   if match _surface s with
                      | Some _ =>
                          Rgtb (Rabs (altitude q - altitude p)) 0.00001 && tileEngineURL opts
                      | None => false
                      end
                   then cso (altitude p) s0 else s0).
    { destruct H0 as (Hsf & _).
      destruct (Rgtb (Rabs (altitude q - altitude p)) 0.00001); cbn [andb].
      - destruct (_surface s) eqn:E.
        + destruct (tileEngineURL opts) eqn:Et; [ reflexivity | ].
          apply changeSurfaceOpacity_guard; now right.
        + apply changeSurfaceOpacity_guard; left; congruence.
      - now destruct (_surface s). }
    rewrite Hcso; clear Hcso.
    match goal with
    | |- context [_updateSunRotation p ?X] => generalize X; intros s1
    end.
    destruct (negb (Reqb (lat q) (lat p)) || negb (Reqb (lng q) (lng p))); cbn.
    + apply updateSunRotation_mapper.
    + now repeat split.
  - exists s; split; [ now repeat split | ].
    cbn; apply updateSunRotation_mapper.
Qed.

End MapperFacts.

(** ** Claims on the altitude mapping in the zoom handler *)

Section MapperClaims.

Variable opts : Opts.
Variable globeRadius : R.
Variable globeTileEngineMaxLevel : nat.

Local Abbreviation zoom := (onZoom opts globeRadius globeTileEngineMaxLevel).

Local Abbreviation geometry :=
  (fun s : State => (camera s, minDistance (controls s), maxDistance (controls s))).

Local Abbreviation switched :=
  (fun near : R =>
     (mkCamera near (globeRadius * 100),
      globeRadius * (1 + 5 / 2 ^ globeTileEngineMaxLevel),
      globeRadius * 100 - globeRadius)).

Lemma geometry_near (c c' : Camera) (a b a' b' : R) :
  (c, a, b) = (c', a', b') -> near c = near c'.
Proof. congruence. Qed.

(** The near distance around one sample: the opacity of a computed sample is
    shown and recorded; from a positive recorded opacity to 0 the camera and
    the limits of the controls are switched to the fine near distance, from
    the recorded opacity 0 to a positive one to the coarse one; and the near
    distance changes in no other case. *)
Lemma onZoom_near_cases (p : LatLngAlt) (s : State) :
  let s' := zoom p s in
  let o := opacity_of_altitude (altitude p) in
  (opacity_sample opts p s = true ->
   surface_opacity s' = Some o /\ _prevSurfaceOpacity s' = num o) /\
  (forall o0,
     opacity_sample opts p s = true -> _prevSurfaceOpacity s = num o0 ->
     o0 > 0 -> o = 0 ->
     near (camera s') = 1e-5 /\ geometry s' = switched 1e-5) /\
  (opacity_sample opts p s = true -> _prevSurfaceOpacity s = num 0 -> o > 0 ->
   near (camera s') = 0.05 /\ geometry s' = switched 0.05) /\
  (near (camera s') <> near (camera s) ->
   opacity_sample opts p s = true /\
   exists o0, _prevSurfaceOpacity s = num o0 /\
              ((o0 > 0 /\ o = 0) \/ (o0 = 0 /\ o > 0))).
Proof.
  intros s' o; subst s'.
  destruct (onZoom_mapper opts globeRadius globeTileEngineMaxLevel p s)
    as (s0 & (Hsf & Hsolar & Hprev & Hfacing & Hgeo) & Hz).
  cbv zeta in Hz; destruct Hz as (Hz_op & Hz_prev & Hz_facing & Hz_geo).
  assert (Hactive : opacity_sample opts p s = true ->
                    exists sf, _surface s0 = Some sf /\ tileEngineURL opts = true).
  { unfold opacity_sample; rewrite <- Hsf.
    destruct (_prevLatLngAlt s); [ | discriminate ].
    destruct (_surface s0) as [ sf | ]; [ | discriminate ].
    intros H; apply andb_true_iff in H; exists sf; tauto. }
  repeat apply conj.
  - intros Hs; destruct (Hactive Hs) as (sf & Hsf0 & Ht); rewrite Hs in *.
    destruct (changeSurfaceOpacity_opacity opts globeRadius globeTileEngineMaxLevel
                (altitude p) s0 sf Hsf0 Ht) as (H1 & H2 & _).
    unfold o; split; congruence.
  - intros o0 Hs Ho0 Hpos Hzero; destruct (Hactive Hs) as (sf & Hsf0 & Ht); rewrite Hs in *.
    rewrite (changeSurfaceOpacity_geometry opts globeRadius globeTileEngineMaxLevel
               (altitude p) s0 sf Hsf0 Ht) in Hz_geo.
    rewrite Hprev, Ho0 in Hz_geo; cbn [JS.gt] in Hz_geo.
    fold o in Hz_geo.
    rewrite (proj2 (Rgtb_true o0 0) Hpos), (proj2 (Reqb_true o 0) Hzero) in Hz_geo.
    cbn [andb] in Hz_geo.
    split; [ | exact Hz_geo ].
    exact (geometry_near _ _ _ _ _ _ Hz_geo).
  - intros Hs Ho0 Hpos; destruct (Hactive Hs) as (sf & Hsf0 & Ht); rewrite Hs in *.
    rewrite (changeSurfaceOpacity_geometry opts globeRadius globeTileEngineMaxLevel
               (altitude p) s0 sf Hsf0 Ht) in Hz_geo.
    rewrite Hprev, Ho0 in Hz_geo; cbn [JS.gt strict_eq] in Hz_geo.
    fold o in Hz_geo.
    rewrite (proj2 (Rgtb_false 0 0)), Reqb_refl, (proj2 (Rgtb_true o 0) Hpos) in Hz_geo
      by lra.
    cbn [andb] in Hz_geo.
    split; [ | exact Hz_geo ].
    exact (geometry_near _ _ _ _ _ _ Hz_geo).
  - intros Hch.
    destruct (opacity_sample opts p s) eqn:Hs.
    + split; [ reflexivity | ].
      destruct (Hactive eq_refl) as (sf & Hsf0 & Ht).
      rewrite (changeSurfaceOpacity_geometry opts globeRadius globeTileEngineMaxLevel
                 (altitude p) s0 sf Hsf0 Ht) in Hz_geo.
      rewrite Hprev in Hz_geo; fold o in Hz_geo.
      destruct (JS.gt (_prevSurfaceOpacity s) 0 && Reqb o 0) eqn:E1.
      * apply andb_true_iff in E1; destruct E1 as [ Egt Eeq ].
        apply Reqb_true in Eeq.
        destruct (_prevSurfaceOpacity s) as [ | | o0 ]; cbn in Egt; try discriminate.
        -- apply Rgtb_true in Egt; lra.
        -- apply Rgtb_true in Egt; exists o0; split; [ reflexivity | left; lra ].
      * destruct (strict_eq (_prevSurfaceOpacity s) 0 && Rgtb o 0) eqn:E2.
        -- apply andb_true_iff in E2; destruct E2 as [ Eeq Egt ].
           apply Rgtb_true in Egt.
           destruct (_prevSurfaceOpacity s) as [ | | o0 ]; cbn in Eeq; try discriminate.
           apply Reqb_true in Eeq; exists o0; split; [ reflexivity | right; lra ].
        -- exfalso; apply Hch.
           rewrite Hgeo in Hz_geo; exact (geometry_near _ _ _ _ _ _ Hz_geo).
    + exfalso; apply Hch.
      rewrite Hgeo in Hz_geo; exact (geometry_near _ _ _ _ _ _ Hz_geo).
Qed.

(** C2, as the code has it.  At a sample that reaches the opacity
    computation, the opacity shown and the tilt written (when
    [controls.facing] exists) are functions of the altitude of that sample
    alone; at any other sample the opacity, the tilt and the near distance
    stay as they were.  The near distance is not computed from the altitude:
    it stays as it was unless the opacity recorded before and the new one lie
    on different sides of the boundary 0. *)
Theorem outputs_follow_computed_sample (p : LatLngAlt) (s : State) :
  let s' := zoom p s in
  (opacity_sample opts p s = true ->
   surface_opacity s' = Some (opacity_of_altitude (altitude p)) /\
   facing_y (controls s') =
     match facing_y (controls s) with
     | Some _ => Some (tilt_of_altitude (altitude p))
     | None => None
     end /\
   (near (camera s') = near (camera s) \/
    exists o0, _prevSurfaceOpacity s = num o0 /\
               ((o0 > 0 /\ opacity_of_altitude (altitude p) = 0) \/
                (o0 = 0 /\ opacity_of_altitude (altitude p) > 0)))) /\
  (opacity_sample opts p s = false -> outputs s' = outputs s).
Proof.
  intros s'.
  pose proof (onZoom_near_cases p s) as Hnear.
  cbv zeta in Hnear; fold s' in Hnear.
  destruct Hnear as (Hshown & _ & _ & Hchange).
  destruct (onZoom_mapper opts globeRadius globeTileEngineMaxLevel p s)
    as (s0 & (Hsf & Hsolar & Hprev & Hfacing & Hgeo) & Hz).
  cbv zeta in Hz; fold s' in Hz; destruct Hz as (Hz_op & Hz_prev & Hz_facing & Hz_geo).
  split.
  - intros Hs; rewrite Hs in *.
    split; [ apply Hshown; reflexivity | split ].
    + assert (Hactive : exists sf, _surface s0 = Some sf /\ tileEngineURL opts = true).
      { revert Hs; unfold opacity_sample; rewrite <- Hsf.
        destruct (_prevLatLngAlt s); [ | discriminate ].
        destruct (_surface s0) as [ sf | ]; [ | discriminate ].
        intros H; apply andb_true_iff in H; exists sf; tauto. }
      destruct Hactive as (sf & Hsf0 & Ht).
      rewrite Hz_facing, <- Hfacing.
      exact (changeSurfaceOpacity_tilt opts globeRadius globeTileEngineMaxLevel
               (altitude p) s0 sf Hsf0 Ht).
    + destruct (Req_dec_T (near (camera s')) (near (camera s))) as [ E | E ];
        [ now left | right ].
      now destruct (Hchange E).
  - intros Hs; rewrite Hs in *.
    unfold outputs.
    rewrite Hz_op, Hz_facing, Hfacing.
    replace (near (camera s')) with (near (camera s))
      by (rewrite Hgeo in Hz_geo; symmetry; exact (geometry_near _ _ _ _ _ _ Hz_geo)).
    unfold surface_opacity; now rewrite Hsf, Hsolar.
Qed.

End MapperClaims.

(** ** Claims on the spin controller *)

Section SpinClaims.

Variable opts : Opts.
Variable planet : Planet.
Variable globeRadius : R.
Variable globeTileEngineMaxLevel : nat.
Variable target_y : R.
Variables century equationOfTime declination : R -> R.

Local Abbreviation runc :=
  (run opts planet globeRadius globeTileEngineMaxLevel target_y
     century equationOfTime declination).

(** C5. After [spinGlobe(s)] with a non-zero [s] and then [spinGlobe(0)],
    which switches rotation off, a call with [null] or [undefined] switches
    rotation on again at speed [s]; and in a run from the initial state in
    which no call of [spinGlobe] gave a non-zero number, a call with [null]
    or [undefined] switches rotation on at the configured default speed. *)
Theorem spinGlobe_resumes_previous_speed :
  (forall (s : State) (v : R) (nothing : jsval),
      v <> 0 -> is_nullish nothing = true ->
      let stopped := spinGlobe opts (num 0) (spinGlobe opts (num v) s) in
      let resumed := spinGlobe opts nothing stopped in
      autoRotate (controls stopped) = false /\
      autoRotate (controls resumed) = true /\
      autoRotateSpeed (controls resumed) = num v) /\
  (forall (cam : Camera) (ctl : Controls) (es : list event) (nothing : jsval),
      Forall (fun e => forall v, e = CallSpinGlobe (num v) -> v = 0) es ->
      is_nullish nothing = true ->
      let resumed := spinGlobe opts nothing (runc (init cam ctl) es) in
      autoRotate (controls resumed) = true /\
      autoRotateSpeed (controls resumed) = num (opt_autoRotateSpeed opts)).
Proof.
  split.
  - intros s v nothing Hv Hn stopped resumed; subst stopped resumed.
    rewrite !spinGlobe_autoRotate, !spinGlobe_autoRotateSpeed.
    rewrite (strict_eq_nullish _ _ Hn); cbn [strict_eq]; rewrite Reqb_refl.
    repeat split.
    rewrite spinGlobe_spinspeed, Hn, spinGlobe_zero, (spinGlobe_nonzero _ _ _ Hv).
    unfold JS.or; apply truthy_num in Hv; now rewrite Hv.
  - intros cam ctl es nothing Hes Hn resumed; subst resumed.
    rewrite spinGlobe_autoRotate, spinGlobe_autoRotateSpeed.
    rewrite (strict_eq_nullish _ _ Hn); split; [ reflexivity | ].
    rewrite spinGlobe_spinspeed, Hn.
    set (d := num (opt_autoRotateSpeed opts)).
    assert (Hinv : _spinspeed (runc (init cam ctl) es) = undefined \/
                   _spinspeed (runc (init cam ctl) es) = d).
    { apply (run_inv opts planet globeRadius globeTileEngineMaxLevel target_y
               century equationOfTime declination
               (fun x => x = undefined \/ x = d)
               (fun v => v = num 0)).
      - intros x [-> | ->]; [ now right | ].
        unfold JS.or; destruct (truthy d); now right.
      - intros v -> Ht; cbn in Ht; now rewrite Reqb_refl in Ht.
      - eapply Forall_impl; [ | exact Hes ].
        intros [ v | | | | | | | | | ] He; cbn; auto.
        destruct v as [ | | x ]; cbn; try discriminate.
        intros _; now rewrite (He x eq_refl).
      - now left. }
    destruct Hinv as [-> | ->]; [ reflexivity | ].
    unfold JS.or; now destruct (truthy d).
Qed.

Lemma idle_timeout_autoRotate p s :
  autoRotate (controls (idle_timeout opts p s)) =
  if Rgtb (altitude p) (onlySpinAboveAltitude opts) then true
  else autoRotate (controls s).
Proof.
  unfold idle_timeout.
  destruct (Rgtb _ _); [ | reflexivity ].
  now rewrite spinGlobe_autoRotate.
Qed.

Lemma idle_timeout_autoRotateSpeed p s :
  altitude p > onlySpinAboveAltitude opts ->
  autoRotateSpeed (controls (idle_timeout opts p s)) =
  JS.or (_spinspeed s) (num (opt_autoRotateSpeed opts)).
Proof.
  intros Hp; unfold idle_timeout.
  apply Rgtb_true in Hp; rewrite Hp.
  now rewrite spinGlobe_autoRotateSpeed, spinGlobe_spinspeed.
Qed.


(** C10, as the code has it.  With a non-zero configured default, the
    remembered speed is never zero in a reachable state.  Whatever the
    default: [spinGlobe(0)] switches rotation off and leaves the remembered
    speed alone; a call that changes the remembered speed was not given the
    number zero; once a non-zero speed has been set, after any further events
    a call with [null] or [undefined] switches rotation on at a non-zero
    speed; and when [spinGlobe(0)] is the first call, the remembered speed is
    still [undefined] and [undefined] is written to the controls' speed. *)
Theorem remembered_speed_never_zero :
  (opt_autoRotateSpeed opts <> 0 ->
   forall cam ctl es, _spinspeed (runc (init cam ctl) es) <> num 0) /\
  (forall s,
     autoRotate (controls (spinGlobe opts (num 0) s)) = false /\
     _spinspeed (spinGlobe opts (num 0) s) = _spinspeed s) /\
  (forall s v,
     _spinspeed (spinGlobe opts v s) <> _spinspeed s -> v <> num 0) /\
  (forall s v es nothing,
     v <> 0 -> is_nullish nothing = true ->
     let resumed := spinGlobe opts nothing (runc (spinGlobe opts (num v) s) es) in
     exists w, w <> 0 /\
               autoRotate (controls resumed) = true /\
               autoRotateSpeed (controls resumed) = num w) /\
  (forall cam ctl,
     let first := spinGlobe opts (num 0) (init cam ctl) in
     _spinspeed first = undefined /\
     autoRotateSpeed (controls first) = undefined).
Proof.
  repeat apply conj.
  - intros Hd cam ctl es.
    apply (run_inv opts planet globeRadius globeTileEngineMaxLevel target_y
             century equationOfTime declination
             (fun x => x <> num 0) (fun _ => True)).
    + intros x Hx; unfold JS.or.
      destruct (truthy x); [ exact Hx | congruence ].
    + intros v _ Ht ->; cbn in Ht.
      now rewrite Reqb_refl in Ht.
    + apply Forall_forall; intros [ v | | | | | | | | | ] _; cbn; auto.
    + discriminate.
  - intros s; rewrite spinGlobe_autoRotate, spinGlobe_zero; cbn.
    now rewrite Reqb_refl.
  - intros s v Hch ->; apply Hch, spinGlobe_zero.
  - intros s v es nothing Hv Hn resumed; subst resumed.
    assert (Hinv : truthy (_spinspeed (runc (spinGlobe opts (num v) s) es)) = true).
    { apply (run_inv opts planet globeRadius globeTileEngineMaxLevel target_y
               century equationOfTime declination
               (fun x => truthy x = true) (fun _ => True)).
      - intros x Hx; unfold JS.or; now rewrite Hx.
      - auto.
      - apply Forall_forall; intros [ u | | | | | | | | | ] _; cbn; auto.
      - rewrite spinGlobe_nonzero by assumption; now apply truthy_num. }
    destruct (_spinspeed (runc (spinGlobe opts (num v) s) es)) as [ | | w ] eqn:E;
      try discriminate.
    exists w; split; [ now apply truthy_num | ].
    rewrite spinGlobe_autoRotate, spinGlobe_autoRotateSpeed, spinGlobe_spinspeed.
    rewrite (strict_eq_nullish _ _ Hn), Hn, E; split; [ reflexivity | ].
    unfold JS.or; now rewrite Hinv.
  - intros cam ctl; cbv zeta.
    rewrite spinGlobe_autoRotateSpeed, spinGlobe_zero; now split.
Qed.

End SpinClaims.

(** ** The recorded opacity *)

Section RecordedOpacity.

Variable opts : Opts.
Variable planet : Planet.
Variable globeRadius : R.
Variable globeTileEngineMaxLevel : nat.
Variable target_y : R.
Variables century equationOfTime declination : R -> R.

Local Abbreviation zoom := (onZoom opts globeRadius globeTileEngineMaxLevel).
Local Abbreviation stepc :=
  (step opts planet globeRadius globeTileEngineMaxLevel target_y
     century equationOfTime declination).
Local Abbreviation runc :=
  (run opts planet globeRadius globeTileEngineMaxLevel target_y
     century equationOfTime declination).

Local Abbreviation geometry :=
  (fun s : State => (camera s, minDistance (controls s), maxDistance (controls s))).

Local Abbreviation switched :=
  (fun near : R =>
     (mkCamera near (globeRadius * 100),
      globeRadius * (1 + 5 / 2 ^ globeTileEngineMaxLevel),
      globeRadius * 100 - globeRadius)).

Ltac opacity_frame :=
  unfold opacity_view, surface_opacity;
  repeat break_match; cbn in *; try congruence;
  repeat match goal with
  | H : Some _ = Some _ |- _ => inversion H; clear H; subst
  | H : Some _ = None |- _ => discriminate H
  | H : None = Some _ |- _ => discriminate H
  end;
  cbn in *; congruence.

Lemma spinGlobe_opacity_view v s : opacity_view (spinGlobe opts v s) = opacity_view s.
Proof. unfold spinGlobe. opacity_frame. Qed.

Lemma onInteraction_opacity_view s : opacity_view (_onInteraction opts s) = opacity_view s.
Proof. unfold _onInteraction, spinGlobe. opacity_frame. Qed.

Lemma idle_timeout_opacity_view p s : opacity_view (idle_timeout opts p s) = opacity_view s.
Proof. unfold idle_timeout, spinGlobe. opacity_frame. Qed.

Lemma elapse_opacity_view t p s : opacity_view (elapse opts t p s) = opacity_view s.
Proof.
  unfold elapse.
  set (s0 := set_browser _ s).
  change (opacity_view s) with (opacity_view s0).
  generalize (filter (due t) (timeouts (browser s))) s0.
  induction l as [ | x l IH ]; intros s1; cbn; [ reflexivity | ].
  now rewrite IH, idle_timeout_opacity_view.
Qed.

Lemma moveSun_opacity_view dt s :
  opacity_view (_moveSunToPositionAtDate century equationOfTime declination dt s) =
  opacity_view s.
Proof. unfold _moveSunToPositionAtDate. opacity_frame. Qed.

Lemma rotateClouds_opacity_view s : opacity_view (rotateClouds planet s) = opacity_view s.
Proof. unfold rotateClouds. opacity_frame. Qed.

Lemma showClouds_opacity_view b s :
  opacity_view (showClouds planet target_y b s) = opacity_view s.
Proof.
  unfold showClouds, _createClouds, _addClouds, rotateClouds, _loadThreeJS. opacity_frame.
Qed.

Lemma clouds_texture_loaded_opacity_view s :
  opacity_view (clouds_texture_loaded planet s) = opacity_view s.
Proof. unfold clouds_texture_loaded, _addClouds, rotateClouds. opacity_frame. Qed.

Lemma showSurface_opacity_view dt s :
  opacity_view (_showSurface opts target_y century equationOfTime declination dt s) =
  (Some 1, _prevSurfaceOpacity s).
Proof.
  unfold _showSurface, _moveSunToPositionAtDate, _loadThreeJS. opacity_frame.
Qed.

Lemma onZoom_opacity_view p s :
  opacity_view (zoom p s) =
  if opacity_sample opts p s
  then (Some (opacity_of_altitude (altitude p)), num (opacity_of_altitude (altitude p)))
  else opacity_view s.
Proof.
  destruct (onZoom_mapper opts globeRadius globeTileEngineMaxLevel p s)
    as (s0 & (Hsf & Hsolar & Hprev & _) & Hz).
  cbv zeta in Hz; destruct Hz as (Hop & Hrec & _).
  unfold opacity_view; rewrite Hop, Hrec.
  destruct (opacity_sample opts p s) eqn:Hs.
  - assert (Hactive : exists sf, _surface s0 = Some sf /\ tileEngineURL opts = true).
    { revert Hs; unfold opacity_sample; rewrite <- Hsf.
      destruct (_prevLatLngAlt s); [ | discriminate ].
      destruct (_surface s0) as [ sf | ]; [ | discriminate ].
      intros H; apply andb_true_iff in H; exists sf; tauto. }
    destruct Hactive as (sf & Hsf0 & Ht).
    destruct (changeSurfaceOpacity_opacity opts globeRadius globeTileEngineMaxLevel
                (altitude p) s0 sf Hsf0 Ht) as (-> & -> & _).
    reflexivity.
  - unfold surface_opacity; now rewrite Hsf, Hsolar, Hprev.
Qed.

(** An opacity is recorded only once there is a surface, and it is the one
    that the surface shows. *)
Lemma step_recorded s e :
  recorded_inv s -> recorded_inv (stepc s e).
Proof.
  unfold recorded_inv; intros Hinv.
  destruct e; cbn [step].
  - now rewrite spinGlobe_opacity_view.
  - now rewrite showClouds_opacity_view.
  - rewrite onZoom_opacity_view.
    destruct (opacity_sample opts latLngAlt s); [ right; now eexists | exact Hinv ].
  - unfold onClick; now rewrite onInteraction_opacity_view.
  - now rewrite elapse_opacity_view.
  - exact Hinv.
  - destruct (_surface s) eqn:Hsf; [ exact Hinv | ].
    destruct (shows_surface opts planet); [ | exact Hinv ].
    rewrite showSurface_opacity_view; left.
    destruct Hinv as [ Hu | (o0 & H) ].
    + exact Hu.
    + unfold opacity_view, surface_opacity in H; rewrite Hsf in H; discriminate.
  - now rewrite clouds_texture_loaded_opacity_view.
  - destruct (frames_requested (browser s)); [ exact Hinv | ].
    now rewrite rotateClouds_opacity_view.
  - now rewrite moveSun_opacity_view.
Qed.

Lemma run_recorded es s : recorded_inv s -> recorded_inv (runc s es).
Proof.
  revert s; induction es as [ | e es IH ]; intros s Hinv; cbn; [ exact Hinv | ].
  now apply IH, step_recorded.
Qed.

Lemma init_recorded cam ctl : recorded_inv (init cam ctl).
Proof. left; reflexivity. Qed.

(** What holds of the near distance in every state that a run reaches.  The
    opacity recorded by the last computed sample is the one that the surface
    shows.  At a sample that reaches the opacity computation, its opacity [o]
    is shown and recorded: if the opacity recorded before was positive and
    [o] is 0, the camera near distance becomes 1e-5; if it was 0 and [o] is
    positive, the near distance becomes 0.05; at both switches the far
    distance is [100 R] and the distance limits of the controls are
    [R (1 + 5 / 2^L)] and [100 R - R], for the globe radius [R] and the
    maximum tile level [L].  The near distance changes at no other sample:
    when it changes, the shown opacity goes from positive to 0 or from 0 to
    positive at that sample. *)
Theorem near_switches_on_recorded_transition
    (cam : Camera) (ctl : Controls) (es : list event) (p : LatLngAlt) :
  let s := runc (init cam ctl) es in
  let s' := zoom p s in
  let o := opacity_of_altitude (altitude p) in
  (forall o0, _prevSurfaceOpacity s = num o0 -> surface_opacity s = Some o0) /\
  (opacity_sample opts p s = true ->
   surface_opacity s' = Some o /\ _prevSurfaceOpacity s' = num o) /\
  (forall o0,
     opacity_sample opts p s = true -> _prevSurfaceOpacity s = num o0 ->
     o0 > 0 -> o = 0 ->
     near (camera s') = 1e-5 /\ geometry s' = switched 1e-5) /\
  (opacity_sample opts p s = true -> _prevSurfaceOpacity s = num 0 -> o > 0 ->
   near (camera s') = 0.05 /\ geometry s' = switched 0.05) /\
  (near (camera s') <> near (camera s) ->
   opacity_sample opts p s = true /\
   exists o0, surface_opacity s = Some o0 /\ surface_opacity s' = Some o /\
              ((o0 > 0 /\ o = 0) \/ (o0 = 0 /\ o > 0))).
Proof.
  intros s s' o.
  assert (Hrec : forall o0, _prevSurfaceOpacity s = num o0 -> surface_opacity s = Some o0).
  { intros o0 Ho0.
    destruct (run_recorded es (init cam ctl) (init_recorded cam ctl)) as [ Hu | (o1 & H1) ];
      fold s in Hu || fold s in H1; unfold opacity_view in *; cbn [snd] in *.
    - congruence.
    - injection H1 as Hshown Hprev; congruence. }
  pose proof (onZoom_near_cases opts globeRadius globeTileEngineMaxLevel p s) as Hcases.
  cbv zeta in Hcases; fold s' o in Hcases.
  destruct Hcases as (Hshown & Hfine & Hcoarse & Hchange).
  split; [ exact Hrec | ].
  split; [ exact Hshown | ].
  split; [ exact Hfine | ].
  split; [ exact Hcoarse | ].
  intros Hch.
  destruct (Hchange Hch) as (Hs & o0 & Ho0 & Hcase).
  split; [ exact Hs | ].
  exists o0; repeat split; [ now apply Hrec | now apply Hshown | exact Hcase ].
Qed.

End RecordedOpacity.

(** ** Claims on the opacity ramp and the tilt hump *)

Section RampClaims.

Variable opts : Opts.
Variable globeRadius : R.
Variable globeTileEngineMaxLevel : nat.

Local Abbreviation cso := (_changeSurfaceOpacity opts globeRadius globeTileEngineMaxLevel).

(** C3.  The opacity that [_changeSurfaceOpacity] shows for the altitude [a]
    is 0 when [a <= 0.4], is 1 when [a >= 1.0], is the ramp
    [(a - 0.4) / (1.0 - 0.4)] strictly in between, always lies in [0, 1],
    and does not decrease when the altitude grows. *)
Theorem surface_opacity_ramp (a : R) :
  (forall s sf,
     _surface s = Some sf -> tileEngineURL opts = true ->
     surface_opacity (cso a s) = Some (opacity_of_altitude a)) /\
  (a <= 0.4 -> opacity_of_altitude a = 0) /\
  (a >= 1.0 -> opacity_of_altitude a = 1) /\
  (0.4 < a < 1.0 -> opacity_of_altitude a = (a - 0.4) / (1.0 - 0.4)) /\
  0 <= opacity_of_altitude a <= 1 /\
  (forall b, a <= b -> opacity_of_altitude a <= opacity_of_altitude b).
Proof.
  repeat apply conj.
  - intros s sf Hsf Ht.
    now destruct (changeSurfaceOpacity_opacity opts globeRadius globeTileEngineMaxLevel
                    a s sf Hsf Ht).
  - apply opacity_of_altitude_low.
  - intros Ha; apply opacity_of_altitude_high; lra.
  - intros Ha; rewrite opacity_of_altitude_mid by lra; lra.
  - apply opacity_of_altitude_range.
  - apply opacity_of_altitude_range.
  - intros b; apply opacity_of_altitude_mono.
Qed.

(** C4.  The tilt that [_changeSurfaceOpacity] writes to [controls.facing.y]
    for the altitude [a] is 0 outside [0, 0.05] and
    [80 * 0.5 * (cos ((a - 0.025) * 2 PI / 0.05) + 1)] inside; it is 80 at
    0.025 and symmetric about 0.025. *)
Theorem camera_tilt_hump (a : R) :
  (forall s sf y,
     _surface s = Some sf -> tileEngineURL opts = true ->
     facing_y (controls s) = Some y ->
     facing_y (controls (cso a s)) = Some (tilt_of_altitude a)) /\
  (a < 0 \/ a > 0.05 -> tilt_of_altitude a = 0) /\
  (0 <= a <= 0.05 ->
   tilt_of_altitude a = 80 * 0.5 * (cos ((a - 0.025) * 2 * PI / 0.05) + 1)) /\
  tilt_of_altitude 0.025 = 80 /\
  (forall d, tilt_of_altitude (0.025 + d) = tilt_of_altitude (0.025 - d)).
Proof.
  repeat apply conj.
  - intros s sf y Hsf Ht Hy.
    rewrite (changeSurfaceOpacity_tilt opts globeRadius globeTileEngineMaxLevel
               a s sf Hsf Ht).
    now rewrite Hy.
  - intros Ha; apply tilt_of_altitude_outside; lra.
  - apply tilt_of_altitude_inside.
  - apply tilt_of_altitude_peak.
  - apply tilt_of_altitude_symmetric.
Qed.

End RampClaims.

(** ** Claims on the clouds, the capabilities and the sun *)

Section OverlayClaims.

Variable planet : Planet.
Variable target_y : R.

Local Abbreviation show := (showClouds planet target_y).

Lemma rotateClouds_fields s :
  _cloudsshown (rotateClouds planet s) = _cloudsshown s /\
  clouds_builds (rotateClouds planet s) = clouds_builds s.
Proof. unfold rotateClouds; repeat break_match; now cbn. Qed.

Lemma showClouds_fields s :
  has_url (cloudsURL planet) = true -> _cloudsshown s = false ->
  _cloudsshown (show true s) = true /\
  clouds_builds (show true s) =
    match _clouds s with
    | None => S (clouds_builds s)
    | Some _ => clouds_builds s
    end.
Proof.
  intros Hurl Hshown; unfold showClouds.
  rewrite Hshown, Hurl; cbn [Bool.eqb negb orb].
  cbn [_clouds set_cloudsshown].
  destruct (_clouds s).
  - unfold _addClouds.
    destruct (rotateClouds_fields
                (set_scene
                   (mkScene (surface_attached (scene (set_cloudsshown true s))) true
                      (clouds_replaced (scene (set_cloudsshown true s))))
                   (set_cloudsshown true s))) as [ -> -> ].
    now split.
  - unfold _createClouds, _loadThreeJS; destruct (facing_y _); now split.
Qed.

Lemma showClouds_same b s : b = _cloudsshown s -> show b s = s.
Proof.
  intros ->; unfold showClouds.
  now rewrite Bool.eqb_reflx.
Qed.

Lemma showClouds_without_texture b s :
  has_url (cloudsURL planet) = false -> show b s = s.
Proof.
  intros Hurl; unfold showClouds.
  now rewrite Hurl, orb_true_r.
Qed.

(** C7.  A request whose argument equals the visibility flag changes
    nothing; so the second of two [showClouds(true)] in succession changes
    nothing, and the two start at most one build, exactly one when the planet
    has a cloud texture and the clouds were neither shown nor built. *)
Theorem showClouds_idempotent :
  (forall b s, b = _cloudsshown s -> show b s = s) /\
  (forall s, show true (show true s) = show true s) /\
  (forall s, (clouds_builds (show true (show true s)) <= S (clouds_builds s))%nat) /\
  (forall s,
     has_url (cloudsURL planet) = true -> _cloudsshown s = false -> _clouds s = None ->
     clouds_builds (show true (show true s)) = S (clouds_builds s)).
Proof.
  assert (Htwice : forall s, show true (show true s) = show true s).
  { intros s.
    destruct (has_url (cloudsURL planet)) eqn:Hurl;
      [ | now rewrite !showClouds_without_texture ].
    destruct (_cloudsshown s) eqn:Hshown;
      [ now rewrite !(showClouds_same true s) by congruence | ].
    apply showClouds_same; symmetry.
    now apply showClouds_fields. }
  repeat apply conj.
  - apply showClouds_same.
  - exact Htwice.
  - intros s; rewrite Htwice.
    destruct (has_url (cloudsURL planet)) eqn:Hurl;
      [ | rewrite showClouds_without_texture by assumption; lia ].
    destruct (_cloudsshown s) eqn:Hshown;
      [ rewrite showClouds_same by congruence; lia | ].
    destruct (showClouds_fields s Hurl Hshown) as [ _ -> ].
    destruct (_clouds s); lia.
  - intros s Hurl Hshown Hnone; rewrite Htwice.
    destruct (showClouds_fields s Hurl Hshown) as [ _ -> ].
    now rewrite Hnone.
Qed.

(** C8.  For a planet without a night image, the constructor succeeds and
    does for every requested day mode what it does for 'day': the options
    say 'day', the surface gets the day image on a plain material, and the
    solar module stays unloaded.  For a planet without a cloud texture,
    every [showClouds] request returns the state unchanged. *)
Theorem missing_capability_degrades :
  (forall (p : Planet) (o : Opts),
     has_url (nightImageURL p) = false ->
     construct (Some p) o = construct (Some p) (set_dayMode day o) /\
     exists images,
       construct (Some p) o = Some (set_dayMode day o, images) /\
       (exists material,
          surface_material p (set_dayMode day o) = Some material /\
          match material with
          | DayNightShader _ _ => False
          | Phong emissive map _ _ | Lambert emissive map _ =>
              emissive = false /\ map = imageURL p
          end) /\
       (forall ty c e d dt s,
          _solar (_showSurface (set_dayMode day o) ty c e d dt s) = false)) /\
  (forall b s, has_url (cloudsURL planet) = false -> show b s = s).
Proof.
  split; [ | intros b s; apply showClouds_without_texture ].
  intros p o Hnight.
  unfold construct, apply_planet; cbn; rewrite Hnight; cbn.
  split; [ reflexivity | ].
  eexists; split; [ reflexivity | split ].
  - unfold surface_material; cbn.
    destruct (present (waterURL p)); eexists; (split; [ reflexivity | now split ]).
  - intros ty c e d dt s.
    unfold _showSurface; reflexivity.
Qed.

End OverlayClaims.

Section SunClaims.

Variable M : Type.
Variable solar : SolarModule M.
Variables century equationOfTime declination : R -> R.

Local Abbreviation sunPosAt := (_sunPosAt century equationOfTime declination).
Local Abbreviation moveSun := (_moveSunToPositionAtDate century equationOfTime declination).




End SunClaims.

(** Without the assumption the position is not a function of the instant:
    with a module whose [century] answers from its state, two calls in
    succession for the same instant give different positions. *)
Lemma stateful_module_breaks_determinism :
  let (first, m1) := sunPosAt_calls stateful_module 0 O in
  let (second, _) := sunPosAt_calls stateful_module 0 m1 in
  second <> first.
Proof.
  cbn; intros H; injection H as H; lra.
Qed.

(** ** When interactions leave the rotation alone *)

Section QuietSpin.

Variable opts : Opts.
Variable planet : Planet.
Variable globeRadius : R.
Variable globeTileEngineMaxLevel : nat.
Variable target_y : R.
Variables century equationOfTime declination : R -> R.

Local Abbreviation zoom := (onZoom opts globeRadius globeTileEngineMaxLevel).
Local Abbreviation stepc :=
  (step opts planet globeRadius globeTileEngineMaxLevel target_y
     century equationOfTime declination).
Local Abbreviation runc :=
  (run opts planet globeRadius globeTileEngineMaxLevel target_y
     century equationOfTime declination).

Ltac spin_frame :=
  unfold spin_view, timer_of; repeat break_match; cbn in *; congruence.

Lemma changeSurfaceOpacity_spin_view a s :
  spin_view (_changeSurfaceOpacity opts globeRadius globeTileEngineMaxLevel a s) = spin_view s.
Proof. unfold _changeSurfaceOpacity, _changeCameraAngle, _changeCameraNear. spin_frame. Qed.

Lemma updateSunRotation_spin_view p s : spin_view (_updateSunRotation p s) = spin_view s.
Proof. unfold _updateSunRotation. spin_frame. Qed.

Lemma moveSun_spin_view dt s :
  spin_view (_moveSunToPositionAtDate century equationOfTime declination dt s) = spin_view s.
Proof. unfold _moveSunToPositionAtDate. spin_frame. Qed.

Lemma showSurface_spin_view dt s :
  spin_view (_showSurface opts target_y century equationOfTime declination dt s) = spin_view s.
Proof. unfold _showSurface, _moveSunToPositionAtDate, _loadThreeJS. spin_frame. Qed.

Lemma rotateClouds_spin_view s : spin_view (rotateClouds planet s) = spin_view s.
Proof. unfold rotateClouds. spin_frame. Qed.

Lemma showClouds_spin_view b s : spin_view (showClouds planet target_y b s) = spin_view s.
Proof. unfold showClouds, _createClouds, _addClouds, rotateClouds, _loadThreeJS. spin_frame. Qed.

Lemma clouds_texture_loaded_spin_view s :
  spin_view (clouds_texture_loaded planet s) = spin_view s.
Proof. unfold clouds_texture_loaded, _addClouds, rotateClouds. spin_frame. Qed.

(** The state as the interaction handler sees it. *)
Lemma onInteraction_quiet s :
  _globeready s = false \/ (autoSpinAfterIdleMs opts <= 0)%Z ->
  _onInteraction opts s = s.
Proof.
  intros [ H | H ]; unfold _onInteraction.
  - now rewrite H.
  - destruct (negb (_globeready s)); [ reflexivity | ].
    destruct (autoSpinAfterIdleMs opts >? 0)%Z eqn:E; [ | reflexivity ].
    apply Z.gtb_lt in E; lia.
Qed.

(** Around one zoom sample: the handler either runs the interaction handler
    or leaves the spin controller as it was. *)
Lemma onZoom_spin_view p s :
  spin_view (zoom p s) =
  match _prevLatLngAlt s with
  | Some q =>
      if Rgtb (Rabs (altitude q - altitude p)) (interactionSpinThreshold opts)
      then spin_view (_onInteraction opts s)
      else spin_view s
  | None => spin_view s
  end.
Proof.
  unfold onZoom.
  destruct (_prevLatLngAlt s) as [ q | ]; cbv zeta.
  - set (s1 := if Rgtb _ (interactionSpinThreshold opts) then _ else s).
    assert (H1 : spin_view s1 =
                 if Rgtb (Rabs (altitude q - altitude p)) (interactionSpinThreshold opts)
                 then spin_view (_onInteraction opts s) else spin_view s)
      by (subst s1; now destruct (Rgtb _ _)).
    rewrite <- H1; clearbody s1.
    destruct (Rgtb (Rabs (altitude q - altitude p)) 0.00001);
      destruct (negb (Reqb (lat q) (lat p)) || negb (Reqb (lng q) (lng p)));
      change (spin_view (set_prevLatLngAlt (Some p) ?x)) with (spin_view x);
      rewrite ?updateSunRotation_spin_view, ?changeSurfaceOpacity_spin_view;
      reflexivity.
  - change (spin_view (set_prevLatLngAlt (Some p) ?x)) with (spin_view x).
    cbn [orb]; now rewrite updateSunRotation_spin_view.
Qed.

Lemma onZoom_globeready p s : _globeready (zoom p s) = _globeready s.
Proof.
  unfold onZoom, _changeSurfaceOpacity, _changeCameraAngle, _changeCameraNear,
    _updateSunRotation, _onInteraction, spinGlobe.
  repeat break_match; reflexivity.
Qed.

Lemma step_globeready s e :
  match e with Ready => False | _ => True end ->
  _globeready (stepc s e) = _globeready s.
Proof.
  intros He; destruct e; try contradiction; cbn [step].
  - unfold spinGlobe; repeat break_match; reflexivity.
  - unfold showClouds, _createClouds, _addClouds, rotateClouds, _loadThreeJS;
      repeat break_match; reflexivity.
  - apply onZoom_globeready.
  - unfold onClick, _onInteraction, spinGlobe; repeat break_match; reflexivity.
  - unfold elapse.
    generalize (filter (due t) (timeouts (browser s))); intros l.
    match goal with |- _globeready (fold_left _ l ?x) = _ => change (_globeready s) with (_globeready x); generalize x end.
    induction l as [ | a l IH ]; intros x; cbn; [ reflexivity | ].
    rewrite IH; unfold idle_timeout, spinGlobe; repeat break_match; reflexivity.
  - unfold _showSurface, _moveSunToPositionAtDate, _loadThreeJS;
      repeat break_match; reflexivity.
  - unfold clouds_texture_loaded, _addClouds, rotateClouds; repeat break_match; reflexivity.
  - unfold rotateClouds; repeat break_match; reflexivity.
  - unfold _moveSunToPositionAtDate; repeat break_match; reflexivity.
Qed.

(** One event that is neither an explicit [spinGlobe] nor the passing of
    time, while interactions are switched off. *)
Lemma step_quiet s e :
  _globeready s = false \/ (autoSpinAfterIdleMs opts <= 0)%Z ->
  match e with CallSpinGlobe _ | Elapse _ _ => False | _ => True end ->
  spin_view (stepc s e) = spin_view s.
Proof.
  intros Hq He; destruct e; try contradiction; cbn [step].
  - apply showClouds_spin_view.
  - rewrite onZoom_spin_view.
    rewrite (onInteraction_quiet s Hq).
    destruct (_prevLatLngAlt s); [ now destruct (Rgtb _ _) | reflexivity ].
  - unfold onClick; now rewrite onInteraction_quiet.
  - reflexivity.
  - destruct (_surface s); [ reflexivity | ].
    destruct (shows_surface opts planet); [ apply showSurface_spin_view | reflexivity ].
  - apply clouds_texture_loaded_spin_view.
  - destruct (frames_requested (browser s)); [ reflexivity | ].
    now rewrite rotateClouds_spin_view.
  - apply moveSun_spin_view.
Qed.

(** X1.  Until the ready flag is set, clicks and zoom samples, and everything
    else that is not an explicit [spinGlobe] call or a timer, leave the
    rotation, the remembered speed and the idle timer as they are. *)
Theorem interactions_before_ready_are_ignored (s : State) (es : list event) :
  _globeready s = false ->
  Forall (fun e => match e with
                   | Ready | CallSpinGlobe _ | Elapse _ _ => False
                   | _ => True
                   end) es ->
  spin_view (runc s es) = spin_view s /\ _globeready (runc s es) = false.
Proof.
  revert s; induction es as [ | e es IH ]; intros s Hr Hes; [ now split | ].
  change (runc s (e :: es)) with (runc (stepc s e) es).
  inversion Hes as [ | e' es' He Hes' ]; subst.
  assert (Hr' : _globeready (stepc s e) = false)
    by (rewrite step_globeready; [ exact Hr | now destruct e ]).
  destruct (IH (stepc s e) Hr' Hes') as [ Hv Hg ].
  split; [ | exact Hg ].
  rewrite Hv; apply step_quiet; auto.
  now destruct e.
Qed.

(** X2.  With the idle delay 0 ("never stop spinning") and no timeout pending, no
    event other than an explicit [spinGlobe] call changes the rotation, the
    remembered speed or the idle timer; none is ever set. *)
Theorem zero_idle_delay_never_stops (s : State) (es : list event) :
  (autoSpinAfterIdleMs opts <= 0)%Z ->
  timeouts (browser s) = [] ->
  Forall (fun e => match e with CallSpinGlobe _ => False | _ => True end) es ->
  spin_view (runc s es) = spin_view s.
Proof.
  intros HD; revert s; induction es as [ | e es IH ]; intros s Hq Hes;
    [ reflexivity | ].
  change (runc s (e :: es)) with (runc (stepc s e) es).
  inversion Hes as [ | e' es' He Hes' ]; subst.
  assert (Hstep : spin_view (stepc s e) = spin_view s).
  { destruct e as [ v | b | p | | t p | | dt | | | dt ];
      try (apply step_quiet; auto; fail).
    cbn [step]; rewrite (elapse_idle opts t p s Hq).
    unfold spin_view, timer_of; cbn; now rewrite Hq. }
  rewrite IH; [ exact Hstep | | exact Hes' ].
  unfold spin_view, timer_of in Hstep; congruence.
Qed.

End QuietSpin.

(** ** The idle timer after an interaction *)

Section IdleResume.

Variable opts : Opts.
Variable planet : Planet.
Variable globeRadius : R.
Variable globeTileEngineMaxLevel : nat.
Variable target_y : R.
Variables century equationOfTime declination : R -> R.

Local Abbreviation zoom := (onZoom opts globeRadius globeTileEngineMaxLevel).
Local Abbreviation stepc :=
  (step opts planet globeRadius globeTileEngineMaxLevel target_y
     century equationOfTime declination).
Local Abbreviation runc :=
  (run opts planet globeRadius globeTileEngineMaxLevel target_y
     century equationOfTime declination).
Local Abbreviation quiet :=
  (quiet_until opts planet globeRadius globeTileEngineMaxLevel target_y
     century equationOfTime declination).

(** An event that does not interrupt leaves the rotation, the remembered
    speed and the pending timeout as they are. *)
Lemma step_uninterrupted s e h d :
  timeouts (browser s) = [(h, d)] ->
  interrupts opts d s e = false ->
  spin_view (stepc s e) = spin_view s.
Proof.
  intros Hq He; destruct e as [ v | b | p | | t p | | dt | | | dt ];
    cbn [interrupts] in He; try discriminate; cbn [step].
  - apply showClouds_spin_view.
  - rewrite onZoom_spin_view.
    destruct (_prevLatLngAlt s); [ now rewrite He | reflexivity ].
  - apply Z.leb_gt in He.
    rewrite (elapse_early opts t p s h d Hq He).
    unfold spin_view, timer_of; cbn; now rewrite Hq.
  - reflexivity.
  - destruct (_surface s); [ reflexivity | ].
    destruct (shows_surface opts planet); [ apply showSurface_spin_view | reflexivity ].
  - apply clouds_texture_loaded_spin_view.
  - destruct (frames_requested (browser s)); [ reflexivity | ].
    now rewrite rotateClouds_spin_view.
  - apply moveSun_spin_view.
Qed.

Lemma run_uninterrupted es s h d :
  timeouts (browser s) = [(h, d)] ->
  quiet d s es = true ->
  spin_view (runc s es) = spin_view s.
Proof.
  revert s; induction es as [ | e es IH ]; intros s Hq Hes; [ reflexivity | ].
  change (runc s (e :: es)) with (runc (stepc s e) es).
  cbn [quiet_until] in Hes; apply andb_true_iff in Hes; destruct Hes as [ He Hes ].
  apply negb_true_iff in He.
  pose proof (step_uninterrupted s e h d Hq He) as Hstep.
  rewrite IH; [ exact Hstep | | exact Hes ].
  unfold spin_view, timer_of in Hstep; congruence.
Qed.

(** C1, as the code has it.  In a reachable state of a ready controller with
    a positive idle delay [D], an interaction at the time [t0] stops the
    spin.  Whatever happens then that is no further interaction and no
    explicit call of [spinGlobe] (pans, zoom samples below the threshold,
    animation frames, sun updates, cloud requests, the arrival of textures,
    the clock moving below [t0 + D]), the spin stays stopped; and when the
    clock reaches [t0 + D] the spin resumes if and only if the altitude read
    at that moment is strictly greater than [onlySpinAboveAltitude], at the
    remembered speed (the default if none is remembered). *)
Theorem idle_timer_resumes_above_altitude
    (cam : Camera) (ctl : Controls) (es : list event) (p : LatLngAlt) :
  let s := runc (init cam ctl) es in
  let D := autoSpinAfterIdleMs opts in
  let t0 := now (browser s) in
  _globeready s = true ->
  (0 < D)%Z ->
  let stopped := _onInteraction opts s in
  autoRotate (controls stopped) = false /\
  (forall es',
     quiet (t0 + D)%Z stopped es' = true ->
     let waiting := runc stopped es' in
     let expired := elapse opts (t0 + D) p waiting in
     autoRotate (controls waiting) = false /\
     (autoRotate (controls expired) = true <->
      altitude p > onlySpinAboveAltitude opts) /\
     (altitude p > onlySpinAboveAltitude opts ->
      autoRotateSpeed (controls expired) =
      JS.or (_spinspeed s) (num (opt_autoRotateSpeed opts))) /\
     (forall t' q', autoRotate (controls (elapse opts t' q' expired)) =
                    autoRotate (controls expired))).
Proof.
  intros s D t0 Hready HD stopped.
  pose proof (reachable_timer_inv opts planet globeRadius globeTileEngineMaxLevel
                target_y century equationOfTime declination cam ctl es) as Hinv.
  fold s in Hinv.
  pose proof (onInteraction_counted opts s Hinv Hready HD) as H; cbv zeta in H.
  fold stopped in H; destruct H as (Hoff & Hspeed & Hnow & Hh & Hq).
  split; [ exact Hoff | ].
  intros es' Hquiet waiting expired.
  fold t0 D in Hq.
  pose proof (run_uninterrupted es' stopped _ _ Hq Hquiet) as Hview.
  fold waiting in Hview.
  assert (Hw : autoRotate (controls waiting) = autoRotate (controls stopped) /\
               _spinspeed waiting = _spinspeed stopped /\
               timeouts (browser waiting) = [(next_handle (browser s), (t0 + D)%Z)]).
  { unfold spin_view, timer_of in Hview; injection Hview as H1 _ H3 _ H5.
    rewrite H1, H3, H5; auto. }
  destruct Hw as (Hw1 & Hw2 & Hw3).
  assert (He : expired =
               idle_timeout opts p
                 (set_browser
                    (mkBrowser (Z.max (now (browser waiting)) (t0 + D)) []
                       (next_handle (browser waiting))
                       (frames_requested (browser waiting))) waiting)).
  { apply (elapse_due opts (t0 + D)%Z p waiting (next_handle (browser s)) (t0 + D)%Z);
      [ exact Hw3 | lia ]. }
  assert (Hoff' : autoRotate (controls waiting) = false) by congruence.
  split; [ exact Hoff' | ].
  split; [ | split ].
  - rewrite He, idle_timeout_autoRotate; cbn.
    rewrite Hoff'.
    destruct (Rgtb (altitude p) (onlySpinAboveAltitude opts)) eqn:E.
    + apply Rgtb_true in E; tauto.
    + apply Rgtb_false in E; split; [ discriminate | lra ].
  - intros Hp; rewrite He, idle_timeout_autoRotateSpeed by assumption; cbn.
    now rewrite Hw2, <- Hspeed.
  - intros t' q'.
    rewrite elapse_idle; [ reflexivity | ].
    rewrite He.
    pose proof (idle_timeout_timer opts p
      (set_browser
         (mkBrowser (Z.max (now (browser waiting)) (t0 + D)) []
            (next_handle (browser waiting))
            (frames_requested (browser waiting))) waiting)) as Ht.
    unfold timer_of in Ht; cbn in Ht; congruence.
Qed.

End IdleResume.

(** ** Pausing and resuming *)

Section PauseResume.

Variable opts : Opts.
Variable planet : Planet.
Variable globeRadius : R.
Variable globeTileEngineMaxLevel : nat.
Variable target_y : R.
Variables century equationOfTime declination : R -> R.

Local Abbreviation zoom := (onZoom opts globeRadius globeTileEngineMaxLevel).
Local Abbreviation runc :=
  (run opts planet globeRadius globeTileEngineMaxLevel target_y
     century equationOfTime declination).

(** X3.  Only a change of altitude counts as an interaction.  A zoom sample whose
    altitude is within the threshold of the previous one, or that has no
    previous one, leaves the rotation and the idle timer alone, whatever its
    latitude and longitude; a sample beyond the threshold, on a ready
    controller with a positive idle delay, stops the rotation and leaves one
    timeout, due after the delay. *)
Theorem only_altitude_changes_interrupt (cam : Camera) (ctl : Controls) (es : list event)
    (p : LatLngAlt) :
  let s := runc (init cam ctl) es in
  (forall q, _prevLatLngAlt s = Some q ->
             Rabs (altitude q - altitude p) <= interactionSpinThreshold opts ->
             spin_view (zoom p s) = spin_view s) /\
  (_prevLatLngAlt s = None -> spin_view (zoom p s) = spin_view s) /\
  (forall q, _prevLatLngAlt s = Some q ->
             Rabs (altitude q - altitude p) > interactionSpinThreshold opts ->
             _globeready s = true -> (0 < autoSpinAfterIdleMs opts)%Z ->
             autoRotate (controls (zoom p s)) = false /\
             timeouts (browser (zoom p s)) =
               [(next_handle (browser s), (now (browser s) + autoSpinAfterIdleMs opts)%Z)]).
Proof.
  intros s.
  pose proof (onZoom_spin_view opts globeRadius globeTileEngineMaxLevel p s) as Hz.
  repeat apply conj.
  - intros q Hq Hle; rewrite Hq in Hz.
    apply Rgtb_false in Hle; now rewrite Hle in Hz.
  - intros Hq; now rewrite Hq in Hz.
  - intros q Hq Hgt Hready HD; rewrite Hq in Hz.
    apply Rgtb_true in Hgt; rewrite Hgt in Hz.
    pose proof (reachable_timer_inv opts planet globeRadius globeTileEngineMaxLevel
                  target_y century equationOfTime declination cam ctl es) as Hinv.
    fold s in Hinv.
    pose proof (onInteraction_counted opts s Hinv Hready HD) as Hc; cbv zeta in Hc.
    destruct Hc as (Hoff & _ & _ & _ & Hqueue).
    unfold spin_view, timer_of in Hz.
    split; congruence.
Qed.

(** X4.  Every interaction restarts the idle delay.  On a ready controller with a
    positive delay [D], after an interaction at the time [t0] and a second
    one at a later time [t1] before the first timeout was due, exactly one
    timeout is pending, due at [t1 + D]; the rotation is still stopped at any
    time before that, also after [t0 + D]. *)
Theorem interaction_restarts_idle_delay (cam : Camera) (ctl : Controls) (es : list event)
    (t1 t : Z) (q q' : LatLngAlt) :
  let s := runc (init cam ctl) es in
  let D := autoSpinAfterIdleMs opts in
  let t0 := now (browser s) in
  _globeready s = true -> (0 < D)%Z ->
  (t0 <= t1 < t0 + D)%Z -> (t < t1 + D)%Z ->
  let again := _onInteraction opts (elapse opts t1 q (_onInteraction opts s)) in
  (exists h, timeouts (browser again) = [(h, (t1 + D)%Z)] /\
             _nonInteractionTimer again = Some h) /\
  autoRotate (controls (elapse opts t q' again)) = false.
Proof.
  intros s D t0 Hready HD Ht1 Ht again.
  pose proof (reachable_timer_inv opts planet globeRadius globeTileEngineMaxLevel
                target_y century equationOfTime declination cam ctl es) as Hinv.
  fold s in Hinv.
  pose proof (onInteraction_counted opts s Hinv Hready HD) as Hc; cbv zeta in Hc.
  destruct Hc as (Hoff & _ & Hnow & Hh & Hqueue).
  fold D t0 in Hqueue.
  set (first := _onInteraction opts s) in *.
  assert (Hw : elapse opts t1 q first =
               set_browser
                 (mkBrowser (Z.max (now (browser first)) t1)
                    [(next_handle (browser s), (t0 + D)%Z)]
                    (next_handle (browser first))
                    (frames_requested (browser first))) first)
    by (apply elapse_early; [ assumption | lia ]).
  set (waiting := elapse opts t1 q first) in *.
  assert (Hinv_w : timer_inv waiting).
  { unfold timer_inv; rewrite Hw; cbn; rewrite Hh; now eexists. }
  assert (Hready_w : _globeready waiting = true).
  { rewrite Hw; cbn.
    unfold first, _onInteraction, spinGlobe; rewrite Hready; cbn.
    repeat break_match; exact Hready. }
  pose proof (onInteraction_counted opts waiting Hinv_w Hready_w HD) as Hc2; cbv zeta in Hc2.
  fold again in Hc2; destruct Hc2 as (Hoff2 & _ & _ & Hh2 & Hqueue2).
  assert (Hnow_w : now (browser waiting) = t1).
  { rewrite Hw; cbn; fold t0 in Hnow; rewrite Hnow; lia. }
  rewrite Hnow_w in Hqueue2; fold D in Hqueue2.
  split; [ eexists; split; eassumption | ].
  rewrite (elapse_early opts t q' again _ _ Hqueue2 Ht); exact Hoff2.
Qed.

(** X5.  In every state that a run reaches, at most one idle timeout is pending,
    and [_nonInteractionTimer] is empty exactly when none is. *)
Theorem at_most_one_idle_timeout (cam : Camera) (ctl : Controls) (es : list event) :
  let s := runc (init cam ctl) es in
  (List.length (timeouts (browser s)) <= 1)%nat /\
  (_nonInteractionTimer s = None <-> timeouts (browser s) = []).
Proof.
  intros s.
  pose proof (reachable_timer_inv opts planet globeRadius globeTileEngineMaxLevel
                target_y century equationOfTime declination cam ctl es) as Hinv.
  fold s in Hinv; unfold timer_inv in Hinv.
  destruct (_nonInteractionTimer s) as [ h | ].
  - destruct Hinv as [ d -> ]; cbn; split; [ lia | split; discriminate ].
  - rewrite Hinv; cbn; split; [ lia | tauto ].
Qed.

(** X6.  Pause and resume is a round trip.  When the globe rotates at the
    remembered non-zero speed, an interaction followed by the expiry of the
    idle delay, with the camera above [onlySpinAboveAltitude], leaves the
    controls exactly as they were before the interaction. *)
Theorem pause_then_resume_restores_rotation (cam : Camera) (ctl : Controls)
    (es : list event) (v : R) (p : LatLngAlt) :
  let s := runc (init cam ctl) es in
  let D := autoSpinAfterIdleMs opts in
  _globeready s = true -> (0 < D)%Z ->
  v <> 0 -> _spinspeed s = num v ->
  autoRotate (controls s) = true -> autoRotateSpeed (controls s) = num v ->
  altitude p > onlySpinAboveAltitude opts ->
  let paused := _onInteraction opts s in
  let resumed := elapse opts (now (browser s) + D) p paused in
  autoRotate (controls paused) = false /\
  controls resumed = controls s /\ _spinspeed resumed = num v.
Proof.
  intros s D Hready HD Hv Hspeed Hon Hctl Hp paused resumed.
  pose proof (reachable_timer_inv opts planet globeRadius globeTileEngineMaxLevel
                target_y century equationOfTime declination cam ctl es) as Hinv.
  fold s in Hinv.
  pose proof (onInteraction_counted opts s Hinv Hready HD) as Hc; cbv zeta in Hc.
  fold paused D in Hc; destruct Hc as (Hoff & Hsp & _ & _ & Hqueue).
  split; [ exact Hoff | ].
  assert (He : resumed =
               idle_timeout opts p
                 (set_browser
                    (mkBrowser (Z.max (now (browser paused)) (now (browser s) + D)) []
                       (next_handle (browser paused))
                       (frames_requested (browser paused))) paused))
    by (apply (elapse_due opts _ p paused _ _ Hqueue); lia).
  assert (Hrest : minDistance (controls paused) = minDistance (controls s) /\
                  maxDistance (controls paused) = maxDistance (controls s) /\
                  facing_y (controls paused) = facing_y (controls s)).
  { unfold paused, _onInteraction, spinGlobe; repeat break_match; now cbn. }
  destruct Hrest as (Hmin & Hmax & Hfacing).
  rewrite He; unfold idle_timeout.
  apply Rgtb_true in Hp; rewrite Hp.
  unfold spinGlobe; cbn.
  rewrite Hsp, Hspeed.
  apply truthy_num in Hv; unfold JS.or; rewrite Hv; cbn.
  split; [ | reflexivity ].
  rewrite Hmin, Hmax, Hfacing, <- Hon, <- Hctl.
  now destruct (controls s).
Qed.

End PauseResume.

Section SpinGlobeAlgebra.

Variable opts : Opts.

(** X7.  Calling [spinGlobe] twice with the same argument is the same as calling
    it once. *)
Theorem spinGlobe_idempotent (v : jsval) (s : State) :
  spinGlobe opts v (spinGlobe opts v s) = spinGlobe opts v s.
Proof.
  unfold spinGlobe.
  destruct v as [ | | x ]; cbn.
  - unfold JS.or.
    destruct (truthy (_spinspeed s)) eqn:E; cbn; [ now rewrite E | ].
    now destruct (negb (Reqb (opt_autoRotateSpeed opts) 0)).
  - unfold JS.or.
    destruct (truthy (_spinspeed s)) eqn:E; cbn; [ now rewrite E | ].
    now destruct (negb (Reqb (opt_autoRotateSpeed opts) 0)).
  - now destruct (negb (Reqb x 0)).
Qed.

End SpinGlobeAlgebra.

(** ** Invariants of the overlay and the camera *)

Section OverlayInvariants.

Variable opts : Opts.
Variable planet : Planet.
Variable globeRadius : R.
Variable globeTileEngineMaxLevel : nat.
Variable target_y : R.
Variables century equationOfTime declination : R -> R.

Local Abbreviation zoom := (onZoom opts globeRadius globeTileEngineMaxLevel).
Local Abbreviation cso := (_changeSurfaceOpacity opts globeRadius globeTileEngineMaxLevel).
Local Abbreviation moveSun := (_moveSunToPositionAtDate century equationOfTime declination).
Local Abbreviation showSurface :=
  (_showSurface opts target_y century equationOfTime declination).
Local Abbreviation stepc :=
  (step opts planet globeRadius globeTileEngineMaxLevel target_y
     century equationOfTime declination).
Local Abbreviation runc :=
  (run opts planet globeRadius globeTileEngineMaxLevel target_y
     century equationOfTime declination).

Ltac overlay_frame := unfold overlay_view; repeat break_match; cbn in *; congruence.

Lemma spinGlobe_overlay_view v s : overlay_view (spinGlobe opts v s) = overlay_view s.
Proof. unfold spinGlobe. overlay_frame. Qed.

Lemma onInteraction_overlay_view s : overlay_view (_onInteraction opts s) = overlay_view s.
Proof. unfold _onInteraction, spinGlobe. overlay_frame. Qed.

Lemma idle_timeout_overlay_view p s : overlay_view (idle_timeout opts p s) = overlay_view s.
Proof. unfold idle_timeout, spinGlobe. overlay_frame. Qed.

Lemma elapse_overlay_view t p s : overlay_view (elapse opts t p s) = overlay_view s.
Proof.
  unfold elapse.
  set (s0 := set_browser _ s).
  change (overlay_view s) with (overlay_view s0).
  generalize (filter (due t) (timeouts (browser s))) s0.
  induction l as [ | x l IH ]; intros s1; cbn; [ reflexivity | ].
  now rewrite IH, idle_timeout_overlay_view.
Qed.

Lemma rotateClouds_overlay_view s : overlay_view (rotateClouds planet s) = overlay_view s.
Proof. unfold rotateClouds. overlay_frame. Qed.

Lemma showClouds_overlay_view b s :
  overlay_view (showClouds planet target_y b s) = overlay_view s.
Proof.
  unfold showClouds, _createClouds, _addClouds, rotateClouds, _loadThreeJS. overlay_frame.
Qed.

Lemma clouds_texture_loaded_overlay_view s :
  overlay_view (clouds_texture_loaded planet s) = overlay_view s.
Proof. unfold clouds_texture_loaded, _addClouds, rotateClouds. overlay_frame. Qed.

(** An event leaves the overlay alone unless it is a zoom sample, the
    appearance of the surface or a placement of the sun. *)
Lemma step_overlay s e :
  overlay_view (stepc s e) = overlay_view s \/
  (exists p, stepc s e = zoom p s) \/
  (exists dt, _surface s = None /\ shows_surface opts planet = true /\
              stepc s e = showSurface dt s) \/
  (exists dt, stepc s e = moveSun dt s).
Proof.
  destruct e; cbn [step].
  - left; apply spinGlobe_overlay_view.
  - left; apply showClouds_overlay_view.
  - right; left; now eexists.
  - left; apply onInteraction_overlay_view.
  - left; apply elapse_overlay_view.
  - now left.
  - destruct (_surface s) eqn:Hsf; [ now left | ].
    destruct (shows_surface opts planet) eqn:Hshow; [ | now left ].
    right; right; left; now eexists.
  - left; apply clouds_texture_loaded_overlay_view.
  - destruct (frames_requested (browser s)); [ now left | ].
    left; now rewrite rotateClouds_overlay_view.
  - right; right; right; now eexists.
Qed.

(** A property of the overlay that zoom samples, the appearance of the
    surface and the placements of the sun keep is kept by every run. *)
Lemma run_overlay_invariant (P : State -> Prop) :
  (forall s s', overlay_view s' = overlay_view s -> P s -> P s') ->
  (forall p s, P s -> P (zoom p s)) ->
  (forall dt s, _surface s = None -> shows_surface opts planet = true ->
                P s -> P (showSurface dt s)) ->
  (forall dt s, P s -> P (moveSun dt s)) ->
  forall es s, P s -> P (runc s es).
Proof.
  intros Hview Hzoom Hshow Hsun es.
  induction es as [ | e es IH ]; intros s HP; [ exact HP | ].
  change (runc s (e :: es)) with (runc (stepc s e) es).
  apply IH.
  destruct (step_overlay s e)
    as [ Hv | [ (p & ->) | [ (dt & Hsf & Hs & ->) | (dt & ->) ] ] ]; eauto.
Qed.

Lemma onInteraction_fields s :
  _surface (_onInteraction opts s) = _surface s /\
  _solar (_onInteraction opts s) = _solar s /\
  _prevLatLngAlt (_onInteraction opts s) = _prevLatLngAlt s.
Proof.
  pose proof (onInteraction_overlay_view s) as H; unfold overlay_view in H.
  injection H as H1 H2 _ H4 _ _ _; auto.
Qed.

(** The uniforms of the shader around one call of [_changeSurfaceOpacity]. *)
Lemma changeSurfaceOpacity_surface a s :
  _solar (cso a s) = _solar s /\
  _prevLatLngAlt (cso a s) = _prevLatLngAlt s /\
  match _surface s with
  | None => _surface (cso a s) = None
  | Some sf =>
      exists sf', _surface (cso a s) = Some sf' /\
                  uniforms_sunPosition sf' = uniforms_sunPosition sf /\
                  uniforms_globeRotation sf' = uniforms_globeRotation sf /\
                  (_solar s = false -> uniforms_opacity sf' = uniforms_opacity sf)
  end.
Proof.
  unfold _changeSurfaceOpacity, _changeCameraAngle, _changeCameraNear.
  repeat break_match; cbn in *; repeat split; try congruence;
    try (eexists; repeat split; try eassumption; try reflexivity; congruence);
    match goal with
    | H : Some _ = Some _ |- _ => inversion H; subst; clear H
    end;
    eexists; repeat split; try reflexivity; cbn; congruence.
Qed.

Lemma updateSunRotation_surface p s :
  _solar (_updateSunRotation p s) = _solar s /\
  _prevLatLngAlt (_updateSunRotation p s) = _prevLatLngAlt s /\
  match _surface s with
  | None => _surface (_updateSunRotation p s) = None
  | Some sf =>
      exists sf', _surface (_updateSunRotation p s) = Some sf' /\
                  uniforms_sunPosition sf' = uniforms_sunPosition sf /\
                  uniforms_globeRotation sf' =
                    (if _solar s then (lng p, lat p) else uniforms_globeRotation sf) /\
                  uniforms_opacity sf' = uniforms_opacity sf
  end.
Proof.
  unfold _updateSunRotation.
  destruct (_surface s) as [ sf | ] eqn:Hsf; [ | now rewrite Hsf ].
  destruct (_solar s) eqn:Hsolar; cbn; rewrite ?Hsolar, ?Hsf;
    repeat split; eexists; repeat split; reflexivity.
Qed.

(** The uniforms of the shader around one zoom sample. *)
Lemma onZoom_surface p s :
  _solar (zoom p s) = _solar s /\
  _prevLatLngAlt (zoom p s) = Some p /\
  match _surface s with
  | None => _surface (zoom p s) = None
  | Some sf =>
      exists sf', _surface (zoom p s) = Some sf' /\
                  uniforms_sunPosition sf' = uniforms_sunPosition sf /\
                  uniforms_globeRotation sf' =
                    (if _solar s &&
                        match _prevLatLngAlt s with
                        | Some q =>
                            negb (Reqb (lat q) (lat p)) || negb (Reqb (lng q) (lng p))
                        | None => true
                        end
                     then (lng p, lat p) else uniforms_globeRotation sf) /\
                  (_solar s = false -> uniforms_opacity sf' = uniforms_opacity sf)
  end.
Proof.
  unfold onZoom; cbv zeta.
  set (s1 := match _prevLatLngAlt s with
             | Some q => if Rgtb _ (interactionSpinThreshold opts) then _ else s
             | None => s
             end).
  assert (H1 : _surface s1 = _surface s /\ _solar s1 = _solar s /\
               _prevLatLngAlt s1 = _prevLatLngAlt s).
  { subst s1; destruct (_prevLatLngAlt s) eqn:E; [ | now repeat split ].
    destruct (Rgtb _ _); [ | now repeat split ].
    destruct (onInteraction_fields s) as (Ha & Hb & Hc); repeat split; congruence. }
  destruct H1 as (Hsf1 & Hsolar1 & Hprev1); clearbody s1.
  set (s2 := match _prevLatLngAlt s with
             | Some q => if Rgtb _ 0.00001 then _ else s1
             | None => s1
             end).
  assert (H2 : _solar s2 = _solar s /\
               match _surface s with
               | None => _surface s2 = None
               | Some sf =>
                   exists sf', _surface s2 = Some sf' /\
                     uniforms_sunPosition sf' = uniforms_sunPosition sf /\
                     uniforms_globeRotation sf' = uniforms_globeRotation sf /\
                     (_solar s = false -> uniforms_opacity sf' = uniforms_opacity sf)
               end).
  { assert (Hid : _solar s1 = _solar s /\
                  match _surface s with
                  | None => _surface s1 = None
                  | Some sf =>
                      exists sf', _surface s1 = Some sf' /\
                        uniforms_sunPosition sf' = uniforms_sunPosition sf /\
                        uniforms_globeRotation sf' = uniforms_globeRotation sf /\
                        (_solar s = false -> uniforms_opacity sf' = uniforms_opacity sf)
                  end).
    { split; [ exact Hsolar1 | ].
      rewrite Hsf1; destruct (_surface s); [ | reflexivity ].
      eexists; split; [ reflexivity | auto ]. }
    subst s2; destruct (_prevLatLngAlt s); [ | exact Hid ].
    destruct (Rgtb _ 0.00001); [ | exact Hid ].
    destruct (changeSurfaceOpacity_surface (altitude p) s1) as (Hso & _ & Hsf).
    rewrite Hsolar1 in Hso; split; [ exact Hso | ].
    rewrite Hsf1, Hsolar1 in Hsf; exact Hsf. }
  destruct H2 as (Hsolar2 & Hsf2); clearbody s2.
  set (moved := match _prevLatLngAlt s with Some q => _ | None => true end).
  change (_solar (set_prevLatLngAlt (Some p) ?x)) with (_solar x).
  change (_surface (set_prevLatLngAlt (Some p) ?x)) with (_surface x).
  split; [ | split; [ reflexivity | ] ].
  - destruct moved; [ | exact Hsolar2 ].
    destruct (updateSunRotation_surface p s2) as (-> & _); exact Hsolar2.
  - destruct moved; cbn [andb]; rewrite ?andb_false_r, ?andb_true_r.
    + destruct (updateSunRotation_surface p s2) as (_ & _ & Hu).
      destruct (_surface s) as [ sf | ].
      * destruct Hsf2 as (sf2 & Hsf2 & Hsun & Hrot & Hop).
        rewrite Hsf2 in Hu; destruct Hu as (sf3 & Hsf3 & Hsun3 & Hrot3 & Hop3).
        exists sf3; rewrite Hsolar2 in Hrot3.
        repeat split; try congruence.
        -- rewrite Hrot3; now destruct (_solar s).
        -- intros Hs; rewrite Hop3; auto.
      * now rewrite Hsf2 in Hu.
    + exact Hsf2.
Qed.

Lemma moveSun_surface dt s :
  _solar (moveSun dt s) = _solar s /\
  _prevLatLngAlt (moveSun dt s) = _prevLatLngAlt s /\
  match _surface s with
  | None => _surface (moveSun dt s) = None
  | Some sf =>
      exists sf', _surface (moveSun dt s) = Some sf' /\
                  uniforms_sunPosition sf' =
                    (if _solar s then _sunPosAt century equationOfTime declination dt
                     else uniforms_sunPosition sf) /\
                  uniforms_globeRotation sf' = uniforms_globeRotation sf /\
                  uniforms_opacity sf' = uniforms_opacity sf
  end.
Proof.
  unfold _moveSunToPositionAtDate.
  destruct (_surface s) as [ sf | ] eqn:Hsf; [ | now rewrite Hsf ].
  destruct (_solar s) eqn:Hsolar; cbn; rewrite ?Hsolar, ?Hsf;
    repeat split; eexists; repeat split; reflexivity.
Qed.

Lemma showSurface_overlay dt s :
  _surface (showSurface dt s) =
    Some (mkSurface 1 1
            match dayMode opts with
            | daynight => _sunPosAt century equationOfTime declination dt
            | _ => (0, 0)
            end (0, 0)) /\
  _solar (showSurface dt s) = match dayMode opts with daynight => true | _ => false end /\
  _prevSurfaceOpacity (showSurface dt s) = _prevSurfaceOpacity s /\
  _prevLatLngAlt (showSurface dt s) = _prevLatLngAlt s /\
  camera (showSurface dt s) = camera s /\
  minDistance (controls (showSurface dt s)) = minDistance (controls s) /\
  maxDistance (controls (showSurface dt s)) = maxDistance (controls s).
Proof.
  unfold _showSurface, _moveSunToPositionAtDate, _loadThreeJS.
  destruct (dayMode opts); destruct (facing_y (controls s)); cbn; now repeat split.
Qed.

Lemma overlay_view_opacity s s' :
  overlay_view s' = overlay_view s ->
  opacity_view s' = opacity_view s /\ camera s' = camera s /\
  minDistance (controls s') = minDistance (controls s) /\
  maxDistance (controls s') = maxDistance (controls s) /\
  _surface s' = _surface s /\ _solar s' = _solar s /\
  _prevLatLngAlt s' = _prevLatLngAlt s.
Proof.
  unfold overlay_view, opacity_view, surface_opacity.
  intros H; injection H as H1 H2 H3 H4 H5 H6 H7.
  rewrite H1, H2, H3; now repeat split.
Qed.

Lemma opacity_sample_surface p s :
  opacity_sample opts p s = true -> surface_opacity s <> None /\ tileEngineURL opts = true.
Proof.
  unfold opacity_sample, surface_opacity.
  destruct (_prevLatLngAlt s); [ | discriminate ].
  destruct (_surface s); [ | discriminate ].
  intros H; apply andb_true_iff in H; split; [ discriminate | tauto ].
Qed.

(** X8.  The fine near distance is in effect only while the surface is fully
    transparent.  In every state that a run reaches from a camera whose near
    distance is not 1e-5, the near distance is the initial one, 0.05 or 1e-5,
    and whenever it is 1e-5 the surface shows opacity 0. *)
Theorem fine_near_only_when_transparent (cam : Camera) (ctl : Controls) (es : list event) :
  near cam <> 1e-5 ->
  let s := runc (init cam ctl) es in
  (near (camera s) = near cam \/ near (camera s) = 0.05 \/ near (camera s) = 1e-5) /\
  (near (camera s) = 1e-5 -> surface_opacity s = Some 0).
Proof.
  intros Hcam s.
  assert (HP : (near (camera s) = near cam \/ near (camera s) = 0.05 \/
                near (camera s) = 1e-5) /\
               (near (camera s) = near cam \/ near (camera s) = 0.05 \/
                opacity_view s = (Some 0, num 0))).
  { unfold s.
    apply (run_overlay_invariant
             (fun s => (near (camera s) = near cam \/ near (camera s) = 0.05 \/
                        near (camera s) = 1e-5) /\
                       (near (camera s) = near cam \/ near (camera s) = 0.05 \/
                        opacity_view s = (Some 0, num 0)))).
    - intros s0 s' Hv; destruct (overlay_view_opacity _ _ Hv) as (-> & -> & _); auto.
    - intros p s0 HP.
      pose proof (onZoom_opacity_view opts globeRadius globeTileEngineMaxLevel
                    century equationOfTime declination p s0) as Hop.
      destruct (onZoom_mapper opts globeRadius globeTileEngineMaxLevel p s0)
        as (s1 & (Hsf & _ & Hprev & _ & Hgeo) & Hz).
      cbv zeta in Hz; destruct Hz as (_ & _ & _ & Hzgeo).
      destruct (opacity_sample opts p s0) eqn:Hs.
      + assert (Hactive : exists sf, _surface s1 = Some sf /\ tileEngineURL opts = true).
        { destruct (opacity_sample_surface p s0 Hs) as [ Hne Ht ].
          unfold surface_opacity in Hne; rewrite <- Hsf in Hne.
          destruct (_surface s1) as [ sf | ]; [ now exists sf | congruence ]. }
        destruct Hactive as (sf & Hsf1 & Ht).
        rewrite (changeSurfaceOpacity_geometry opts globeRadius globeTileEngineMaxLevel
                   (altitude p) s1 sf Hsf1 Ht) in Hzgeo.
        rewrite Hprev in Hzgeo.
        set (o := opacity_of_altitude (altitude p)) in *.
        destruct (JS.gt (_prevSurfaceOpacity s0) 0 && Reqb o 0) eqn:E1.
        * apply andb_true_iff in E1; destruct E1 as [ _ Eo ]; apply Reqb_true in Eo.
          rewrite (geometry_near _ _ _ _ _ _ Hzgeo); cbn [near].
          rewrite Hop, Eo; auto.
        * destruct (strict_eq (_prevSurfaceOpacity s0) 0 && Rgtb o 0) eqn:E2.
          -- rewrite (geometry_near _ _ _ _ _ _ Hzgeo); cbn [near]; auto.
          -- rewrite Hgeo in Hzgeo; rewrite (geometry_near _ _ _ _ _ _ Hzgeo).
             destruct HP as [ H3 [ H | [ H | H ] ] ]; auto.
             split; [ exact H3 | right; right ].
             rewrite Hop; unfold opacity_view in H; injection H as _ Hrec.
             rewrite Hrec in E2; cbn in E2; rewrite Reqb_refl in E2; cbn in E2.
             apply Rgtb_false in E2.
             pose proof (opacity_of_altitude_range (altitude p)) as Hr; fold o in Hr.
             replace o with 0 by lra; reflexivity.
      + rewrite Hgeo in Hzgeo; rewrite (geometry_near _ _ _ _ _ _ Hzgeo), Hop; exact HP.
    - intros dt s0 Hnone _ HP.
      destruct (showSurface_overlay dt s0) as (_ & _ & _ & _ & -> & _).
      destruct HP as [ H3 [ H | [ H | H ] ] ]; auto.
      unfold opacity_view, surface_opacity in H; rewrite Hnone in H; discriminate.
    - intros dt s0 HP.
      rewrite (moveSun_opacity_view century equationOfTime declination dt s0).
      replace (camera (moveSun dt s0)) with (camera s0); [ exact HP | ].
      unfold _moveSunToPositionAtDate; repeat break_match; reflexivity.
    - cbn; auto. }
  destruct HP as [ H3 H ]; split; [ exact H3 | ].
  intros Hfine; destruct H as [ H | [ H | H ] ].
  - congruence.
  - rewrite Hfine in H; lra.
  - unfold opacity_view in H; congruence.
Qed.

Lemma triple_eq {A B C : Type} (a a' : A) (b b' : B) (c c' : C) :
  (a, b, c) = (a', b', c') -> a = a' /\ b = b' /\ c = c'.
Proof. intros [= -> -> ->]; auto. Qed.

Lemma pair_eq {A B : Type} (a a' : A) (b b' : B) :
  (a, b) = (a', b') -> a = a' /\ b = b'.
Proof. intros [= -> ->]; auto. Qed.

Lemma moveSun_camera dt s :
  camera (moveSun dt s) = camera s /\
  minDistance (controls (moveSun dt s)) = minDistance (controls s) /\
  maxDistance (controls (moveSun dt s)) = maxDistance (controls s) /\
  _prevSurfaceOpacity (moveSun dt s) = _prevSurfaceOpacity s.
Proof. unfold _moveSunToPositionAtDate; repeat break_match; now repeat split. Qed.

(** X9.  The opacity that the surface shows is always between 0 and 1. *)
Theorem shown_opacity_in_unit_interval (cam : Camera) (ctl : Controls) (es : list event)
    (o : R) :
  surface_opacity (runc (init cam ctl) es) = Some o -> 0 <= o <= 1.
Proof.
  revert o.
  apply (run_overlay_invariant
           (fun s => forall o, surface_opacity s = Some o -> 0 <= o <= 1)).
  - intros s0 s' Hv HP o.
    destruct (overlay_view_opacity _ _ Hv) as (Hop & _).
    unfold opacity_view in Hop; injection Hop as -> _; auto.
  - intros p s0 HP o.
    pose proof (onZoom_opacity_view opts globeRadius globeTileEngineMaxLevel
                  century equationOfTime declination p s0) as Hop.
    unfold opacity_view in Hop.
    destruct (opacity_sample opts p s0); injection Hop as -> _; [ | auto ].
    intros [= <-]; apply opacity_of_altitude_range.
  - intros dt s0 _ _ _ o.
    pose proof (showSurface_opacity_view opts target_y century equationOfTime declination
                  dt s0) as Hop.
    unfold opacity_view in Hop; injection Hop as -> _.
    intros [= <-]; lra.
  - intros dt s0 HP o.
    pose proof (moveSun_opacity_view century equationOfTime declination dt s0) as Hop.
    unfold opacity_view in Hop; injection Hop as -> _; auto.
  - discriminate.
Qed.

(** X10.  Without a tile engine the altitude mapping is switched off: in every
    state that a run reaches the camera and the distance limits of the
    controls are the initial ones, no opacity is recorded, and the surface,
    if there is one, shows opacity 1. *)
Theorem without_tile_engine_nothing_fades (cam : Camera) (ctl : Controls) (es : list event) :
  tileEngineURL opts = false ->
  let s := runc (init cam ctl) es in
  camera s = cam /\
  minDistance (controls s) = minDistance ctl /\
  maxDistance (controls s) = maxDistance ctl /\
  _prevSurfaceOpacity s = undefined /\
  (surface_opacity s = None \/ surface_opacity s = Some 1).
Proof.
  intros Ht s; unfold s.
  apply (run_overlay_invariant
           (fun s => camera s = cam /\
                     minDistance (controls s) = minDistance ctl /\
                     maxDistance (controls s) = maxDistance ctl /\
                     _prevSurfaceOpacity s = undefined /\
                     (surface_opacity s = None \/ surface_opacity s = Some 1))).
  - intros s0 s' Hv HP.
    destruct (overlay_view_opacity _ _ Hv) as (Hop & -> & -> & -> & _).
    unfold opacity_view in Hop; injection Hop as -> ->; exact HP.
  - intros p s0 HP.
    assert (Hs : opacity_sample opts p s0 = false).
    { destruct (opacity_sample opts p s0) eqn:E; [ | reflexivity ].
      destruct (opacity_sample_surface p s0 E); congruence. }
    pose proof (onZoom_opacity_view opts globeRadius globeTileEngineMaxLevel
                  century equationOfTime declination p s0) as Hop.
    destruct (onZoom_mapper opts globeRadius globeTileEngineMaxLevel p s0)
      as (s1 & (_ & _ & _ & _ & Hgeo) & Hz).
    cbv zeta in Hz; destruct Hz as (_ & _ & _ & Hzgeo).
    rewrite Hs in Hop, Hzgeo; rewrite Hgeo in Hzgeo.
    apply triple_eq in Hzgeo; destruct Hzgeo as (-> & -> & ->).
    unfold opacity_view in Hop; apply pair_eq in Hop; destruct Hop as (-> & ->).
    exact HP.
  - intros dt s0 _ _ HP.
    destruct (showSurface_overlay dt s0) as (_ & _ & -> & _ & -> & -> & ->).
    pose proof (showSurface_opacity_view opts target_y century equationOfTime declination
                  dt s0) as Hop.
    unfold opacity_view in Hop; injection Hop as -> _.
    destruct HP as (H1 & H2 & H3 & H4 & _); auto 6.
  - intros dt s0 HP.
    destruct (moveSun_camera dt s0) as (-> & -> & -> & ->).
    pose proof (moveSun_opacity_view century equationOfTime declination dt s0) as Hop.
    unfold opacity_view in Hop; injection Hop as -> _; exact HP.
  - cbn; auto 6.
Qed.

(** X11.  Outside the 'daynight' mode the solar module is never loaded and the
    uniforms of the shader are never written: in every state that a run
    reaches, a surface has the uniforms it was created with. *)
Theorem outside_daynight_uniforms_untouched (cam : Camera) (ctl : Controls)
    (es : list event) :
  dayMode opts <> daynight ->
  let s := runc (init cam ctl) es in
  _solar s = false /\
  forall sf, _surface s = Some sf ->
             uniforms_opacity sf = 1 /\
             uniforms_sunPosition sf = (0, 0) /\
             uniforms_globeRotation sf = (0, 0).
Proof.
  intros Hmode s; unfold s.
  apply (run_overlay_invariant
           (fun s => _solar s = false /\
                     forall sf, _surface s = Some sf ->
                                uniforms_opacity sf = 1 /\
                                uniforms_sunPosition sf = (0, 0) /\
                                uniforms_globeRotation sf = (0, 0))).
  - intros s0 s' Hv HP.
    destruct (overlay_view_opacity _ _ Hv) as (_ & _ & _ & _ & -> & -> & _); exact HP.
  - intros p s0 [ Hsolar HP ].
    destruct (onZoom_surface p s0) as (Hso & _ & Hsf).
    split; [ congruence | ].
    intros sf' Hsf'.
    destruct (_surface s0) as [ sf | ]; [ | congruence ].
    destruct Hsf as (sf2 & Hsf2 & Hsun & Hrot & Hop).
    rewrite Hsolar in Hrot; cbn in Hrot.
    destruct (HP sf eq_refl) as (H1 & H2 & H3).
    assert (sf2 = sf') by congruence; subst sf2.
    rewrite Hsun, Hrot, (Hop Hsolar); auto.
  - intros dt s0 _ _ _.
    destruct (showSurface_overlay dt s0) as (Hsf & Hso & _).
    destruct (dayMode opts); try congruence;
      (split; [ exact Hso | intros sf Hsf'; rewrite Hsf in Hsf'; now injection Hsf' as <- ]).
  - intros dt s0 [ Hsolar HP ].
    destruct (moveSun_surface dt s0) as (Hso & _ & Hsf).
    split; [ congruence | ].
    intros sf' Hsf'.
    destruct (_surface s0) as [ sf | ]; [ | congruence ].
    destruct Hsf as (sf2 & Hsf2 & Hsun & Hrot & Hop).
    rewrite Hsolar in Hsun.
    destruct (HP sf eq_refl) as (H1 & H2 & H3).
    assert (sf2 = sf') by congruence; subst sf2.
    rewrite Hsun, Hrot, Hop; auto.
  - split; [ reflexivity | discriminate ].
Qed.

(** X12.  The rotation of the terminator follows the camera.  A zoom sample whose
    latitude or longitude differs from the previous one, or that is the first
    one, writes its longitude and latitude to the shader; and once the shader
    agrees with the latest sample, it agrees with it after every further
    run. *)
Theorem globe_rotation_follows_samples (s : State) (sf : Surface) :
  _surface s = Some sf -> _solar s = true ->
  (forall p,
     match _prevLatLngAlt s with
     | Some q => lat q <> lat p \/ lng q <> lng p
     | None => True
     end ->
     option_map uniforms_globeRotation (_surface (zoom p s)) = Some (lng p, lat p)) /\
  (rotation_synced s -> forall es, rotation_synced (runc s es)).
Proof.
  intros Hsf Hsolar; split.
  - intros p Hmoved.
    destruct (onZoom_surface p s) as (_ & _ & H).
    rewrite Hsf, Hsolar in H; destruct H as (sf' & -> & _ & Hrot & _).
    cbn; rewrite Hrot.
    destruct (_prevLatLngAlt s) as [ q | ]; [ | reflexivity ].
    destruct Hmoved as [ H | H ]; apply Reqb_false in H; rewrite H; cbn;
      [ reflexivity | now rewrite orb_true_r ].
  - intros Hsync es.
    assert (HP : _surface (runc s es) <> None /\ rotation_synced (runc s es));
      [ | tauto ].
    apply (run_overlay_invariant
             (fun s => _surface s <> None /\ rotation_synced s)).
    + intros s0 s' Hv [ Hne HP ].
      destruct (overlay_view_opacity _ _ Hv) as (_ & _ & _ & _ & Ha & Hb & Hc).
      unfold rotation_synced; rewrite Ha, Hb, Hc; auto.
    + intros p s0 [ Hne HP ].
      destruct (onZoom_surface p s0) as (Hso & Hprev & H).
      destruct (_surface s0) as [ sf0 | ] eqn:Hsf0; [ | congruence ].
      destruct H as (sf' & Hsf' & _ & Hrot & _).
      split; [ congruence | ].
      intros sf1 q Hsf1 Hsolar1 Hq.
      assert (sf1 = sf') by congruence; subst sf1.
      assert (q = p) by congruence; subst q.
      rewrite Hso in Hsolar1; rewrite Hsolar1 in Hrot; cbn in Hrot.
      rewrite Hrot.
      destruct (_prevLatLngAlt s0) as [ q | ] eqn:Hq0; [ | reflexivity ].
      destruct (negb (Reqb (lat q) (lat p)) || negb (Reqb (lng q) (lng p))) eqn:E;
        [ reflexivity | ].
      apply orb_false_iff in E; destruct E as [ E1 E2 ].
      apply negb_false_iff in E1, E2; apply Reqb_true in E1, E2.
      rewrite (HP sf0 q Hsf0 Hsolar1 Hq0); congruence.
    + intros dt s0 Hnone _ [ Hne _ ]; congruence.
    + intros dt s0 [ Hne HP ].
      destruct (moveSun_surface dt s0) as (Hso & Hprev & H).
      destruct (_surface s0) as [ sf0 | ] eqn:Hsf0; [ | congruence ].
      destruct H as (sf' & Hsf' & _ & Hrot & _).
      split; [ congruence | ].
      intros sf1 q Hsf1 Hsolar1 Hq.
      assert (sf1 = sf') by congruence; subst sf1.
      rewrite Hrot; apply HP; congruence.
    + split; [ congruence | exact Hsync ].
Qed.

End OverlayInvariants.

(** ** The clouds over runs *)

Section CloudFacts.

Variable opts : Opts.
Variable planet : Planet.
Variable globeRadius : R.
Variable globeTileEngineMaxLevel : nat.
Variable target_y : R.
Variables century equationOfTime declination : R -> R.

Local Abbreviation show := (showClouds planet target_y).
Local Abbreviation loaded := (clouds_texture_loaded planet).
Local Abbreviation delta := (cloudsRotateSpeed planet * PI / 180).
Local Abbreviation stepc :=
  (step opts planet globeRadius globeTileEngineMaxLevel target_y
     century equationOfTime declination).
Local Abbreviation runc :=
  (run opts planet globeRadius globeTileEngineMaxLevel target_y
     century equationOfTime declination).

Ltac clouds_frame := unfold clouds_view; repeat break_match; cbn in *; congruence.

Lemma spinGlobe_clouds_view v s : clouds_view (spinGlobe opts v s) = clouds_view s.
Proof. unfold spinGlobe. clouds_frame. Qed.

Lemma onInteraction_clouds_view s : clouds_view (_onInteraction opts s) = clouds_view s.
Proof. unfold _onInteraction, spinGlobe, setTimeout, clearTimeout. clouds_frame. Qed.

Lemma idle_timeout_clouds_view p s : clouds_view (idle_timeout opts p s) = clouds_view s.
Proof. unfold idle_timeout, spinGlobe. clouds_frame. Qed.

Lemma elapse_clouds_view t p s : clouds_view (elapse opts t p s) = clouds_view s.
Proof.
  unfold elapse.
  set (s0 := set_browser _ s).
  change (clouds_view s) with (clouds_view s0).
  generalize (filter (due t) (timeouts (browser s))) s0.
  induction l as [ | x l IH ]; intros s1; cbn; [ reflexivity | ].
  now rewrite IH, idle_timeout_clouds_view.
Qed.

Lemma changeSurfaceOpacity_clouds_view a s :
  clouds_view (_changeSurfaceOpacity opts globeRadius globeTileEngineMaxLevel a s) =
  clouds_view s.
Proof.
  unfold _changeSurfaceOpacity, _changeCameraAngle, _changeCameraNear. clouds_frame.
Qed.

Lemma updateSunRotation_clouds_view p s :
  clouds_view (_updateSunRotation p s) = clouds_view s.
Proof. unfold _updateSunRotation. clouds_frame. Qed.

Lemma moveSun_clouds_view dt s :
  clouds_view (_moveSunToPositionAtDate century equationOfTime declination dt s) =
  clouds_view s.
Proof. unfold _moveSunToPositionAtDate. clouds_frame. Qed.

Lemma onZoom_clouds_view p s :
  clouds_view (onZoom opts globeRadius globeTileEngineMaxLevel p s) = clouds_view s.
Proof.
  unfold onZoom; cbv zeta.
  change (clouds_view (set_prevLatLngAlt (Some p) ?x)) with (clouds_view x).
  repeat match goal with
         | |- context [ match ?c with _ => _ end ] =>
             destruct c
         | |- _ =>
             first [ rewrite updateSunRotation_clouds_view
                   | rewrite changeSurfaceOpacity_clouds_view
                   | rewrite onInteraction_clouds_view ]
         end; reflexivity.
Qed.

Lemma showSurface_clouds_view dt s :
  clouds_view (_showSurface opts target_y century equationOfTime declination dt s) =
  clouds_view s.
Proof.
  unfold _showSurface, _moveSunToPositionAtDate, _loadThreeJS. clouds_frame.
Qed.

(** Only the two public requests, the arrival of the texture and an
    animation frame touch the clouds. *)
Lemma step_clouds_view s e :
  match e with
  | CallShowClouds _ | CloudsTextureLoaded | Frame => True
  | _ => clouds_view (stepc s e) = clouds_view s
  end.
Proof.
  destruct e; cbn [step]; auto.
  - apply spinGlobe_clouds_view.
  - apply onZoom_clouds_view.
  - apply onInteraction_clouds_view.
  - apply elapse_clouds_view.
  - destruct (_surface s); [ reflexivity | ].
    destruct (shows_surface opts planet); [ apply showSurface_clouds_view | reflexivity ].
  - apply moveSun_clouds_view.
Qed.

Lemma clouds_view_fields s s' :
  clouds_view s' = clouds_view s ->
  _clouds s' = _clouds s /\ _cloudsshown s' = _cloudsshown s /\
  clouds_builds s' = clouds_builds s /\ clouds_loading s' = clouds_loading s /\
  clouds_attached (scene s') = clouds_attached (scene s) /\
  frames_requested (browser s') = frames_requested (browser s).
Proof. unfold clouds_view; intros [= -> -> -> -> -> ->]; now repeat split. Qed.

Lemma clouds_view_replaced s s' :
  clouds_view s' = clouds_view s ->
  clouds_replaced (scene s') = clouds_replaced (scene s).
Proof. unfold clouds_view; intros H; now injection H. Qed.

(** With the mesh there and no load in flight, one step keeps the mesh or
    turns it once; it starts no build and no load and leaves no mesh
    behind. *)
Lemma step_mesh_kept s e c :
  _clouds s = Some c -> clouds_loading s = O ->
  clouds_builds (stepc s e) = clouds_builds s /\
  clouds_loading (stepc s e) = O /\
  clouds_replaced (scene (stepc s e)) = clouds_replaced (scene s) /\
  (_clouds (stepc s e) = Some c \/
   _clouds (stepc s e) = Some (mkClouds (rotation_y c + delta))).
Proof.
  intros Hc Hl.
  pose proof (step_clouds_view s e) as Hv.
  destruct e;
    try (pose proof (clouds_view_replaced _ _ Hv) as Hr;
         destruct (clouds_view_fields _ _ Hv) as (H1 & _ & H2 & H3 & _);
         rewrite H1, H2, H3, Hr; auto).
  - cbn [step]; unfold showClouds, _addClouds, rotateClouds.
    repeat break_match; cbn in *; repeat split; auto; try congruence;
      first [ left; congruence | right; congruence ].
  - cbn [step]; unfold clouds_texture_loaded; rewrite Hl; auto.
  - cbn [step]; unfold rotateClouds.
    repeat break_match; cbn in *; repeat split; auto; try congruence;
      first [ left; congruence | right; congruence ].
Qed.

(** The callback of a load never changes the count of replaced meshes
    downwards, and neither does a request to hide the clouds. *)
Lemma showClouds_replaced b s :
  clouds_replaced (scene (show b s)) = clouds_replaced (scene s).
Proof.
  unfold showClouds, _createClouds, _addClouds, rotateClouds, _loadThreeJS.
  repeat break_match; cbn in *; congruence.
Qed.

(** X13.  The mesh of the clouds is built once, unless a second load is in
    flight.  From a state that has the mesh and no texture load in flight,
    no run starts another build or load, the mesh stays the same one, only
    turned by a number of rotation steps, and no cloud mesh is left behind in
    the scene, however often the clouds are hidden and shown again.  With a
    load in flight and the mesh in the scene, the callback of the load names
    a new mesh and leaves the old one in the scene, where a request to hide
    the clouds does not reach it. *)
Theorem clouds_mesh_built_once (s : State) (c : Clouds) :
  _clouds s = Some c ->
  (clouds_loading s = O ->
   forall es,
     let s' := runc s es in
     clouds_builds s' = clouds_builds s /\
     clouds_loading s' = O /\
     clouds_replaced (scene s') = clouds_replaced (scene s) /\
     exists n, _clouds s' = Some (mkClouds (rotation_y c + INR n * delta))) /\
  (clouds_loading s <> O -> clouds_attached (scene s) = true ->
   let s' := loaded s in
   _clouds s' = Some (mkClouds (0 + delta)) /\
   clouds_replaced (scene s') = S (clouds_replaced (scene s)) /\
   clouds_replaced (scene (show false s')) = S (clouds_replaced (scene s))).
Proof.
  intros Hc; split.
  - intros Hl es; revert s c Hc Hl.
    induction es as [ | e es IH ]; intros s c Hc Hl.
    + cbn; repeat split; auto.
      exists O; rewrite Hc; destruct c as [ r ]; cbn; do 2 f_equal; ring.
    + change (runc s (e :: es)) with (runc (stepc s e) es).
      destruct (step_mesh_kept s e c Hc Hl) as (Hb & Hl' & Hr & [ Hc' | Hc' ]).
      * destruct (IH _ _ Hc' Hl') as (H1 & H2 & H3 & n & H4).
        cbv zeta; repeat split; try congruence.
        exists n; exact H4.
      * destruct (IH _ _ Hc' Hl') as (H1 & H2 & H3 & n & H4).
        cbv zeta; repeat split; try congruence.
        exists (S n); cbv zeta in H4; rewrite H4, S_INR; cbn [rotation_y].
        do 2 f_equal; ring.
  - intros Hl Hattached s'.
    assert (H : _clouds s' = Some (mkClouds (0 + delta)) /\
                clouds_replaced (scene s') = S (clouds_replaced (scene s))).
    { unfold s', clouds_texture_loaded, _addClouds, rotateClouds.
      destruct (clouds_loading s); [ congruence | ].
      rewrite Hc, Hattached; cbn.
      destruct (_cloudsshown s); cbn; now split. }
    destruct H as [ H1 H2 ]; repeat split; auto.
    now rewrite showClouds_replaced.
Qed.

(** X14.  A texture that arrives after the clouds were hidden is shown all the
    same.  When a load is in flight and the visibility flag is off, the
    callback of the load attaches the new mesh to the scene and turns it
    once; the flag stays off, no frame is requested, and a further request
    to hide the clouds changes nothing. *)
Theorem late_texture_attaches_hidden_clouds (s : State) :
  _cloudsshown s = false -> clouds_loading s <> O ->
  let s' := loaded s in
  clouds_attached (scene s') = true /\
  _cloudsshown s' = false /\
  _clouds s' = Some (mkClouds (0 + delta)) /\
  frames_requested (browser s') = frames_requested (browser s) /\
  show false s' = s'.
Proof.
  intros Hshown Hload s'.
  assert (H : clouds_attached (scene s') = true /\ _cloudsshown s' = false /\
              _clouds s' = Some (mkClouds (0 + delta)) /\
              frames_requested (browser s') = frames_requested (browser s)).
  { unfold s', clouds_texture_loaded, _addClouds, rotateClouds.
    destruct (clouds_loading s); [ congruence | ].
    cbn; rewrite Hshown; cbn; now repeat split. }
  destruct H as (H1 & H2 & H3 & H4); repeat split; auto.
  unfold showClouds; rewrite H2; reflexivity.
Qed.

Lemma frame_shown s c k :
  _clouds s = Some c -> _cloudsshown s = true -> frames_requested (browser s) = S k ->
  _clouds (stepc s Frame) = Some (mkClouds (rotation_y c + delta)) /\
  _cloudsshown (stepc s Frame) = true /\
  frames_requested (browser (stepc s Frame)) = S k.
Proof.
  intros Hc Hshown Hk; cbn [step]; rewrite Hk; unfold rotateClouds; cbn.
  rewrite Hc; cbn; rewrite Hshown; cbn; now repeat split.
Qed.

Lemma frame_hidden s c k :
  _clouds s = Some c -> _cloudsshown s = false -> frames_requested (browser s) = S k ->
  _clouds (stepc s Frame) = Some (mkClouds (rotation_y c + delta)) /\
  _cloudsshown (stepc s Frame) = false /\
  frames_requested (browser (stepc s Frame)) = k.
Proof.
  intros Hc Hshown Hk; cbn [step]; rewrite Hk; unfold rotateClouds; cbn.
  rewrite Hc; cbn; rewrite Hshown; cbn; now repeat split.
Qed.

Lemma frame_idle s :
  frames_requested (browser s) = O -> stepc s Frame = s.
Proof. intros Hk; cbn [step]; now rewrite Hk. Qed.

(** X15.  The rotation of the clouds lives and dies with the visibility flag.
    While the clouds are shown, every animation frame turns the mesh by
    [cloudsRotateSpeed * PI / 180] and leaves as many frames pending as
    before; once they are hidden, each pending frame turns the mesh once
    more and requests nothing, so that after as many frames as were pending
    the mesh stands still. *)
Theorem rotation_follows_visibility (s : State) (c : Clouds) (k n : nat) :
  _clouds s = Some c -> frames_requested (browser s) = k ->
  let s' := runc s (repeat Frame n) in
  (_cloudsshown s = true -> (0 < k)%nat ->
   _clouds s' = Some (mkClouds (rotation_y c + INR n * delta)) /\
   frames_requested (browser s') = k) /\
  (_cloudsshown s = false -> (k <= n)%nat ->
   _clouds s' = Some (mkClouds (rotation_y c + INR k * delta)) /\
   frames_requested (browser s') = O).
Proof.
  intros Hc Hk s'; unfold s'; clear s'; split.
  - intros Hshown Hpos.
    destruct k as [ | k ]; [ lia | clear Hpos ].
    revert s c Hc Hk Hshown; induction n as [ | n IH ]; intros s c Hc Hk Hshown.
    + cbn; rewrite Hc, Hk; split; [ | reflexivity ].
      destruct c as [ r ]; cbn; do 2 f_equal; ring.
    + change (runc s (repeat Frame (S n)))
        with (runc (stepc s Frame) (repeat Frame n)).
      destruct (frame_shown s c k Hc Hshown Hk) as (Hc' & Hshown' & Hk').
      destruct (IH _ _ Hc' Hk' Hshown') as [ -> -> ]; split; [ | reflexivity ].
      rewrite S_INR; cbn [rotation_y]; do 2 f_equal; ring.
  - intros Hshown Hle.
    revert s c k Hc Hk Hshown Hle; induction n as [ | n IH ];
      intros s c k Hc Hk Hshown Hle.
    + destruct k as [ | k ]; [ | lia ].
      cbn; rewrite Hc; split; [ | exact Hk ].
      destruct c as [ r ]; cbn; do 2 f_equal; ring.
    + change (runc s (repeat Frame (S n)))
        with (runc (stepc s Frame) (repeat Frame n)).
      destruct k as [ | k ].
      * rewrite (frame_idle s Hk).
        apply IH; auto; lia.
      * destruct (frame_hidden s c k Hc Hshown Hk) as (Hc' & Hshown' & Hk').
        destruct (IH _ _ k Hc' Hk' Hshown') as [ -> -> ]; [ lia | ].
        split; [ | reflexivity ].
        rewrite S_INR; cbn [rotation_y]; do 2 f_equal; ring.
Qed.

(** X16.  Hiding the clouds and showing them again before the next animation
    frame starts a second rotation: the pending frame of the first one is
    still there, and [_addClouds] turns the mesh and requests another. *)
Theorem reshow_adds_rotation (s : State) (c : Clouds) :
  has_url (cloudsURL planet) = true -> _cloudsshown s = true -> _clouds s = Some c ->
  let s' := show true (show false s) in
  frames_requested (browser s') = S (frames_requested (browser s)) /\
  _clouds s' = Some (mkClouds (rotation_y c + delta)) /\
  clouds_attached (scene s') = true /\
  clouds_builds s' = clouds_builds s.
Proof.
  intros Hurl Hshown Hc s'; unfold s', showClouds.
  rewrite Hshown, Hurl; cbn.
  unfold _addClouds, rotateClouds; cbn.
  rewrite Hc; cbn; now repeat split.
Qed.

End CloudFacts.

(** ** Construction *)

Section ConstructionFacts.

Lemma apply_planet_dayMode p o :
  dayMode (apply_planet p o) = (if has_url (nightImageURL p) then dayMode o else day).
Proof. unfold apply_planet; now destruct (has_url (nightImageURL p)). Qed.

Lemma apply_planet_tileEngineURL p o :
  tileEngineURL (apply_planet p o) = tileEngineURL o.
Proof. unfold apply_planet; now destruct (has_url (nightImageURL p)). Qed.

Lemma has_url_some u : has_url u = true -> exists v, u = Some v.
Proof. destruct u as [ v | ]; [ now exists v | discriminate ]. Qed.

Lemma apply_planet_material p o :
  exists m, surface_material p (apply_planet p o) = Some m.
Proof.
  unfold surface_material; rewrite apply_planet_dayMode.
  destruct (has_url (nightImageURL p)) eqn:Hn.
  - destruct (has_url_some _ Hn) as [ n -> ].
    destruct (dayMode o); cbn; try destruct (present (waterURL p)); eauto.
  - cbn; destruct (present (waterURL p)); eauto.
Qed.

(** X17.  After the fallback of the constructor, [_showSurface] finds every
    texture it asks for: the options that the constructor leaves always give
    a material, the blending shader exactly in 'daynight' mode, and an
    emissive one exactly in 'night' mode. *)
Theorem surface_material_after_fallback (p : Planet) (o : Opts) :
  exists m,
    surface_material p (apply_planet p o) = Some m /\
    match m with
    | DayNightShader d n =>
        dayMode (apply_planet p o) = daynight /\ d = imageURL p /\
        nightImageURL p = Some n
    | Phong emissive map _ _ | Lambert emissive map _ =>
        dayMode (apply_planet p o) <> daynight /\
        (emissive = true <-> dayMode (apply_planet p o) = night) /\
        (if emissive then nightImageURL p = Some map else map = imageURL p)
    end.
Proof.
  unfold surface_material; rewrite apply_planet_dayMode.
  destruct (has_url (nightImageURL p)) eqn:Hn.
  - destruct (has_url_some _ Hn) as [ n Hnight ]; rewrite Hnight.
    destruct (dayMode o); cbn.
    + destruct (present (waterURL p)); eexists; (split; [ reflexivity | ]);
        (repeat split; try discriminate; auto).
    + destruct (present (waterURL p)); eexists; (split; [ reflexivity | ]);
        (repeat split; try discriminate; auto).
    + eexists; split; [ reflexivity | repeat split; auto ].
  - cbn.
    destruct (present (waterURL p)); eexists; (split; [ reflexivity | ]);
      (repeat split; try discriminate; auto).
Qed.

(** X18.  The planet is drawn once.  With the options that the constructor
    leaves, and a planet that has an image, the constructor hands a globe
    image to the widget exactly when the ready callback will not show the
    surface overlay. *)
Theorem globe_image_or_surface_overlay (p : Planet) (o : Opts) :
  has_url (Some (imageURL p)) = true ->
  let o' := apply_planet p o in
  (fst (globe_images p o') = None <-> shows_surface o' p = true) /\
  (shows_surface o' p = true -> globe_images p o' = (None, None)).
Proof.
  intros Himg o'.
  destruct (apply_planet_material p o) as (m & Hm).
  assert (Hshow : shows_surface o' p =
                  tileEngineURL o' || match dayMode o' with daynight => true | _ => false end).
  { unfold shows_surface; fold o'; unfold o'; rewrite Hm; apply andb_true_r. }
  rewrite Hshow; unfold globe_images; rewrite Himg.
  assert (Hnight : dayMode o' = night -> nightImageURL p <> None).
  { unfold o'; rewrite apply_planet_dayMode.
    destruct (has_url (nightImageURL p)) eqn:Hn; [ | discriminate ].
    destruct (has_url_some _ Hn) as [ n -> ]; discriminate. }
  destruct (tileEngineURL o'), (dayMode o') eqn:Hmode; cbn;
    repeat split; try discriminate; try reflexivity; try tauto;
      intros H; exfalso; now apply Hnight.
Qed.

End ConstructionFacts.

(** ** The first view *)

Section FirstView.

(** X19.  The first view is a valid position.  For offsets within twelve hours
    of Greenwich, [_getUserLatLng] answers a longitude between -180 and 180,
    fifteen degrees east for every hour ahead of Greenwich, and one of the
    latitudes 30, -30 and 0: north when the July offset is smaller than the
    January one, south when it is larger.  Exchanging the two mirrors the
    latitude. *)
Theorem getUserLatLng_position (offset offsetJan offsetJul : Z) :
  (-720 <= offset <= 720)%Z ->
  let (lat, lng) := _getUserLatLng offset offsetJan offsetJul in
  -180 <= lng <= 180 /\ lng = - IZR offset / 4 /\
  (lat = 30 /\ (offsetJul < offsetJan)%Z \/
   lat = -30 /\ (offsetJan < offsetJul)%Z \/
   lat = 0 /\ offsetJan = offsetJul) /\
  fst (_getUserLatLng offset offsetJul offsetJan) = - lat.
Proof.
  intros [ Hlo Hhi ]; unfold _getUserLatLng; cbv zeta.
  apply IZR_le in Hlo, Hhi.
  repeat split; try lra.
  - destruct (- offsetJan - - offsetJul <? 0)%Z eqn:E1;
      [ apply Z.ltb_lt in E1; left; split; [ reflexivity | lia ] | ].
    apply Z.ltb_ge in E1.
    destruct (- offsetJan - - offsetJul >? 0)%Z eqn:E2.
    + apply Z.gtb_lt in E2; right; left; split; [ reflexivity | lia ].
    + right; right; split; [ reflexivity | ].
      pose proof (Zgt_cases (- offsetJan - - offsetJul) 0) as H; rewrite E2 in H; lia.
  - cbn [fst].
    destruct (- offsetJan - - offsetJul <? 0)%Z eqn:E1;
      destruct (- offsetJul - - offsetJan <? 0)%Z eqn:E2;
      destruct (- offsetJan - - offsetJul >? 0)%Z eqn:E3;
      destruct (- offsetJul - - offsetJan >? 0)%Z eqn:E4;
      try lra; exfalso;
      pose proof (Zlt_cases (- offsetJan - - offsetJul) 0) as H1; rewrite E1 in H1;
      pose proof (Zlt_cases (- offsetJul - - offsetJan) 0) as H2; rewrite E2 in H2;
      pose proof (Zgt_cases (- offsetJan - - offsetJul) 0) as H3; rewrite E3 in H3;
      pose proof (Zgt_cases (- offsetJul - - offsetJan) 0) as H4; rewrite E4 in H4;
      lia.
Qed.

End FirstView.

(** ** The distance limits *)

Section DistanceLimits.

Variable globeRadius : R.
Variable globeTileEngineMaxLevel : nat.

(** X20.  A switch of the near distance leaves the camera above the surface and
    the limits in order: for a positive radius, the new minimum distance is
    above the radius and at most six radii, the maximum is ninety-nine
    radii, and the far plane lies behind the globe. *)
Theorem changeCameraNear_limits (n : R) (s : State) :
  0 < globeRadius ->
  let s' := _changeCameraNear globeRadius globeTileEngineMaxLevel n s in
  near (camera s') = n /\
  globeRadius < minDistance (controls s') <= 6 * globeRadius /\
  minDistance (controls s') < maxDistance (controls s') /\
  maxDistance (controls s') = 99 * globeRadius /\
  maxDistance (controls s') + globeRadius = far (camera s').
Proof.
  intros HR s'; unfold s', _changeCameraNear; cbn.
  assert (Hpow : 1 <= 2 ^ globeTileEngineMaxLevel).
  { induction globeTileEngineMaxLevel as [ | k IH ]; cbn; lra. }
  assert (Hq : 0 < 5 / 2 ^ globeTileEngineMaxLevel <= 5).
  { split.
    - apply Rdiv_lt_0_compat; lra.
    - assert (Hinv : / 2 ^ globeTileEngineMaxLevel <= 1)
        by (rewrite <- Rinv_1; apply Rinv_le_contravar; lra).
      unfold Rdiv; lra. }
  repeat split; try nra.
Qed.

End DistanceLimits.

(** ** The mean sun *)

Section MeanSun.

Variables century equationOfTime declination : R -> R.

(** X21.  The mean sun goes round once a day, westwards.  Its longitude, the
    one of [_sunPosAt] before the equation of time is taken off, is -180
    at midnight UTC, falls by fifteen degrees an hour within the day, stays
    above -540, and is the same a day later. *)
Theorem mean_sun_daily_cycle (dt : Z) :
  let mean_lng t :=
    fst (_sunPosAt century equationOfTime declination t) +
    equationOfTime (century (IZR t)) / 4 in
  -540 < mean_lng dt <= -180 /\
  ((dt mod 86400000 = 0)%Z -> mean_lng dt = -180) /\
  (forall ms, (0 <= ms)%Z -> (dt mod 86400000 + ms < 86400000)%Z ->
              mean_lng (dt + ms)%Z = mean_lng dt - 15 * (IZR ms / 3600000)) /\
  mean_lng (dt + 86400000)%Z = mean_lng dt.
Proof.
  intros mean_lng.
  assert (Hmean : forall t, mean_lng t = - IZR (t mod 86400000) / 86400000 * 360 - 180).
  { intros t; unfold mean_lng, _sunPosAt; cbn [fst].
    replace (t / 86400000 * 86400000 - t)%Z with (- (t mod 86400000))%Z
      by (pose proof (Z.div_mod t 86400000 ltac:(lia)); lia).
    rewrite opp_IZR; lra. }
  rewrite !Hmean.
  pose proof (Z.mod_pos_bound dt 86400000 ltac:(lia)) as [ Hlo Hhi ].
  repeat split.
  - apply IZR_lt in Hhi; lra.
  - apply IZR_le in Hlo; lra.
  - intros ->; lra.
  - intros ms Hms Hday; rewrite Hmean.
    replace ((dt + ms) mod 86400000)%Z with (dt mod 86400000 + ms)%Z.
    + rewrite plus_IZR; lra.
    + apply Z.mod_unique with (q := (dt / 86400000)%Z); [ lia | ].
      pose proof (Z.div_mod dt 86400000 ltac:(lia)); lia.
  - replace ((dt + 86400000) mod 86400000)%Z with (dt mod 86400000)%Z; [ reflexivity | ].
    replace (dt + 86400000)%Z with (dt + 1 * 86400000)%Z by lia.
    now rewrite Z.mod_add by lia.
Qed.

End MeanSun.

(** ** The day/night shader *)

Section ShaderFacts.

Import Shader.

Lemma sin_cos_sq a : sin a * sin a + cos a * cos a = 1.
Proof. pose proof (sin2_cos2 a) as H; unfold Rsqr in H; exact H. Qed.

Lemma dot_Polar2Cartesian c : dot (Polar2Cartesian c) (Polar2Cartesian c) = 1.
Proof.
  unfold Polar2Cartesian, dot; cbn.
  set (theta := toRad (90 - fst c)); set (phi := toRad (90 - snd c)).
  pose proof (sin_cos_sq theta) as Ht; pose proof (sin_cos_sq phi) as Hp.
  replace (sin phi * cos theta * (sin phi * cos theta) + cos phi * cos phi +
           sin phi * sin theta * (sin phi * sin theta))
    with (sin phi * sin phi * (sin theta * sin theta + cos theta * cos theta) +
          cos phi * cos phi) by ring.
  rewrite Ht; lra.
Qed.

Lemma mul_mat_vec m n v : mul_vec (mul_mat m n) v = mul_vec m (mul_vec n v).
Proof.
  destruct m as [ [ a b c ] [ d e f ] [ g h i ] ].
  destruct n as [ [ a' b' c' ] [ d' e' f' ] [ g' h' i' ] ].
  destruct v as [ x y z ].
  unfold mul_vec, mul_mat, add, scale; cbn; f_equal; ring.
Qed.

Lemma rotX_isometry a v :
  let rotX := mat3 1 0 0 0 (cos a) (- sin a) 0 (sin a) (cos a) in
  dot (mul_vec rotX v) (mul_vec rotX v) = dot v v.
Proof.
  destruct v as [ x y z ]; unfold mat3, mul_vec, add, scale, dot; cbn.
  pose proof (sin_cos_sq a) as H.
  replace ((x * 1 + y * 0 + z * 0) * (x * 1 + y * 0 + z * 0) +
           (x * 0 + y * cos a + z * sin a) * (x * 0 + y * cos a + z * sin a) +
           (x * 0 + y * - sin a + z * cos a) * (x * 0 + y * - sin a + z * cos a))
    with (x * x + (y * y + z * z) * (sin a * sin a + cos a * cos a)) by ring.
  rewrite H; ring.
Qed.

Lemma rotY_isometry a v :
  let rotY := mat3 (cos a) 0 (sin a) 0 1 0 (- sin a) 0 (cos a) in
  dot (mul_vec rotY v) (mul_vec rotY v) = dot v v.
Proof.
  destruct v as [ x y z ]; unfold mat3, mul_vec, add, scale, dot; cbn.
  pose proof (sin_cos_sq a) as H.
  replace ((x * cos a + y * 0 + z * - sin a) * (x * cos a + y * 0 + z * - sin a) +
           (x * 0 + y * 1 + z * 0) * (x * 0 + y * 1 + z * 0) +
           (x * sin a + y * 0 + z * cos a) * (x * sin a + y * 0 + z * cos a))
    with (y * y + (x * x + z * z) * (sin a * sin a + cos a * cos a)) by ring.
  rewrite H; ring.
Qed.

Lemma rotatedSunDirection_unit sunPosition globeRotation :
  dot (rotatedSunDirection sunPosition globeRotation)
      (rotatedSunDirection sunPosition globeRotation) = 1.
Proof.
  unfold rotatedSunDirection; cbv zeta.
  rewrite mul_mat_vec.
  rewrite (rotX_isometry (- toRad (snd globeRotation))).
  rewrite (rotY_isometry (toRad (fst globeRotation))).
  apply dot_Polar2Cartesian.
Qed.

Lemma normalize_unit v : dot v v = 1 -> normalize v = v.
Proof.
  intros H; unfold normalize; rewrite H, sqrt_1, Rinv_1.
  destruct v as [ x y z ]; unfold scale; cbn; f_equal; ring.
Qed.

Lemma cauchy_schwarz u v : dot u v * dot u v <= dot u u * dot v v.
Proof.
  destruct u as [ a b c ], v as [ x y z ]; unfold dot; cbn.
  assert (H : (a * a + b * b + c * c) * (x * x + y * y + z * z) -
              (a * x + b * y + c * z) * (a * x + b * y + c * z) =
              Rsqr (a * y - b * x) + Rsqr (a * z - c * x) + Rsqr (b * z - c * y))
    by (unfold Rsqr; ring).
  pose proof (Rle_0_sqr (a * y - b * x)).
  pose proof (Rle_0_sqr (a * z - c * x)).
  pose proof (Rle_0_sqr (b * z - c * y)).
  lra.
Qed.

(** X22.  The direction of the sun is a unit vector whatever the uniforms hold,
    so normalising it changes nothing; and for a normal that is not the
    zero vector the intensity is the cosine of an angle, between -1 and 1. *)
Theorem intensity_is_a_cosine (sunPosition globeRotation : R * R) (vNormal : Vec3) :
  dot vNormal vNormal <> 0 ->
  let sun := rotatedSunDirection sunPosition globeRotation in
  dot sun sun = 1 /\
  intensity sunPosition globeRotation vNormal = dot vNormal sun / sqrt (dot vNormal vNormal) /\
  -1 <= intensity sunPosition globeRotation vNormal <= 1.
Proof.
  intros Hn sun.
  pose proof (rotatedSunDirection_unit sunPosition globeRotation) as Hsun; fold sun in Hsun.
  assert (Hpos : 0 < dot vNormal vNormal).
  { assert (0 <= dot vNormal vNormal)
      by (destruct vNormal as [ x y z ]; unfold dot; cbn; nra).
    lra. }
  pose proof (sqrt_lt_R0 _ Hpos) as Hsqrt.
  assert (Hi : intensity sunPosition globeRotation vNormal =
               dot vNormal sun / sqrt (dot vNormal vNormal)).
  { unfold intensity; fold sun; rewrite (normalize_unit sun Hsun).
    unfold normalize.
    destruct vNormal as [ x y z ], sun as [ a b c ]; unfold scale, dot; cbn.
    unfold Rdiv; ring. }
  split; [ exact Hsun | split; [ exact Hi | ] ].
  rewrite Hi.
  pose proof (cauchy_schwarz vNormal sun) as Hcs; rewrite Hsun, Rmult_1_r in Hcs.
  pose proof (sqrt_sqrt (dot vNormal vNormal) (Rlt_le _ _ Hpos)) as Hsq.
  set (d := dot vNormal sun) in *; set (r := sqrt (dot vNormal vNormal)) in *.
  assert (Hd : - r <= d <= r) by nra.
  split.
  - apply Rmult_le_reg_r with r; [ exact Hsqrt | ].
    unfold Rdiv; rewrite Rmult_assoc, Rinv_l by lra; lra.
  - apply Rmult_le_reg_r with r; [ exact Hsqrt | ].
    unfold Rdiv; rewrite Rmult_assoc, Rinv_l by lra; lra.
Qed.

Lemma smoothstep_terminator x :
  let b := smoothstep (-0.1) 0.1 x in
  0 <= b <= 1 /\ (x <= -0.1 -> b = 0) /\ (0.1 <= x -> b = 1) /\ (x = 0 -> b = 0.5).
Proof.
  unfold smoothstep, clamp; cbv zeta.
  set (u := (x - -0.1) / (0.1 - -0.1)).
  assert (Hu : u = 5 * x + 0.5) by (unfold u; lra).
  clearbody u.
  assert (Ht : 0 <= Rmin (Rmax u 0) 1 <= 1).
  { unfold Rmin, Rmax; repeat destruct (Rle_dec _ _); lra. }
  repeat split.
  - nra.
  - set (t := Rmin (Rmax u 0) 1) in *.
    assert (0 <= (1 - t) * (1 - t) * (1 + 2 * t)) by (apply Rmult_le_pos; nra).
    nra.
  - intros Hx; replace (Rmin (Rmax u 0) 1) with 0; [ lra | ].
    unfold Rmin, Rmax; repeat destruct (Rle_dec _ _); lra.
  - intros Hx; replace (Rmin (Rmax u 0) 1) with 1; [ lra | ].
    unfold Rmin, Rmax; repeat destruct (Rle_dec _ _); lra.
  - intros Hx; replace (Rmin (Rmax u 0) 1) with 0.5; [ lra | ].
    unfold Rmin, Rmax; repeat destruct (Rle_dec _ _); lra.
Qed.

Lemma between_mix n d b :
  0 <= b <= 1 -> Rmin n d <= n * (1 - b) + d * b <= Rmax n d.
Proof.
  intros Hb; unfold Rmin, Rmax; destruct (Rle_dec n d); nra.
Qed.

(** X23.  The fragment is night where the surface is turned away from the sun by
    more than the band of the terminator, day where it is turned towards
    it, and a blend in between: each colour channel lies between the night
    and the day texel, is the night one for an intensity of at most -0.1,
    the day one from 0.1 on, and their mean on the terminator.  The alpha
    channel is the [opacity] uniform, whatever the textures hold. *)
Theorem fragment_blends_night_into_day (sunPosition globeRotation : R * R) (opacity : R)
    (vNormal : Vec3) (dayColor nightColor : Vec4) :
  let i := intensity sunPosition globeRotation vNormal in
  let c := main sunPosition globeRotation opacity vNormal dayColor nightColor in
  ca c = opacity /\
  (Rmin (cr nightColor) (cr dayColor) <= cr c <= Rmax (cr nightColor) (cr dayColor) /\
   Rmin (cg nightColor) (cg dayColor) <= cg c <= Rmax (cg nightColor) (cg dayColor) /\
   Rmin (cb nightColor) (cb dayColor) <= cb c <= Rmax (cb nightColor) (cb dayColor)) /\
  (i <= -0.1 -> (cr c, cg c, cb c) = (cr nightColor, cg nightColor, cb nightColor)) /\
  (0.1 <= i -> (cr c, cg c, cb c) = (cr dayColor, cg dayColor, cb dayColor)) /\
  (i = 0 -> (cr c, cg c, cb c) =
            ((cr nightColor + cr dayColor) / 2, (cg nightColor + cg dayColor) / 2,
             (cb nightColor + cb dayColor) / 2)).
Proof.
  intros i c; unfold c, main; cbv zeta; fold i.
  destruct (smoothstep_terminator i) as (Hb & Hnight & Hday & Hmid); cbv zeta in *.
  set (b := smoothstep (-0.1) 0.1 i) in *.
  unfold mix; cbn.
  split; [ reflexivity | split; [ | split; [ | split ] ] ].
  - repeat split; apply between_mix; exact Hb.
  - intros Hi; rewrite (Hnight Hi); f_equal; [ f_equal | ]; ring.
  - intros Hi; rewrite (Hday Hi); f_equal; [ f_equal | ]; ring.
  - intros Hi; rewrite (Hmid Hi); f_equal; [ f_equal | ]; lra.
Qed.

End ShaderFacts.

(** ** Shadows *)

Section ShadowFacts.

(** Induction on an object of the scene graph, with the property for all
    the children at hand. *)
Lemma Object3D_ind' (P : Object3D -> Prop) :
  (forall isMesh castShadow children,
     Forall P children -> P (object3D isMesh castShadow children)) ->
  forall obj, P obj.
Proof.
  intros Hnode.
  fix IH 1.
  intros [ isMesh castShadow children ]; apply Hnode.
  induction children as [ | c cs IHcs ]; constructor; [ apply IH | exact IHcs ].
Qed.

Lemma traverse_cast_flags obj :
  flags (traverse_cast obj) = map (fun f => (fst f, fst f || snd f)) (flags obj).
Proof.
  induction obj as [ isMesh castShadow children IH ] using Object3D_ind'.
  cbn [traverse_cast flags map fst snd]; f_equal.
  induction IH as [ | c cs Hc _ IHcs ]; [ reflexivity | ].
  cbn [map flat_map]; rewrite map_app, Hc, IHcs; reflexivity.
Qed.

Lemma traverse_cast_idempotent obj :
  traverse_cast (traverse_cast obj) = traverse_cast obj.
Proof.
  induction obj as [ isMesh castShadow children IH ] using Object3D_ind'.
  cbn [traverse_cast]; f_equal; [ now destruct isMesh | ].
  rewrite map_map.
  induction IH as [ | c cs Hc _ IHcs ]; [ reflexivity | ].
  cbn [map]; now rewrite Hc, IHcs.
Qed.

(** X24.  [castShadows] switches shadows on for the meshes and for nothing else.
    It returns early only for a value that cannot be traversed; otherwise
    every object of the traversed graph keeps its kind, casts a shadow
    afterwards exactly if it is a mesh or did so before, and a second call
    on the result changes nothing. *)
Theorem castShadows_marks_the_meshes (obj : cast_arg) (scene : Object3D) :
  (castShadows obj scene = None <-> obj = cast_untraversable) /\
  forall after,
    castShadows obj scene = Some after ->
    let before := match obj with cast_object o => o | _ => scene end in
    flags after = map (fun f => (fst f, fst f || snd f)) (flags before) /\
    Forall (fun f => fst f = true -> snd f = true) (flags after) /\
    castShadows (cast_object after) scene = Some after.
Proof.
  split.
  - destruct obj; cbn; split; congruence.
  - intros after Hafter before.
    assert (Hbefore : after = traverse_cast before)
      by (unfold before; destruct obj; cbn in Hafter; congruence).
    rewrite Hbefore; repeat split.
    + apply traverse_cast_flags.
    + rewrite traverse_cast_flags; apply Forall_forall.
      intros f Hf; apply in_map_iff in Hf; destruct Hf as ([ m c ] & <- & _).
      cbn; intros ->; reflexivity.
    + cbn; now rewrite traverse_cast_idempotent.
Qed.

End ShadowFacts.

(** ** Evaluation on concrete states *)

(** From here on a handler or a field update unfolds only when the state it
    is applied to is given by its fields, so that a run is evaluated event by
    event, from the first on. *)

Arguments set_globeready v !s /.
Arguments set_nonInteractionTimer v !s /.
Arguments set_prevLatLngAlt v !s /.
Arguments set_spinspeed v !s /.
Arguments set_surface v !s /.
Arguments set_solar v !s /.
Arguments set_prevSurfaceOpacity v !s /.
Arguments set_cloudsshown v !s /.
Arguments set_clouds v !s /.
Arguments set_clouds_builds v !s /.
Arguments set_clouds_loading v !s /.
Arguments set_controls v !s /.
Arguments set_camera v !s /.
Arguments set_scene v !s /.
Arguments set_browser v !s /.
Arguments spinGlobe opts speed !s /.
Arguments idle_timeout opts latlngalt !s /.
Arguments _onInteraction opts !s /.
Arguments elapse opts t latlngalt !s /.
Arguments _changeCameraNear globeRadius globeTileEngineMaxLevel near !s /.
Arguments _changeCameraAngle alt !s /.
Arguments _changeSurfaceOpacity opts globeRadius globeTileEngineMaxLevel altitude !s /.
Arguments _moveSunToPositionAtDate century equationOfTime declination dt !s /.
Arguments _updateSunRotation latLngAlt !s /.
Arguments onZoom opts globeRadius globeTileEngineMaxLevel latLngAlt !s /.
Arguments onClick opts !s /.
Arguments _loadThreeJS target_y !s /.
Arguments _showSurface opts target_y century equationOfTime declination dt !s /.
Arguments rotateClouds planet !s /.
Arguments _addClouds planet !s /.
Arguments _createClouds target_y !s /.
Arguments clouds_texture_loaded planet !s /.
Arguments showClouds planet target_y show !s /.
Arguments step opts planet globeRadius globeTileEngineMaxLevel target_y
  century equationOfTime declination !s !e /.
Arguments surface_opacity !s /.
Arguments shows_surface : simpl never.
Arguments _sunPosAt : simpl never.

Arguments sample_run : simpl never.

Lemma sample_run_nil opts s : sample_run opts s [] = s.
Proof. reflexivity. Qed.

Lemma sample_run_cons opts s e es :
  sample_run opts s (e :: es) =
  sample_run opts
    (step opts earth 100 17 0 (fun _ => 0) (fun _ => 0) (fun _ => 0) s e) es.
Proof. reflexivity. Qed.

Lemma sample_run_app opts s es es' :
  sample_run opts s (es ++ es') = sample_run opts (sample_run opts s es) es'.
Proof. apply fold_left_app. Qed.

Lemma earth_shows_surface : shows_surface default_opts earth = true.
Proof. reflexivity. Qed.

Lemma earth_shows_surface_daynight : shows_surface daynight_opts earth = true.
Proof. reflexivity. Qed.

Lemma opacity_1_5 : opacity_of_altitude 1.5 = 1.
Proof. apply opacity_of_altitude_high; lra. Qed.

Lemma opacity_0_4 : opacity_of_altitude 0.4 = 0.
Proof. apply opacity_of_altitude_low; lra. Qed.

Lemma opacity_0_29 : opacity_of_altitude 0.29 = 0.
Proof. apply opacity_of_altitude_low; lra. Qed.

Lemma opacity_0_1 : opacity_of_altitude 0.1 = 0.
Proof. apply opacity_of_altitude_low; lra. Qed.

Lemma opacity_0_400005 : opacity_of_altitude 0.400005 = 0.000005 * (5 / 3).
Proof. rewrite opacity_of_altitude_mid by lra; lra. Qed.

Create Rewrite HintDb sample_values.
#[export] Hint Rewrite earth_shows_surface earth_shows_surface_daynight
  opacity_1_5 opacity_0_4 opacity_0_29 opacity_0_1 opacity_0_400005
  : sample_values.

(** One event of a sample run, and all of them. *)
Ltac eval_event :=
  rewrite sample_run_cons;
  repeat (progress (cbn; eval_cmp; autorewrite with sample_values)).

Ltac eval_events := repeat eval_event; rewrite ?sample_run_nil.

(** ** Concrete runs for the spin claims *)

(** C1 as stated fails: with the default ceiling 0.4 the spin resumes at the
    end of the idle delay although the altitude 2.5 read then is above the
    ceiling.  And an explicit call of [spinGlobe], which is no interaction,
    has the globe spinning again before the delay has passed. *)
Lemma resume_not_only_below_ceiling :
  let p := mkPov 0 0 2.5 in
  let expired := sample_run default_opts sample_init [Ready; Click; Elapse 15000 p] in
  let called :=
    sample_run default_opts sample_init
      [Ready; Click; CallSpinGlobe (num 1); Elapse 100 p] in
  (autoRotate (controls expired) = true /\
   ~ altitude p <= onlySpinAboveAltitude default_opts) /\
  (autoRotate (controls called) = true /\ (now (browser called) < 15000)%Z).
Proof.
  cbv zeta; split; split.
  - unfold sample_init, init, sample_controls, sample_camera.
    now eval_events.
  - cbn; lra.
  - unfold sample_init, init, sample_controls, sample_camera.
    now eval_events.
  - unfold sample_init, init, sample_controls, sample_camera.
    eval_events; cbn; lia.
Qed.

(** The controller is ready and a click has stopped the rotation. *)
Lemma run_stopped :
  sample_run default_opts sample_init [Ready; Click] =
  mkState true (Some 1%positive) None undefined None false undefined false None 0 0
    (mkControls false undefined 101 10000 None)
    sample_camera (mkScene false false 0) (mkBrowser 0 [(1%positive, 15000%Z)] 2 0).
Proof.
  unfold sample_init, init, sample_controls, sample_camera.
  now eval_events.
Qed.

(** What happens before the idle delay has passed: a first sample, a pan
    with a change of altitude below the threshold, an animation frame, a sun
    update, a request for the clouds, and ten seconds. *)
Lemma quiet_sample :
  quiet_until default_opts earth 100 17 0 (fun _ => 0) (fun _ => 0) (fun _ => 0)
    (0 + 15000)
    (sample_run default_opts sample_init [Ready; Click])
    [Zoom (mkPov 10 20 2.5); Zoom (mkPov 30 40 2.505); Frame; SunTick 0;
     CallShowClouds true; Elapse 10000 (mkPov 30 40 2.505)] = true.
Proof.
  rewrite run_stopped; unfold sample_camera.
  repeat (progress (cbn; eval_cmp)).
  reflexivity.
Qed.

Lemma idle_timer_resumes_above_altitude_witness :
  let opts := default_opts in
  let p := mkPov 30 40 2.505 in
  let s := sample_run opts sample_init [Ready] in
  let stopped := _onInteraction opts s in
  let waiting :=
    sample_run opts stopped
      [Zoom (mkPov 10 20 2.5); Zoom (mkPov 30 40 2.505); Frame; SunTick 0;
       CallShowClouds true; Elapse 10000 (mkPov 30 40 2.505)] in
  let expired := elapse opts (0 + 15000) p waiting in
  autoRotate (controls waiting) = false /\
  (autoRotate (controls expired) = true <-> altitude p > onlySpinAboveAltitude opts) /\
  (altitude p > onlySpinAboveAltitude opts ->
   autoRotateSpeed (controls expired) =
   JS.or (_spinspeed s) (num (opt_autoRotateSpeed opts))) /\
  (forall t' q', autoRotate (controls (elapse opts t' q' expired)) =
                 autoRotate (controls expired)).
Proof.
  cbv zeta.
  destruct (idle_timer_resumes_above_altitude default_opts earth 100 17 0
              (fun _ => 0) (fun _ => 0) (fun _ => 0)
              sample_camera sample_controls [Ready] (mkPov 30 40 2.505)
              eq_refl eq_refl) as [ _ H ].
  apply (H [Zoom (mkPov 10 20 2.5); Zoom (mkPov 30 40 2.505); Frame; SunTick 0;
            CallShowClouds true; Elapse 10000 (mkPov 30 40 2.505)]).
  exact quiet_sample.
Defined.



(** C10 as stated fails: with the configured default speed 0, the start-up
    call [spinGlobe(0)], a click and the end of the idle delay leave the
    number zero as the remembered speed. *)
Lemma remembered_speed_zero_reachable :
  _spinspeed
    (sample_run zero_speed_opts sample_init
       [CallSpinGlobe (num 0); Ready; Click; Elapse 15000 (mkPov 0 0 2.5)]) = num 0.
Proof.
  unfold sample_init, init, sample_controls, sample_camera.
  now eval_events.
Qed.

Lemma spinGlobe_resumes_previous_speed_witness :
  (let stopped := spinGlobe default_opts (num 0) (spinGlobe default_opts (num 1) sample_init) in
   let resumed := spinGlobe default_opts undefined stopped in
   autoRotate (controls stopped) = false /\
   autoRotate (controls resumed) = true /\
   autoRotateSpeed (controls resumed) = num 1) /\
  (let resumed :=
     spinGlobe default_opts null
       (sample_run default_opts sample_init [CallSpinGlobe (num 0); Ready; Click]) in
   autoRotate (controls resumed) = true /\
   autoRotateSpeed (controls resumed) = num (opt_autoRotateSpeed default_opts)).
Proof.
  pose proof (spinGlobe_resumes_previous_speed default_opts earth 100 17 0
                (fun _ => 0) (fun _ => 0) (fun _ => 0)) as [ Hset Hnone ].
  split.
  - apply (Hset sample_init 1 undefined); [ lra | reflexivity ].
  - apply (Hnone sample_camera sample_controls
             [CallSpinGlobe (num 0); Ready; Click] null); [ | reflexivity ].
    repeat constructor; intros v H; try discriminate.
    now injection H as <-.
Defined.

Lemma remembered_speed_never_zero_witness :
  _spinspeed (sample_run default_opts sample_init [Ready; Click]) <> num 0 /\
  (let resumed :=
     spinGlobe default_opts undefined
       (sample_run default_opts (spinGlobe default_opts (num 1) sample_init)
          [CallSpinGlobe (num 0)]) in
   exists w, w <> 0 /\
             autoRotate (controls resumed) = true /\
             autoRotateSpeed (controls resumed) = num w).
Proof.
  pose proof (remembered_speed_never_zero default_opts earth 100 17 0
                (fun _ => 0) (fun _ => 0) (fun _ => 0))
    as (Hnever & _ & _ & Honce & _).
  split.
  - apply (Hnever ltac:(cbn; lra) sample_camera sample_controls [Ready; Click]).
  - apply (Honce sample_init 1 [CallSpinGlobe (num 0)] undefined); [ lra | reflexivity ].
Defined.

(** ** Concrete runs for the mapping claims *)

Lemma run_zoomed_out :
  sample_run default_opts sample_init zoomed_out =
  mkState false None (Some (mkPov 0 0 1.5)) undefined
    (Some (mkSurface 1 1 (0, 0) (0, 0))) false (num 1) false None 0 0
    (mkControls false (num 2) 101 10000 (Some (tilt_of_altitude 1.5)))
    sample_camera (mkScene true false 0) (mkBrowser 0 [] 1 0).
Proof.
  unfold zoomed_out, sample_init, init, sample_controls, sample_camera.
  now eval_events.
Qed.

(** From there, a jump to altitude 0.4 makes the surface transparent and
    switches the camera to the fine near distance. *)
Lemma run_zoomed_in :
  sample_run default_opts sample_init (zoomed_out ++ [Zoom (mkPov 0 0 0.4)]) =
  mkState false None (Some (mkPov 0 0 0.4)) undefined
    (Some (mkSurface 0 1 (0, 0) (0, 0))) false (num 0) false None 0 0
    (mkControls false (num 2) (100 * (1 + 5 / 2 ^ 17)) (100 * 100 - 100)
       (Some (tilt_of_altitude 0.4)))
    (mkCamera 1e-5 (100 * 100)) (mkScene true false 0) (mkBrowser 0 [] 1 0).
Proof.
  rewrite sample_run_app, run_zoomed_out.
  now eval_events.
Qed.

(** Two small steps to the same altitude: the last one is below the
    threshold 0.00001, so the outputs of altitude 0.400005 stay. *)
Lemma run_crept_in :
  sample_run default_opts sample_init
    (zoomed_out ++ [Zoom (mkPov 0 0 0.400005); Zoom (mkPov 0 0 0.4)]) =
  mkState false None (Some (mkPov 0 0 0.4)) undefined
    (Some (mkSurface (0.000005 * (5 / 3)) 1 (0, 0) (0, 0))) false
    (num (0.000005 * (5 / 3))) false None 0 0
    (mkControls false (num 2) 101 10000 (Some (tilt_of_altitude 0.400005)))
    sample_camera (mkScene true false 0) (mkBrowser 0 [] 1 0).
Proof.
  rewrite sample_run_app, run_zoomed_out.
  now eval_events.
Qed.

(** C2 as stated fails: two runs end with the same latest sample, of
    altitude 0.4, and show different opacities and near distances, so the
    outputs are no function of the latest altitude. *)
Lemma outputs_not_function_of_latest_altitude :
  ~ exists F : R -> option R * R * option R,
      forall es p,
        _prevLatLngAlt (sample_run default_opts sample_init es) = Some p ->
        outputs (sample_run default_opts sample_init es) = F (altitude p).
Proof.
  intros [ F HF ].
  pose proof (HF (zoomed_out ++ [Zoom (mkPov 0 0 0.4)]) (mkPov 0 0 0.4)) as Hjump.
  pose proof (HF (zoomed_out ++ [Zoom (mkPov 0 0 0.400005); Zoom (mkPov 0 0 0.4)])
                (mkPov 0 0 0.4)) as Hcreep.
  rewrite run_zoomed_in in Hjump; rewrite run_crept_in in Hcreep.
  specialize (Hjump eq_refl); specialize (Hcreep eq_refl).
  rewrite <- Hcreep in Hjump.
  unfold outputs, surface_opacity, sample_camera in Hjump; cbn in Hjump.
  injection Hjump as _ Hnear _.
  lra.
Qed.

Lemma near_switches_on_recorded_transition_witness :
  let zoom := onZoom default_opts 100 17 in
  let out := sample_run default_opts sample_init zoomed_out in
  let inside := zoom (mkPov 0 0 0.4) out in
  let back := zoom (mkPov 0 0 1.5) inside in
  (near (camera inside) = 1e-5 /\
   (camera inside, minDistance (controls inside), maxDistance (controls inside)) =
   (mkCamera 1e-5 (100 * 100), 100 * (1 + 5 / 2 ^ 17), 100 * 100 - 100)) /\
  (near (camera back) = 0.05 /\
   (camera back, minDistance (controls back), maxDistance (controls back)) =
   (mkCamera 0.05 (100 * 100), 100 * (1 + 5 / 2 ^ 17), 100 * 100 - 100)).
Proof.
  intros zoom out inside back.
  assert (Hinside : inside =
                    sample_run default_opts sample_init (zoomed_out ++ [Zoom (mkPov 0 0 0.4)]))
    by (now rewrite sample_run_app).
  pose proof (near_switches_on_recorded_transition default_opts earth 100 17 0
                (fun _ => 0) (fun _ => 0) (fun _ => 0) sample_camera sample_controls
                zoomed_out (mkPov 0 0 0.4)) as (_ & _ & Hfine & _).
  pose proof (near_switches_on_recorded_transition default_opts earth 100 17 0
                (fun _ => 0) (fun _ => 0) (fun _ => 0) sample_camera sample_controls
                (zoomed_out ++ [Zoom (mkPov 0 0 0.4)]) (mkPov 0 0 1.5))
    as (_ & _ & _ & Hcoarse & _).
  fold sample_init (sample_run default_opts sample_init zoomed_out) in Hfine.
  fold sample_init
    (sample_run default_opts sample_init (zoomed_out ++ [Zoom (mkPov 0 0 0.4)])) in Hcoarse.
  rewrite <- Hinside in Hcoarse.
  split.
  - apply (Hfine 1).
    + fold out; unfold out; rewrite run_zoomed_out; unfold opacity_sample; eval_run; reflexivity.
    + fold out; unfold out; now rewrite run_zoomed_out.
    + lra.
    + apply opacity_0_4.
  - apply Hcoarse.
    + rewrite Hinside, run_zoomed_in; unfold opacity_sample; eval_run; reflexivity.
    + now rewrite Hinside, run_zoomed_in.
    + cbn [altitude]; rewrite opacity_1_5; lra.
Defined.

Lemma outputs_follow_computed_sample_witness :
  let zoom := onZoom default_opts 100 17 in
  let out := sample_run default_opts sample_init zoomed_out in
  (surface_opacity (zoom (mkPov 0 0 0.7) out) = Some (opacity_of_altitude 0.7) /\
   facing_y (controls (zoom (mkPov 0 0 0.7) out)) =
     match facing_y (controls out) with
     | Some _ => Some (tilt_of_altitude 0.7)
     | None => None
     end /\
   (near (camera (zoom (mkPov 0 0 0.7) out)) = near (camera out) \/
    exists o0, _prevSurfaceOpacity out = num o0 /\
               ((o0 > 0 /\ opacity_of_altitude 0.7 = 0) \/
                (o0 = 0 /\ opacity_of_altitude 0.7 > 0)))) /\
  outputs (zoom (mkPov 0 0 1.500001) out) = outputs out.
Proof.
  intros zoom out.
  pose proof (outputs_follow_computed_sample default_opts 100 17 (mkPov 0 0 0.7) out)
    as [ Hcomputed _ ].
  pose proof (outputs_follow_computed_sample default_opts 100 17 (mkPov 0 0 1.500001) out)
    as [ _ Hskipped ].
  split.
  - apply Hcomputed.
    unfold out; rewrite run_zoomed_out; unfold opacity_sample; eval_run; reflexivity.
  - apply Hskipped.
    unfold out; rewrite run_zoomed_out; unfold opacity_sample; eval_run; reflexivity.
Defined.

Lemma surface_opacity_ramp_witness :
  let out := sample_run default_opts sample_init zoomed_out in
  surface_opacity (_changeSurfaceOpacity default_opts 100 17 0.7 out) =
    Some (opacity_of_altitude 0.7) /\
  opacity_of_altitude 0.3 = 0 /\
  opacity_of_altitude 1.5 = 1 /\
  opacity_of_altitude 0.7 = (0.7 - 0.4) / (1.0 - 0.4) /\
  opacity_of_altitude 0.7 <= opacity_of_altitude 0.8.
Proof.
  intros out.
  pose proof (surface_opacity_ramp default_opts 100 17 0.7)
    as (Hshown & _ & _ & Hmid & _ & Hmono).
  pose proof (surface_opacity_ramp default_opts 100 17 0.3) as (_ & Hlow & _).
  pose proof (surface_opacity_ramp default_opts 100 17 1.5) as (_ & _ & Hhigh & _).
  repeat apply conj.
  - apply (Hshown out (mkSurface 1 1 (0, 0) (0, 0)));
      [ unfold out; now rewrite run_zoomed_out | reflexivity ].
  - apply Hlow; lra.
  - apply Hhigh; lra.
  - apply Hmid; lra.
  - apply Hmono; lra.
Defined.

Lemma camera_tilt_hump_witness :
  let out := sample_run default_opts sample_init zoomed_out in
  facing_y (controls (_changeSurfaceOpacity default_opts 100 17 0.01 out)) =
    Some (tilt_of_altitude 0.01) /\
  tilt_of_altitude 0.06 = 0 /\
  tilt_of_altitude 0.01 = 80 * 0.5 * (cos ((0.01 - 0.025) * 2 * PI / 0.05) + 1).
Proof.
  intros out.
  pose proof (camera_tilt_hump default_opts 100 17 0.01) as (Hwritten & _ & Hin & _).
  pose proof (camera_tilt_hump default_opts 100 17 0.06) as (_ & Hout & _).
  repeat apply conj.
  - apply (Hwritten out (mkSurface 1 1 (0, 0) (0, 0)) (tilt_of_altitude 1.5));
      [ unfold out; now rewrite run_zoomed_out | reflexivity
      | unfold out; now rewrite run_zoomed_out ].
  - apply Hout; lra.
  - apply Hin; lra.
Defined.

Lemma showClouds_idempotent_witness :
  showClouds earth 0 false sample_init = sample_init /\
  clouds_builds (showClouds earth 0 true (showClouds earth 0 true sample_init)) = 1%nat.
Proof.
  pose proof (showClouds_idempotent earth 0) as (Hsame & _ & _ & Hone).
  split.
  - apply Hsame; reflexivity.
  - apply (Hone sample_init); reflexivity.
Defined.

Lemma missing_capability_degrades_witness :
  construct (_planet "moon") daynight_opts =
    construct (_planet "moon") (set_dayMode day daynight_opts) /\
  showClouds moon 0 true sample_init = sample_init.
Proof.
  pose proof (missing_capability_degrades moon 0) as [ Hnight Hclouds ].
  split.
  - apply (Hnight moon daynight_opts); reflexivity.
  - apply Hclouds; reflexivity.
Defined.

(** Two states of a controller in 'daynight' mode with different histories. *)
Lemma run_daynight_fresh :
  sample_run daynight_opts sample_init [SurfaceShown 0] =
  mkState false None None undefined
    (Some (mkSurface 1 1 (_sunPosAt (fun _ => 0) (fun _ => 0) (fun _ => 0) 0) (0, 0)))
    true undefined false None 0 0
    (mkControls false (num 2) 101 10000 (Some 0))
    sample_camera (mkScene true false 0) (mkBrowser 0 [] 1 0).
Proof.
  unfold sample_init, init, sample_controls, sample_camera.
  now eval_events.
Qed.




(** ** The near distance at the first computed sample *)

Lemma run_zoomed_in_while_loading :
  sample_run daynight_opts sample_init zoomed_in_while_loading =
  mkState false None (Some (mkPov 0 0 0.3)) undefined
    (Some (mkSurface 1 1 (_sunPosAt (fun _ => 0) (fun _ => 0) (fun _ => 0) 0) (0, 0)))
    true undefined false None 0 0
    (mkControls false (num 2) 101 10000 (Some 0))
    sample_camera (mkScene true false 0) (mkBrowser 0 [] 1 0).
Proof.
  unfold zoomed_in_while_loading, sample_init, init, sample_controls, sample_camera.
  now eval_events.
Qed.

(** C6 on the code, where it fails.  The camera is zoomed in to altitude 0.3
    while the surface loads; the surface then appears with opacity 1.  At the
    next sample, of altitude 0.29, the opacity of the surface goes from 1 to
    0, but nothing was recorded before ([_prevSurfaceOpacity] is still
    [undefined]), so the near distance is not set to 1e-5: it stays at 0.05,
    also at the following sample, of altitude 0.1. *)
Theorem near_stays_coarse_at_first_computed_sample :
  let zoom := onZoom daynight_opts 100 17 in
  let before := sample_run daynight_opts sample_init zoomed_in_while_loading in
  let after := zoom (mkPov 0 0 0.29) before in
  let deeper := zoom (mkPov 0 0 0.1) after in
  opacity_sample daynight_opts (mkPov 0 0 0.29) before = true /\
  surface_opacity before = Some 1 /\
  _prevSurfaceOpacity before = undefined /\
  surface_opacity after = Some 0 /\
  near (camera before) = 0.05 /\
  near (camera after) = 0.05 /\
  near (camera after) <> 1e-5 /\
  surface_opacity deeper = Some 0 /\
  near (camera deeper) = 0.05.
Proof.
  intros zoom before after deeper.
  assert (Hafter : after =
            mkState false None (Some (mkPov 0 0 0.29)) undefined
              (Some (mkSurface 1 0 (_sunPosAt (fun _ => 0) (fun _ => 0) (fun _ => 0) 0) (0, 0)))
              true (num 0) false None 0 0
              (mkControls false (num 2) 101 10000 (Some (tilt_of_altitude 0.29)))
              sample_camera (mkScene true false 0) (mkBrowser 0 [] 1 0)).
  { unfold after, before, zoom; rewrite run_zoomed_in_while_loading.
    unfold sample_camera.
    repeat (progress (cbn; eval_cmp; autorewrite with sample_values)).
    reflexivity. }
  assert (Hdeeper : deeper =
            mkState false None (Some (mkPov 0 0 0.1)) undefined
              (Some (mkSurface 1 0 (_sunPosAt (fun _ => 0) (fun _ => 0) (fun _ => 0) 0) (0, 0)))
              true (num 0) false None 0 0
              (mkControls false (num 2) 101 10000 (Some (tilt_of_altitude 0.1)))
              sample_camera (mkScene true false 0) (mkBrowser 0 [] 1 0)).
  { unfold deeper, zoom; rewrite Hafter.
    unfold sample_camera.
    repeat (progress (cbn; eval_cmp; autorewrite with sample_values)).
    reflexivity. }
  rewrite Hdeeper, Hafter; unfold before; rewrite run_zoomed_in_while_loading.
  unfold opacity_sample, sample_camera; cbn.
  eval_cmp; cbn.
  repeat split; lra.
Qed.

(** ** Concrete runs for the further properties *)

(** The clouds are requested and their texture arrives. *)
Lemma run_clouds_shown :
  sample_run default_opts sample_init [CallShowClouds true; CloudsTextureLoaded] =
  mkState false None None undefined None false undefined true
    (Some (mkClouds (0 + 0.006 * PI / 180))) 1 0
    (mkControls false (num 2) 101 10000 (Some 0))
    sample_camera (mkScene false true 0) (mkBrowser 0 [] 1 1).
Proof.
  unfold sample_init, init, sample_controls, sample_camera.
  now eval_events.
Qed.

(** The clouds are requested and hidden again before their texture arrives. *)
Lemma run_clouds_cancelled :
  sample_run default_opts sample_init [CallShowClouds true; CallShowClouds false] =
  mkState false None None undefined None false undefined false None 1 1
    (mkControls false (num 2) 101 10000 (Some 0))
    sample_camera (mkScene false false 0) (mkBrowser 0 [] 1 0).
Proof.
  unfold sample_init, init, sample_controls, sample_camera.
  now eval_events.
Qed.

(** The controller is ready and [spinGlobe()] has started the rotation at
    the configured speed. *)
Lemma run_spinning :
  sample_run default_opts sample_init [Ready; CallSpinGlobe undefined] =
  mkState true None None (num 0.35) None false undefined false None 0 0
    (mkControls true (num 0.35) 101 10000 None)
    sample_camera (mkScene false false 0) (mkBrowser 0 [] 1 0).
Proof.
  unfold sample_init, init, sample_controls, sample_camera.
  now eval_events.
Qed.

Lemma interactions_before_ready_are_ignored_witness :
  let s := sample_run default_opts sample_init [Click; CallShowClouds true; SurfaceShown 0] in
  spin_view s = spin_view sample_init /\ _globeready s = false.
Proof.
  apply (interactions_before_ready_are_ignored default_opts earth 100 17 0
           (fun _ => 0) (fun _ => 0) (fun _ => 0) sample_init
           [Click; CallShowClouds true; SurfaceShown 0]).
  - reflexivity.
  - repeat constructor.
Defined.

Lemma zero_idle_delay_never_stops_witness :
  let opts := mkOpts 0.35 0 0.01 0.4 true true day in
  spin_view (sample_run opts sample_init [Ready; Click; Zoom (mkPov 0 0 1)]) =
  spin_view sample_init.
Proof.
  apply (zero_idle_delay_never_stops (mkOpts 0.35 0 0.01 0.4 true true day) earth 100 17 0
           (fun _ => 0) (fun _ => 0) (fun _ => 0) sample_init
           [Ready; Click; Zoom (mkPov 0 0 1)]).
  - cbn; lia.
  - reflexivity.
  - repeat constructor.
Defined.

Lemma interaction_restarts_idle_delay_witness :
  let opts := default_opts in
  let s := sample_run opts sample_init [Ready] in
  let again :=
    _onInteraction opts (elapse opts 10000 (mkPov 0 0 2.5) (_onInteraction opts s)) in
  (exists h, timeouts (browser again) = [(h, (10000 + 15000)%Z)] /\
             _nonInteractionTimer again = Some h) /\
  autoRotate (controls (elapse opts 20000 (mkPov 0 0 2.5) again)) = false.
Proof.
  apply (interaction_restarts_idle_delay default_opts earth 100 17 0
           (fun _ => 0) (fun _ => 0) (fun _ => 0) sample_camera sample_controls
           [Ready] 10000 20000 (mkPov 0 0 2.5) (mkPov 0 0 2.5)).
  - reflexivity.
  - reflexivity.
  - cbn; lia.
  - cbn; lia.
Defined.

Lemma pause_then_resume_restores_rotation_witness :
  let opts := default_opts in
  let s := sample_run opts sample_init [Ready; CallSpinGlobe undefined] in
  let paused := _onInteraction opts s in
  let resumed := elapse opts (0 + 15000) (mkPov 0 0 2.5) paused in
  autoRotate (controls paused) = false /\
  controls resumed = controls s /\ _spinspeed resumed = num 0.35.
Proof.
  cbv zeta.
  pose proof (pause_then_resume_restores_rotation default_opts earth 100 17 0
                (fun _ => 0) (fun _ => 0) (fun _ => 0) sample_camera sample_controls
                [Ready; CallSpinGlobe undefined] 0.35 (mkPov 0 0 2.5)) as H.
  cbv zeta in H.
  change (run default_opts earth 100 17 0 (fun _ => 0) (fun _ => 0) (fun _ => 0)
            (init sample_camera sample_controls) [Ready; CallSpinGlobe undefined])
    with (sample_run default_opts sample_init [Ready; CallSpinGlobe undefined]) in H.
  rewrite run_spinning in *.
  apply H; try reflexivity; cbn; lra.
Defined.

Lemma fine_near_only_when_transparent_witness :
  let s := sample_run default_opts sample_init zoomed_out in
  (near (camera s) = near sample_camera \/ near (camera s) = 0.05 \/
   near (camera s) = 1e-5) /\
  (near (camera s) = 1e-5 -> surface_opacity s = Some 0).
Proof.
  apply (fine_near_only_when_transparent default_opts earth 100 17 0
           (fun _ => 0) (fun _ => 0) (fun _ => 0) sample_camera sample_controls zoomed_out).
  cbn; lra.
Defined.

Lemma shown_opacity_in_unit_interval_witness :
  surface_opacity (sample_run default_opts sample_init zoomed_out) = Some 1 /\
  0 <= 1 <= 1.
Proof.
  assert (H : surface_opacity (sample_run default_opts sample_init zoomed_out) = Some 1)
    by (rewrite run_zoomed_out; reflexivity).
  split; [ exact H | ].
  exact (shown_opacity_in_unit_interval default_opts earth 100 17 0
           (fun _ => 0) (fun _ => 0) (fun _ => 0) sample_camera sample_controls
           zoomed_out 1 H).
Defined.

Lemma without_tile_engine_nothing_fades_witness :
  let opts := mkOpts 0.35 15000 0.01 0.4 true false day in
  let s := sample_run opts sample_init [Zoom (mkPov 0 0 2); Zoom (mkPov 0 0 0.1)] in
  camera s = sample_camera /\
  minDistance (controls s) = minDistance sample_controls /\
  maxDistance (controls s) = maxDistance sample_controls /\
  _prevSurfaceOpacity s = undefined /\
  (surface_opacity s = None \/ surface_opacity s = Some 1).
Proof.
  apply (without_tile_engine_nothing_fades (mkOpts 0.35 15000 0.01 0.4 true false day)
           earth 100 17 0 (fun _ => 0) (fun _ => 0) (fun _ => 0)
           sample_camera sample_controls [Zoom (mkPov 0 0 2); Zoom (mkPov 0 0 0.1)]).
  reflexivity.
Defined.

Lemma outside_daynight_uniforms_untouched_witness :
  let s := sample_run default_opts sample_init zoomed_out in
  _solar s = false /\
  forall sf, _surface s = Some sf ->
             uniforms_opacity sf = 1 /\
             uniforms_sunPosition sf = (0, 0) /\
             uniforms_globeRotation sf = (0, 0).
Proof.
  apply (outside_daynight_uniforms_untouched default_opts earth 100 17 0
           (fun _ => 0) (fun _ => 0) (fun _ => 0) sample_camera sample_controls zoomed_out).
  discriminate.
Defined.

Lemma globe_rotation_follows_samples_witness :
  let s := sample_run daynight_opts sample_init [SurfaceShown 0] in
  option_map uniforms_globeRotation
    (_surface (onZoom daynight_opts 100 17 (mkPov 10 20 2) s)) = Some (20, 10).
Proof.
  cbv zeta.
  destruct (globe_rotation_follows_samples daynight_opts earth 100 17 0
              (fun _ => 0) (fun _ => 0) (fun _ => 0)
              (sample_run daynight_opts sample_init [SurfaceShown 0])
              (mkSurface 1 1 (_sunPosAt (fun _ => 0) (fun _ => 0) (fun _ => 0) 0) (0, 0)))
    as [ Hmoved _ ].
  - rewrite run_daynight_fresh; reflexivity.
  - rewrite run_daynight_fresh; reflexivity.
  - apply (Hmoved (mkPov 10 20 2)).
    rewrite run_daynight_fresh; exact I.
Defined.


(** The clouds are requested, hidden and requested again before a texture
    has arrived; then the first of the two textures arrives. *)
Lemma run_clouds_twice :
  sample_run default_opts sample_init
    [CallShowClouds true; CallShowClouds false; CallShowClouds true; CloudsTextureLoaded] =
  mkState false None None undefined None false undefined true
    (Some (mkClouds (0 + 0.006 * PI / 180))) 2 1
    (mkControls false (num 2) 101 10000 (Some 0))
    sample_camera (mkScene false true 0) (mkBrowser 0 [] 1 1).
Proof.
  unfold sample_init, init, sample_controls, sample_camera.
  now eval_events.
Qed.

Lemma clouds_mesh_built_once_witness :
  (let s := sample_run default_opts sample_init [CallShowClouds true; CloudsTextureLoaded] in
   let s' :=
     sample_run default_opts s
       [CallShowClouds false; Click; CallShowClouds true; CloudsTextureLoaded; Frame] in
   clouds_builds s' = clouds_builds s /\
   clouds_loading s' = O /\
   clouds_replaced (scene s') = clouds_replaced (scene s) /\
   exists n,
     _clouds s' =
     Some (mkClouds (0 + 0.006 * PI / 180 + INR n * (cloudsRotateSpeed earth * PI / 180)))) /\
  (let s :=
     sample_run default_opts sample_init
       [CallShowClouds true; CallShowClouds false; CallShowClouds true;
        CloudsTextureLoaded] in
   let s' := clouds_texture_loaded earth s in
   _clouds s' = Some (mkClouds (0 + cloudsRotateSpeed earth * PI / 180)) /\
   clouds_replaced (scene s') = S (clouds_replaced (scene s)) /\
   clouds_replaced (scene (showClouds earth 0 false s')) = S (clouds_replaced (scene s))).
Proof.
  split.
  - destruct (clouds_mesh_built_once default_opts earth 100 17 0
                (fun _ => 0) (fun _ => 0) (fun _ => 0)
                (sample_run default_opts sample_init [CallShowClouds true; CloudsTextureLoaded])
                (mkClouds (0 + 0.006 * PI / 180))) as [ Hkept _ ].
    + rewrite run_clouds_shown; reflexivity.
    + apply (Hkept ltac:(rewrite run_clouds_shown; reflexivity)
               [CallShowClouds false; Click; CallShowClouds true; CloudsTextureLoaded; Frame]).
  - destruct (clouds_mesh_built_once default_opts earth 100 17 0
                (fun _ => 0) (fun _ => 0) (fun _ => 0)
                (sample_run default_opts sample_init
                   [CallShowClouds true; CallShowClouds false; CallShowClouds true;
                    CloudsTextureLoaded])
                (mkClouds (0 + 0.006 * PI / 180))) as [ _ Hreplaced ].
    + rewrite run_clouds_twice; reflexivity.
    + apply Hreplaced; rewrite run_clouds_twice; [ discriminate | reflexivity ].
Defined.

Lemma late_texture_attaches_hidden_clouds_witness :
  let s := sample_run default_opts sample_init [CallShowClouds true; CallShowClouds false] in
  let s' := clouds_texture_loaded earth s in
  clouds_attached (scene s') = true /\
  _cloudsshown s' = false /\
  _clouds s' = Some (mkClouds (0 + cloudsRotateSpeed earth * PI / 180)) /\
  frames_requested (browser s') = frames_requested (browser s) /\
  showClouds earth 0 false s' = s'.
Proof.
  apply (late_texture_attaches_hidden_clouds earth 0
           (sample_run default_opts sample_init [CallShowClouds true; CallShowClouds false])).
  - rewrite run_clouds_cancelled; reflexivity.
  - rewrite run_clouds_cancelled; discriminate.
Defined.

Lemma rotation_follows_visibility_witness :
  let s := sample_run default_opts sample_init [CallShowClouds true; CloudsTextureLoaded] in
  let s' := sample_run default_opts s (repeat Frame 3) in
  _clouds s' =
    Some (mkClouds (0 + 0.006 * PI / 180 + INR 3 * (cloudsRotateSpeed earth * PI / 180))) /\
  frames_requested (browser s') = 1%nat.
Proof.
  cbv zeta.
  destruct (rotation_follows_visibility default_opts earth 100 17 0
              (fun _ => 0) (fun _ => 0) (fun _ => 0)
              (sample_run default_opts sample_init [CallShowClouds true; CloudsTextureLoaded])
              (mkClouds (0 + 0.006 * PI / 180)) 1 3) as [ Hshown _ ].
  - rewrite run_clouds_shown; reflexivity.
  - rewrite run_clouds_shown; reflexivity.
  - apply Hshown; [ rewrite run_clouds_shown; reflexivity | lia ].
Defined.

Lemma reshow_adds_rotation_witness :
  let s := sample_run default_opts sample_init [CallShowClouds true; CloudsTextureLoaded] in
  let s' := showClouds earth 0 true (showClouds earth 0 false s) in
  frames_requested (browser s') = S (frames_requested (browser s)) /\
  _clouds s' =
    Some (mkClouds (0 + 0.006 * PI / 180 + cloudsRotateSpeed earth * PI / 180)) /\
  clouds_attached (scene s') = true /\
  clouds_builds s' = clouds_builds s.
Proof.
  apply (reshow_adds_rotation earth 0
           (sample_run default_opts sample_init [CallShowClouds true; CloudsTextureLoaded])
           (mkClouds (0 + 0.006 * PI / 180))).
  - reflexivity.
  - rewrite run_clouds_shown; reflexivity.
  - rewrite run_clouds_shown; reflexivity.
Defined.

Lemma globe_image_or_surface_overlay_witness :
  let o' := apply_planet earth default_opts in
  (fst (globe_images earth o') = None <-> shows_surface o' earth = true) /\
  (shows_surface o' earth = true -> globe_images earth o' = (None, None)).
Proof.
  apply (globe_image_or_surface_overlay earth default_opts).
  reflexivity.
Defined.

(** Paris: an hour ahead of Greenwich in January, two in July. *)
Lemma getUserLatLng_position_witness :
  let (lat, lng) := _getUserLatLng (-60) (-60) (-120) in
  -180 <= lng <= 180 /\ lng = - IZR (-60) / 4 /\
  (lat = 30 /\ (-120 < -60)%Z \/
   lat = -30 /\ (-60 < -120)%Z \/
   lat = 0 /\ (-60)%Z = (-120)%Z) /\
  fst (_getUserLatLng (-60) (-120) (-60)) = - lat.
Proof.
  apply (getUserLatLng_position (-60) (-60) (-120)).
  lia.
Defined.

Lemma changeCameraNear_limits_witness :
  let s' := _changeCameraNear 100 17 1e-5 sample_init in
  near (camera s') = 1e-5 /\
  100 < minDistance (controls s') <= 6 * 100 /\
  minDistance (controls s') < maxDistance (controls s') /\
  maxDistance (controls s') = 99 * 100 /\
  maxDistance (controls s') + 100 = far (camera s').
Proof.
  apply (changeCameraNear_limits 100 17 1e-5 sample_init).
  lra.
Defined.

Lemma intensity_is_a_cosine_witness :
  let sun := Shader.rotatedSunDirection (0, 0) (0, 0) in
  let n := Shader.vec3 0 0 1 in
  Shader.dot sun sun = 1 /\
  Shader.intensity (0, 0) (0, 0) n = Shader.dot n sun / sqrt (Shader.dot n n) /\
  -1 <= Shader.intensity (0, 0) (0, 0) n <= 1.
Proof.
  apply (intensity_is_a_cosine (0, 0) (0, 0) (Shader.vec3 0 0 1)).
  unfold Shader.dot; cbn; lra.
Defined.
